(** * Isochrone service and overlap pass: a shallow embedding

    The server part follows the module [routes/isochrones] of the server,
    whose text stands in [src/server/app.ts] after that of [app.ts] itself:
    the in-memory cache, the zod request schema, [generateMockIsochrones]
    and the three POST handlers.  The client part follows [useIntersections]
    of the hook module [use-map], whose text stands in [src/README.md].

    JavaScript numbers are IEEE binary64 values and are modelled by Rocq's
    primitive floats, whose arithmetic is the same.  What the JavaScript
    host supplies and the language leaves open is gathered in the record
    [Host]: the clock, the random source, the implementation-approximated
    [Math.cos] and [Math.sin], and the conversion of a number to text.
    Epoch milliseconds are integers far below 2^53, on which the
    subtraction of the code is exact, and are modelled in [Z]. *)

From Stdlib Require Import Floats ZArith List Lia Ascii String.
From stdpp Require Import gmap strings list.

Open Scope string_scope.
Open Scope list_scope.
Open Scope Z_scope.

(* Decimal literals such as [0.15] denote the nearest binary64 value, as in
   JavaScript. *)
Set Warnings "-inexact-float,-register-all".

(** ** Data model (the zod schemas of the server)

    The constant [type] tags (["Feature"], ["Polygon"],
    ["FeatureCollection"]) are left out.  The two [id] fields of a response
    are [metadata_id] and [query_id]; the fields of its query are prefixed
    likewise. *)

Inductive Transport := driving_car | cycling_regular | foot_walking.

Definition transport_name (t : Transport) : string :=
  match t with
  | driving_car => "driving-car"
  | cycling_regular => "cycling-regular"
  | foot_walking => "foot-walking"
  end.

(** [CoordinateSchema]: a pair of numbers; [location[0]] is [fst] and
    [location[1]] is [snd]. *)
Abbreviation Coordinate := (float * float)%type.

Abbreviation Ring := (list Coordinate).

Record Geometry := { coordinates : list Ring }.

Record FeatureProperties :=
  { group_index : nat; value : float; center : Coordinate }.

Record Feature := { geometry : Geometry; properties : FeatureProperties }.

Record Engine :=
  { version : string; build_date : string; graph_date : string;
    osm_date : string }.

Record QueryMetadata :=
  { query_id : option string; query_locations : list Coordinate;
    query_range : list float; query_transport : option Transport }.

Record Metadata :=
  { metadata_id : option string; attribution : string; service : string;
    timestamp : Z; query : QueryMetadata; engine : Engine }.

Record IsochronesResponse :=
  { bbox : list float; features : list Feature; metadata : Metadata }.

Record IsochronesRequest :=
  { locations : list Coordinate; range : list float; id : option string }.

(** ** The host *)

Record Host :=
  { Date_now : nat -> Z;            (* the n-th reading of the clock *)
    Math_random : nat -> float;     (* the n-th draw of [Math.random()] *)
    Math_cos : float -> float;
    Math_sin : float -> float;
    Number_toString : float -> string (* [Number::toString] *) }.

(** [Math.PI], the binary64 value nearest to pi (3.141592653589793). *)
Definition Math_PI : float := 0x1.921fb54442d18p+1%float.

(** The value of an integer loop counter as a number. *)
Definition number_of_nat (n : nat) : float :=
  PrimFloat.of_uint63 (Uint63.of_Z (Z.of_nat n)).

(** ** Server state: the module-level cache and the use made of the host *)

(** A cache entry, [{ data, timestamp }]. *)
Module Entry.
Record t := { data : IsochronesResponse; timestamp : Z }.
End Entry.

Record World :=
  { cache : gmap string Entry.t;
    clock_reads : nat;     (* calls of [Date.now()] made so far *)
    random_draws : nat     (* calls of [Math.random()] made so far *) }.

Definition State (A : Type) : Type := World -> A * World.

Definition ret {A} (a : A) : State A := fun w => (a, w).

Definition bind {A B} (m : State A) (k : A -> State B) : State B :=
  fun w => let (a, w') := m w in k a w'.

Declare Scope state_scope.
Delimit Scope state_scope with state.
Notation "'let*' x ':=' m 'in' k" := (bind m (fun x => k))
  (at level 10, x name, m at level 100, k at level 200) : state_scope.
Notation "m ';;' k" := (bind m (fun _ => k))
  (at level 100, k at level 200, right associativity) : state_scope.
Open Scope state_scope.

(** [arr.forEach((x, index) => ...)] where the body updates an accumulator. *)
Fixpoint forEach_from {A Acc} (index : nat) (arr : list A)
    (body : A -> nat -> Acc -> State Acc) (acc : Acc) : State Acc :=
  match arr with
  | [] => ret acc
  | x :: rest =>
      let* acc' := body x index acc in
      forEach_from (S index) rest body acc'
  end.

Definition forEach {A Acc} (arr : list A)
    (body : A -> nat -> Acc -> State Acc) (acc : Acc) : State Acc :=
  forEach_from 0 arr body acc.

(** [for (let i = start; i < start + steps; i++) ...] *)
Fixpoint for_loop {Acc} (i steps : nat) (body : nat -> Acc -> State Acc)
    (acc : Acc) : State Acc :=
  match steps with
  | O => ret acc
  | S steps' =>
      let* acc' := body i acc in
      for_loop (S i) steps' body acc'
  end.

Section Server.

Variable host : Host.

Definition now : State Z :=
  fun w =>
    (Date_now host (clock_reads w),
     {| cache := cache w; clock_reads := S (clock_reads w);
        random_draws := random_draws w |}).

Definition random : State float :=
  fun w =>
    (Math_random host (random_draws w),
     {| cache := cache w; clock_reads := clock_reads w;
        random_draws := S (random_draws w) |}).

Definition cache_get (key : string) : State (option Entry.t) :=
  fun w => (cache w !! key, w).

Definition cache_delete (key : string) : State unit :=
  fun w =>
    (tt, {| cache := delete key (cache w); clock_reads := clock_reads w;
            random_draws := random_draws w |}).

Definition cache_set (key : string) (e : Entry.t) : State unit :=
  fun w =>
    (tt, {| cache := <[key := e]> (cache w); clock_reads := clock_reads w;
            random_draws := random_draws w |}).

(** *** The cache *)

Definition CACHE_TTL : Z := 60 * 60 * 1000.

(** [JSON.stringify] of a number: a number that is not finite prints as
    [null]. *)
Definition JSON_number (x : float) : string :=
  if PrimFloat.is_finite x then Number_toString host x else "null".

Definition JSON_array (items : list string) : string :=
  "[" +:+ String.concat "," items +:+ "]".

Definition JSON_locations (locs : list Coordinate) : string :=
  JSON_array
    (map (fun c : Coordinate =>
            JSON_array [JSON_number (fst c); JSON_number (snd c)]) locs).

Definition JSON_range (rng : list float) : string :=
  JSON_array (map JSON_number rng).

Definition getCacheKey (transport : string) (locs : list Coordinate)
    (rng : list float) : string :=
  transport +:+ ":" +:+ JSON_locations locs +:+ ":" +:+ JSON_range rng.

Definition getFromCache (key : string) : State (option IsochronesResponse) :=
  let* cached := cache_get key in
  match cached with
  | Some c =>
      let* t := now in
      if (t - Entry.timestamp c <? CACHE_TTL)%Z then ret (Some (Entry.data c))
      else (cache_delete key ;; ret None)
  | None => cache_delete key ;; ret None
  end.

Definition setCache (key : string) (d : IsochronesResponse) : State unit :=
  let* t := now in
  cache_set key {| Entry.data := d; Entry.timestamp := t |}.

(** *** The polygon synthesizer *)

Definition numPoints : nat := 12.
Arguments numPoints : simpl never.
Definition noiseScale : float := 0.15%float.

Definition radiusDegrees (rangeValue : float) : float :=
  (rangeValue / 1000 / 50)%float.

(** The body of the [for] loop: one vertex, from one draw. *)
Definition vertex (location : Coordinate) (rangeValue : float) (i : nat)
    (u : float) : Coordinate :=
  let angle := (number_of_nat i / number_of_nat numPoints * Math_PI * 2)%float in
  let noise := ((u - 0.5) * 2 * noiseScale)%float in
  let noisyRadius := (radiusDegrees rangeValue * (1 + noise))%float in
  let x :=
    (fst location +
     noisyRadius * Math_cos host angle /
       Math_cos host (snd location * Math_PI / 180))%float in
  let y := (snd location + noisyRadius * Math_sin host angle)%float in
  (x, y).

(** Closing the polygon: [points.push(points[0])]. *)
Definition close_ring (points : Ring) : Ring :=
  match points !! 0%nat with
  | Some p0 => points ++ [p0]
  | None => points (* not reached: the loop has pushed [numPoints] points *)
  end.

(** The part of the inner callback of [generateMockIsochrones] that builds
    [points] for one location and one range value: the polygon synthesizer
    of the specification. *)
Definition synthesize (location : Coordinate) (rangeValue : float)
    : State Ring :=
  let* points :=
    for_loop 0 numPoints
      (fun i points =>
         let* u := random in
         ret (points ++ [vertex location rangeValue i u]))
      [] in
  ret (close_ring points).

Definition mock_engine : Engine :=
  {| version := "9.5.0";
     build_date := "2025-10-31T12:33:09Z";
     graph_date := "2025-12-28T11:13:32Z";
     osm_date := "2025-12-22T00:59:58Z" |}.

Definition world_bbox : list float :=
  [(-180)%float; (-90)%float; 180%float; 90%float].

Definition generateMockIsochrones (locs : list Coordinate)
    (rng : list float) (rid : option string) (transport : option Transport)
    : State IsochronesResponse :=
  let* feats :=
    forEach locs
      (fun location locIndex feats =>
         forEach rng
           (fun rangeValue _ feats =>
              let* points := synthesize location rangeValue in
              ret (feats ++
                   [{| geometry := {| coordinates := [points] |};
                       properties :=
                         {| group_index := locIndex;
                            value := rangeValue;
                            center := location |} |}]))
           feats)
      [] in
  let* t := now in
  ret {| bbox := world_bbox;
         features := feats;
         metadata :=
           {| metadata_id := rid;
              attribution := "openrouteservice.org | OpenStreetMap contributors";
              service := "isochrones";
              timestamp := t;
              query :=
                {| query_id := rid; query_locations := locs;
                   query_range := rng; query_transport := transport |};
              engine := mock_engine |} |}.

End Server.

(** ** Request validation

    The body of a request, as [JSON.parse] leaves it.  An object is kept as
    the list of its members; reading a property takes the last member of
    that name, as [JSON.parse] does for a repeated name. *)

Inductive json :=
  | JNull
  | JBool (b : bool)
  | JNumber (x : float)
  | JString (s : string)
  | JArray (items : list json)
  | JObject (members : list (string * json)).

Fixpoint property (name : string) (members : list (string * json))
    : option json :=
  match members with
  | [] => None
  | (k, v) :: rest =>
      match property name rest with
      | Some v' => Some v'
      | None => if String.eqb k name then Some v else None
      end
  end.

(** [z.number()]: a number that is neither NaN nor infinite (the
    specification has coordinates and ranges finite). *)
Definition z_number (j : json) : option float :=
  match j with
  | JNumber x => if PrimFloat.is_finite x then Some x else None
  | _ => None
  end.

(** [z.number().positive()]: [x > 0]. *)
Definition z_number_positive (j : json) : option float :=
  match z_number j with
  | Some x => if (0 <? x)%float then Some x else None
  | None => None
  end.

Definition z_string (j : json) : option string :=
  match j with
  | JString s => Some s
  | _ => None
  end.

(** [z.array(item)]: every element must parse. *)
Fixpoint z_items {A} (item : json -> option A) (items : list json)
    : option (list A) :=
  match items with
  | [] => Some []
  | j :: rest =>
      match item j, z_items item rest with
      | Some a, Some l => Some (a :: l)
      | _, _ => None
      end
  end.

Definition z_array {A} (item : json -> option A) (j : json)
    : option (list A) :=
  match j with
  | JArray items => z_items item items
  | _ => None
  end.

(** [z.array(item).nonempty()] *)
Definition z_array_nonempty {A} (item : json -> option A) (j : json)
    : option (list A) :=
  match z_array item j with
  | Some (a :: l) => Some (a :: l)
  | _ => None
  end.

(** [z.tuple([z.number(), z.number()])] *)
Definition CoordinateSchema (j : json) : option Coordinate :=
  match j with
  | JArray [a; b] =>
      match z_number a, z_number b with
      | Some x, Some y => Some (x, y)
      | _, _ => None
      end
  | _ => None
  end.

(** A required property: absent fails. *)
Definition required {A} (parse : json -> option A) (p : option json)
    : option A :=
  match p with
  | Some j => parse j
  | None => None
  end.

(** [.optional()]: absent is accepted; present must parse. *)
Definition optional {A} (parse : json -> option A) (p : option json)
    : option (option A) :=
  match p with
  | Some j =>
      match parse j with
      | Some a => Some (Some a)
      | None => None
      end
  | None => Some None
  end.

Definition IsochronesRequestSchema (body : json) : option IsochronesRequest :=
  match body with
  | JObject members =>
      match required (z_array_nonempty CoordinateSchema)
              (property "locations" members),
            required (z_array_nonempty z_number_positive)
              (property "range" members),
            optional z_string (property "id" members) with
      | Some locs, Some rng, Some rid =>
          Some {| locations := locs; range := rng; id := rid |}
      | _, _, _ => None
      end
  | _ => None
  end.

(** ** The routes *)

Inductive Body :=
  | Json_isochrones (r : IsochronesResponse)
  | Json_error (message : string)   (* [{ error }], of the [catch] branch *)
  | Json_validation_failure         (* what [zValidator] answers *)
  | Text (content : string).

(** A response: its status, the headers set with [c.header] and the JSON
    body given to [c.json]. *)
Record HttpResponse :=
  { status : nat; headers : list (string * string); body : Body }.

Definition header (name : string) (r : HttpResponse) : option string :=
  snd <$> find (fun h => String.eqb (fst h) name) (headers r).

Section Routes.

Variable host : Host.

(** The handler shared, up to the transport, by the three POST routes.
    Nothing in the body of the [try] can throw in this model, so the
    [catch] branch (status 500) is never taken. *)
Definition handler (transport : Transport) (request : IsochronesRequest)
    : State HttpResponse :=
  let cacheKey :=
    getCacheKey host (transport_name transport) (locations request)
      (range request) in
  let* cached := getFromCache host cacheKey in
  match cached with
  | Some d =>
      ret {| status := 200; headers := []; body := Json_isochrones d |}
  | None =>
      let* result :=
        generateMockIsochrones host (locations request) (range request)
          (id request) (Some transport) in
      setCache host cacheKey result ;;
      ret {| status := 200;
             headers := [("Cache-Control", "public, max-age=3600")];
             body := Json_isochrones result |}
  end.

(** [zValidator("json", IsochronesRequestSchema)] in front of the handler:
    a body that does not parse is answered with status 400 and the handler
    is not run. *)
Definition post (transport : Transport) (body : json) : State HttpResponse :=
  match IsochronesRequestSchema body with
  | Some request => handler transport request
  | None =>
      ret {| status := 400; headers := []; body := Json_validation_failure |}
  end.

Definition isochronesRoute (path : string) (body : json)
    : State HttpResponse :=
  if String.eqb path "/driving-car" then post driving_car body
  else if String.eqb path "/foot-walking" then post foot_walking body
  else if String.eqb path "/cycling-regular" then post cycling_regular body
  else ret {| status := 404; headers := []; body := Text "404 Not Found" |}.

(** A sequence of requests served one after the other. *)
Fixpoint serve (calls : list (string * json)) : State (list HttpResponse) :=
  match calls with
  | [] => ret []
  | (path, body) :: rest =>
      let* r := isochronesRoute path body in
      let* rs := serve rest in
      ret (r :: rs)
  end.

End Routes.

(** ** The overlap pass of the client ([useIntersections])

    [useQueries] holds one query per configured marker and calls [combine]
    with the current result of each.  A result carries [data] once its
    fetch has succeeded. *)

Inductive QueryStatus := pending | error | success.

Module Query.
Record result :=
  { status : QueryStatus; data : option IsochronesResponse }.
End Query.

(** What turf's [intersect] returns when it is not [null]. *)
Inductive TurfFeature :=
  | TurfPolygon (rings : list Ring)
  | TurfMultiPolygon (polygons : list (list Ring)).

Record PathOptions :=
  { color : string; weight : float; opacity : float; fillOpacity : float }.

Module MapGeoJson.
Record t := { key : string; data : TurfFeature; style : PathOptions }.
End MapGeoJson.

(** A computation that returns or throws. *)
Inductive Exc (A : Type) :=
  | Returns (a : A)
  | Throws.
Arguments Returns {A} a.
Arguments Throws {A}.

Definition exc_bind {A B} (m : Exc A) (k : A -> Exc B) : Exc B :=
  match m with
  | Returns a => k a
  | Throws => Throws
  end.

Declare Scope exc_scope.
Delimit Scope exc_scope with exc.
Notation "'let?' x ':=' m 'in' k" := (exc_bind m (fun x => k))
  (at level 10, x name, m at level 100, k at level 200) : exc_scope.

(** [for (let i = start; i < start + steps; i++) ...] in a body that may
    throw; [continue] is the body returning its accumulator unchanged. *)
Fixpoint for_range {Acc} (i steps : nat) (body : nat -> Acc -> Exc Acc)
    (acc : Acc) : Exc Acc :=
  match steps with
  | O => Returns acc
  | S steps' =>
      exc_bind (body i acc) (for_range (S i) steps' body)
  end.

Section Client.

Variable host : Host.

(** [intersect(featureCollection([polygon(a), polygon(b)]))] of turf: the
    intersection of the two polygons, [None] for [null]; [polygon] and
    [intersect] throw on coordinates they do not accept. *)
Variable turf_intersect :
  list Ring -> list Ring -> Exc (option TurfFeature).

(** [x[i]] followed by a property access: reading a property of
    [undefined] throws. *)
Definition at_index {A} (l : list A) (i : nat) : Exc A :=
  match l !! i with
  | Some a => Returns a
  | None => Throws
  end.

(** [position.join(",")] *)
Definition join_position (p : Coordinate) : string :=
  Number_toString host (fst p) +:+ "," +:+ Number_toString host (snd p).

Definition intersection_style : PathOptions :=
  {| color := "#8b5cf6"; weight := 2%float; opacity := 1%float;
     fillOpacity := 0.4%float |}.

(** The body of the inner loop, once [dataI] and [dataJ] are there.  The
    coordinates of a feature are an array, so the test
    [!coordsI || !coordsJ] of the code does not fire. *)
Definition intersect_pair (dataI dataJ : IsochronesResponse)
    (intersections : list MapGeoJson.t) : Exc (list MapGeoJson.t) :=
  (let? featureI := at_index (features dataI) 0 in
   let coordsI := coordinates (geometry featureI) in
   let? featureJ := at_index (features dataJ) 0 in
   let coordsJ := coordinates (geometry featureJ) in
   let? intersection := turf_intersect coordsI coordsJ in
   match intersection with
   | Some region =>
       let? ringI := at_index coordsI 0 in
       let? firstI := at_index ringI 0 in
       let? ringJ := at_index coordsJ 0 in
       let? firstJ := at_index ringJ 0 in
       Returns
         (intersections ++
          [{| MapGeoJson.key :=
                "intersection-" +:+ join_position firstI +:+ "-" +:+
                join_position firstJ;
              MapGeoJson.data := region;
              MapGeoJson.style := intersection_style |}])
   | None => Returns intersections
   end)%exc.

(** The [combine] callback of [useIntersections], whose value the hook
    returns. *)
Definition combine (results : list Query.result)
    : Exc (list MapGeoJson.t) :=
  for_range 0 (length results)
    (fun i intersections =>
       (let? resultI := at_index results i in
        match Query.data resultI with
        | None => Returns intersections
        | Some dataI =>
            for_range (S i) (length results - S i)
              (fun j intersections =>
                 let? resultJ := at_index results j in
                 match Query.data resultJ with
                 | None => Returns intersections
                 | Some dataJ => intersect_pair dataI dataJ intersections
                 end)
              intersections
        end)%exc)
    [].

End Client.

(** * Properties *)

(** ** The state monad *)

(** The world after [n] more draws of the random source. *)
Definition drawn (w : World) (n : nat) : World :=
  {| cache := cache w; clock_reads := clock_reads w;
     random_draws := random_draws w + n |}.

(** The world after one more reading of the clock. *)
Definition ticked (w : World) : World :=
  {| cache := cache w; clock_reads := S (clock_reads w);
     random_draws := random_draws w |}.

Lemma drawn_0 w : drawn w 0 = w.
Proof. destruct w; unfold drawn; simpl. f_equal. lia. Qed.

Lemma drawn_drawn w n m : drawn (drawn w n) m = drawn w (n + m).
Proof. unfold drawn; simpl. f_equal. lia. Qed.

Lemma bind_run {A B} (m : State A) (k : A -> State B) w :
  bind m k w = k (m w).1 (m w).2.
Proof. unfold bind. destruct (m w); reflexivity. Qed.

Lemma random_run host w :
  random host w = (Math_random host (random_draws w), drawn w 1).
Proof. unfold random, drawn. do 3 f_equal. lia. Qed.

Lemma now_run host w :
  now host w = (Date_now host (clock_reads w), ticked w).
Proof. reflexivity. Qed.

Lemma lookup_map {A B} (f : A -> B) (l : list A) (i : nat) :
  map f l !! i = f <$> l !! i.
Proof.
  revert i. induction l as [|a l IH]; intros [|i]; simpl; auto.
Qed.

(** ** The polygon synthesizer *)

Section Synthesizer.

Variable host : Host.

(** The [numPoints] vertices generated from the draws [d], [d+1], ... *)
Definition vertices_from (d : nat) (location : Coordinate)
    (rangeValue : float) : Ring :=
  map (fun k => vertex host location rangeValue k (Math_random host (d + k)))
      (seq 0 numPoints).

Definition ring_from (d : nat) (location : Coordinate) (rangeValue : float)
    : Ring :=
  close_ring (vertices_from d location rangeValue).

Lemma vertex_loop location rangeValue steps :
  forall i acc w,
    for_loop i steps
      (fun i points =>
         let* u := random host in
         ret (points ++ [vertex host location rangeValue i u]))
      acc w
    = (acc ++
       map (fun k =>
              vertex host location rangeValue (i + k)
                (Math_random host (random_draws w + k)))
           (seq 0 steps),
       drawn w steps).
Proof.
  induction steps as [|n IH]; intros i acc w; cbn [for_loop].
  - cbn. rewrite app_nil_r, drawn_0. reflexivity.
  - rewrite bind_run, bind_run, random_run. cbn [fst snd ret].
    rewrite IH, drawn_drawn. f_equal.
    rewrite <- app_assoc. cbn [seq map app]. do 2 f_equal.
    + f_equal; [lia | f_equal; lia].
    + rewrite <- seq_shift, map_map. apply map_ext; intros k.
      cbn [drawn random_draws]. f_equal; [lia | f_equal; lia].
Qed.

Lemma synthesize_run location rangeValue w :
  synthesize host location rangeValue w
  = (ring_from (random_draws w) location rangeValue, drawn w numPoints).
Proof.
  unfold synthesize. rewrite bind_run, vertex_loop. reflexivity.
Qed.

Lemma vertices_from_length d location rangeValue :
  length (vertices_from d location rangeValue) = numPoints.
Proof. unfold vertices_from. rewrite length_map, length_seq. reflexivity. Qed.

Lemma vertices_from_lookup d location rangeValue i :
  (i < numPoints)%nat ->
  vertices_from d location rangeValue !! i
  = Some (vertex host location rangeValue i (Math_random host (d + i))).
Proof.
  intros Hi. unfold vertices_from.
  rewrite lookup_map, lookup_seq_lt by exact Hi. reflexivity.
Qed.

Lemma ring_from_unfold d location rangeValue :
  ring_from d location rangeValue
  = vertices_from d location rangeValue ++
    [vertex host location rangeValue 0 (Math_random host (d + 0))].
Proof.
  unfold ring_from, close_ring.
  rewrite vertices_from_lookup by (unfold numPoints; lia). reflexivity.
Qed.

(** *** The features of a response *)

Definition feature_from (d locIndex : nat) (location : Coordinate)
    (rangeValue : float) : Feature :=
  {| geometry := {| coordinates := [ring_from d location rangeValue] |};
     properties :=
       {| group_index := locIndex; value := rangeValue;
          center := location |} |}.

(** The features of one location, the first of them from draw [d] on. *)
Fixpoint location_features (d locIndex : nat) (location : Coordinate)
    (rng : list float) : list Feature :=
  match rng with
  | [] => []
  | rangeValue :: rest =>
      feature_from d locIndex location rangeValue ::
      location_features (d + numPoints) locIndex location rest
  end.

Fixpoint all_features (d locIndex : nat) (locs : list Coordinate)
    (rng : list float) : list Feature :=
  match locs with
  | [] => []
  | location :: rest =>
      location_features d locIndex location rng ++
      all_features (d + numPoints * length rng) (S locIndex) rest rng
  end.

Lemma range_loop location locIndex rng :
  forall index feats w,
    forEach_from index rng
      (fun rangeValue (_ : nat) feats =>
         let* points := synthesize host location rangeValue in
         ret (feats ++
              [{| geometry := {| coordinates := [points] |};
                  properties :=
                    {| group_index := locIndex; value := rangeValue;
                       center := location |} |}]))
      feats w
    = (feats ++ location_features (random_draws w) locIndex location rng,
       drawn w (numPoints * length rng)).
Proof.
  induction rng as [|r rng IH]; intros index feats w; cbn [forEach_from].
  - unfold ret. cbn [location_features length].
    rewrite app_nil_r, Nat.mul_0_r, drawn_0. reflexivity.
  - rewrite bind_run, bind_run, synthesize_run. cbn [fst snd ret].
    rewrite IH, drawn_drawn, <- app_assoc. cbn [drawn random_draws].
    f_equal. f_equal. cbn [length]. lia.
Qed.

Lemma locations_loop rng locs :
  forall index feats w,
    forEach_from index locs
      (fun location locIndex feats =>
         forEach rng
           (fun rangeValue (_ : nat) feats =>
              let* points := synthesize host location rangeValue in
              ret (feats ++
                   [{| geometry := {| coordinates := [points] |};
                       properties :=
                         {| group_index := locIndex; value := rangeValue;
                            center := location |} |}]))
           feats)
      feats w
    = (feats ++ all_features (random_draws w) index locs rng,
       drawn w (numPoints * length rng * length locs)).
Proof.
  unfold forEach.
  induction locs as [|loc locs IH]; intros index feats w;
    cbn [forEach_from].
  - unfold ret. cbn [all_features length].
    rewrite app_nil_r, Nat.mul_0_r, drawn_0. reflexivity.
  - rewrite bind_run, !range_loop.
    cbn [fst snd]. rewrite IH, drawn_drawn, <- app_assoc.
    cbn [drawn random_draws all_features]. f_equal. f_equal.
    cbn [length]. lia.
Qed.

(** [generateMockIsochrones] in closed form: the features come from the
    next [numPoints * |range| * |locations|] draws, the timestamp is the
    next reading of the clock, and the cache is not touched. *)
Lemma generateMockIsochrones_run locs rng rid transport w :
  generateMockIsochrones host locs rng rid transport w
  = ({| bbox := world_bbox;
        features := all_features (random_draws w) 0 locs rng;
        metadata :=
          {| metadata_id := rid;
             attribution :=
               "openrouteservice.org | OpenStreetMap contributors";
             service := "isochrones";
             timestamp := Date_now host (clock_reads w);
             query :=
               {| query_id := rid; query_locations := locs;
                  query_range := rng; query_transport := transport |};
             engine := mock_engine |} |},
     ticked (drawn w (numPoints * length rng * length locs))).
Proof.
  unfold generateMockIsochrones. unfold forEach at 1.
  rewrite bind_run, locations_loop, bind_run, now_run. reflexivity.
Qed.

Lemma location_features_length d locIndex location rng :
  length (location_features d locIndex location rng) = length rng.
Proof.
  revert d. induction rng as [|r rng IH]; intros d; simpl; auto.
Qed.

Lemma location_features_lookup locIndex location rng :
  forall d j r,
    rng !! j = Some r ->
    location_features d locIndex location rng !! j
    = Some (feature_from (d + numPoints * j) locIndex location r).
Proof.
  induction rng as [|r0 rng IH]; intros d [|j] r Hj; simpl in Hj;
    try discriminate; cbn [location_features lookup list_lookup].
  - inversion Hj; subst. do 2 f_equal. lia.
  - rewrite (IH _ _ _ Hj). do 2 f_equal. lia.
Qed.

Lemma all_features_length rng locs :
  forall d locIndex,
    length (all_features d locIndex locs rng)
    = (length locs * length rng)%nat.
Proof.
  induction locs as [|loc locs IH]; intros d locIndex; simpl; auto.
  rewrite length_app, location_features_length, IH. reflexivity.
Qed.

Lemma all_features_lookup rng locs :
  forall d locIndex i j loc r,
    locs !! i = Some loc ->
    rng !! j = Some r ->
    all_features d locIndex locs rng !! (i * length rng + j)%nat
    = Some (feature_from (d + numPoints * (i * length rng + j))
              (locIndex + i) loc r).
Proof.
  induction locs as [|loc0 locs IH]; intros d locIndex [|i] j loc r Hi Hj;
    simpl in Hi; try discriminate; cbn [all_features].
  - inversion Hi; subst. apply lookup_lt_Some in Hj as Hlt.
    rewrite lookup_app_l by (rewrite location_features_length; lia).
    cbn [Nat.mul Nat.add]. rewrite (location_features_lookup _ _ _ _ _ _ Hj).
    do 2 f_equal. lia.
  - rewrite lookup_app_r by (rewrite location_features_length; simpl; lia).
    rewrite location_features_length.
    replace (S i * length rng + j - length rng)%nat
      with (i * length rng + j)%nat by (simpl; lia).
    rewrite (IH _ _ _ _ _ _ Hi Hj). f_equal.
    f_equal; [|lia].
    replace (S i * length rng)%nat with (length rng + i * length rng)%nat
      by (simpl; lia).
    lia.
Qed.

(** Every feature is one of a location and a range value, with a ring made
    by the synthesizer. *)
Lemma all_features_elem rng locs :
  forall d locIndex f,
    f ∈ all_features d locIndex locs rng ->
    exists d' i loc r, f = feature_from d' i loc r.
Proof.
  assert (Hloc : forall i loc d f,
             f ∈ location_features d i loc rng ->
             exists d' r, f = feature_from d' i loc r).
  { intros i loc. induction rng as [|r0 rng' IH]; intros d f Hf; simpl in Hf.
    - inversion Hf.
    - apply elem_of_cons in Hf as [->|Hf]; eauto. }
  induction locs as [|loc locs IH]; intros d locIndex f Hf; simpl in Hf.
  - inversion Hf.
  - apply elem_of_app in Hf as [Hf|Hf].
    + apply Hloc in Hf as (d' & r & ->). eauto.
    + eapply IH; eauto.
Qed.

End Synthesizer.

(** ** A host to run the model on

    A fixed clock of one reading per second, a fixed sequence of draws in
    [0, 1), cosine and sine by their power series, and numbers printed by
    the bits of their mantissa and exponent (least significant bit first;
    zero prints as ["0"]).  The properties below hold of every host; this
    one is used where a statement is tried on a concrete input. *)

Module Example.

Fixpoint series (x2 : float) (k terms : nat) : float :=
  match terms with
  | O => 1%float
  | S terms' =>
      (1 - x2 / number_of_nat (k * (k + 1)) * series x2 (k + 2) terms')%float
  end.

Definition cos (x : float) : float := series (x * x) 1 20.
Definition sin (x : float) : float := (x * series (x * x) 2 20)%float.

Definition draw (n : nat) : float :=
  (number_of_nat ((n * 37 + 11) mod 100) / 100)%float.

Definition clock (n : nat) : Z := 1767225600000 + 1000 * Z.of_nat n.

Fixpoint binary (p : positive) : string :=
  match p with
  | xH => "1"
  | xO q => String "0"%char (binary q)
  | xI q => String "1"%char (binary q)
  end.

Definition signed (z : Z) : string :=
  match z with
  | Z0 => "+"
  | Zpos p => String "+"%char (binary p)
  | Zneg p => String "-"%char (binary p)
  end.

Definition toString (x : float) : string :=
  match Prim2SF x with
  | S754_zero _ => "0"
  | S754_infinity false => "Infinity"
  | S754_infinity true => "-Infinity"
  | S754_nan => "NaN"
  | S754_finite s m e =>
      (if s then "-" else "") +:+ binary m +:+ "p" +:+ signed e
  end.

Definition host : Host :=
  {| Date_now := clock; Math_random := draw; Math_cos := cos;
     Math_sin := sin; Number_toString := toString |}.

Definition empty_world : World :=
  {| cache := ∅; clock_reads := 0; random_draws := 0 |}.

Definition london : Coordinate := ((-0.1)%float, 51.5%float).

End Example.

(** ** Claims about the synthesizer *)

(** C2 as stated fails: the 12 vertices of a ring need not be distinct.
    For a range far below the spacing of the numbers around the
    coordinates of the centre, here a range of 1e-13 at [100, 50], every
    vertex rounds to the centre. *)
Lemma ring_vertices_need_not_be_distinct :
  ~ (forall (host : Host) (location : Coordinate) (rangeValue : float)
       (w : World),
       is_finite location.1 = true -> is_finite location.2 = true ->
       is_finite rangeValue = true -> (0 <? rangeValue)%float = true ->
       NoDup (take 12 (synthesize host location rangeValue w).1)).
Proof.
  intros Hdistinct.
  specialize (Hdistinct Example.host (100, 50)%float 1e-13%float
                Example.empty_world eq_refl eq_refl eq_refl eq_refl).
  vm_compute in Hdistinct.
  apply NoDup_cons in Hdistinct as [Hnotin _]. apply Hnotin. left.
Qed.

(** The route accepts this request and serves the ring of 13 equal
    coordinates. *)
Example degenerate_ring_is_served :
  let response :=
    (isochronesRoute Example.host "/driving-car"
       (JObject
          [("locations", JArray [JArray [JNumber 100%float; JNumber 50%float]]);
           ("range", JArray [JNumber 1e-13%float])])
       Example.empty_world).1 in
  status response = 200%nat /\
  exists d f,
    body response = Json_isochrones d /\ features d = [f] /\
    coordinates (geometry f) = [replicate 13 (100, 50)%float].
Proof.
  vm_compute. split; [reflexivity|]. eexists _, _.
  split; [reflexivity|]. split; reflexivity.
Qed.

(** C2, amended. Every ring made by the synthesizer has exactly 13
    coordinates: the 12 vertices of the indices 0 to 11, each generated
    from a draw of its own, followed by a repetition of vertex 0, so that
    its first coordinate equals its last.  This holds of the ring of one
    synthesis and of every ring of every feature of a generated response.
    The 12 vertices need not be distinct as coordinates. *)
Theorem ring_has_13_coordinates_and_is_closed (host : Host) :
  let closed13 (location : Coordinate) (rangeValue : float) (ring : Ring) :=
    length ring = 13%nat /\
    head ring = last ring /\
    exists d,
      ring
      = map (fun i =>
               vertex host location rangeValue i (Math_random host (d + i)))
            (seq 0 12) ++
        [vertex host location rangeValue 0 (Math_random host (d + 0))] in
  (forall location rangeValue w,
     closed13 location rangeValue
       (synthesize host location rangeValue w).1) /\
  (forall locs rng rid transport w,
     Forall (fun f => exists ring,
                 coordinates (geometry f) = [ring] /\
                 closed13 (center (properties f)) (value (properties f)) ring)
       (features (generateMockIsochrones host locs rng rid transport w).1)).
Proof.
  intros closed13.
  assert (Hring : forall d location rangeValue,
             closed13 location rangeValue
               (ring_from host d location rangeValue)).
  { intros d location rangeValue. unfold closed13.
    rewrite ring_from_unfold.
    pose proof (vertices_from_length host d location rangeValue) as Hlen.
    pose proof (vertices_from_lookup host d location rangeValue 0) as H0.
    unfold numPoints in Hlen, H0. specialize (H0 ltac:(lia)).
    split; [|split].
    - rewrite length_app, Hlen. reflexivity.
    - rewrite last_snoc. rewrite head_lookup, lookup_app_l by lia. exact H0.
    - exists d. reflexivity. }
  split.
  - intros location rangeValue w. rewrite synthesize_run. apply Hring.
  - intros locs rng rid transport w. rewrite generateMockIsochrones_run.
    cbn [fst features]. apply Forall_forall. intros f Hf.
    apply all_features_elem in Hf as (d & i & loc & r & ->).
    eexists. split; [reflexivity | apply Hring].
Qed.

(** C7. Vertex [i] of a synthesized ring, for [i] below 12, lies at the
    angle [i / 12 * PI * 2] around the centre, at the radius
    [radiusDegrees * (1 + noise)] with [radiusDegrees = range / 1000 / 50];
    its noise is [(u - 0.5) * 2 * 0.15] for [u] the draw made for this
    vertex alone, the 12 vertices using 12 successive draws of
    [Math.random()]; the longitude offset is divided by the cosine of the
    latitude in radians and the latitude offset is not scaled. *)
Theorem vertex_at_equal_angles_with_noisy_radius (host : Host)
    (location : Coordinate) (rangeValue : float) (w : World) (i : nat) :
  (i < 12)%nat ->
  let u := Math_random host (random_draws w + i) in
  let noise := ((u - 0.5) * 2 * 0.15)%float in
  let angle := (number_of_nat i / 12 * Math_PI * 2)%float in
  let radiusDegrees := (rangeValue / 1000 / 50)%float in
  let radius := (radiusDegrees * (1 + noise))%float in
  let latitude_radians := (snd location * Math_PI / 180)%float in
  (synthesize host location rangeValue w).1 !! i
  = Some ((fst location +
           radius * Math_cos host angle / Math_cos host latitude_radians)%float,
          (snd location + radius * Math_sin host angle)%float) /\
  random_draws (synthesize host location rangeValue w).2
  = (random_draws w + 12)%nat.
Proof.
  intros Hi. cbv zeta. rewrite synthesize_run. cbn [fst snd]. split.
  - rewrite ring_from_unfold, lookup_app_l
      by (rewrite vertices_from_length; exact Hi).
    rewrite vertices_from_lookup by exact Hi. reflexivity.
  - reflexivity.
Qed.

Lemma vertex_at_equal_angles_with_noisy_radius_witness :
  (3 < 12)%nat /\
  (synthesize Example.host Example.london 500%float Example.empty_world).1
    !! 3%nat
  = Some ((-0.10000000000000001)%float, 51.509160000000001%float).
Proof.
  split; [lia|].
  pose proof (vertex_at_equal_angles_with_noisy_radius Example.host
                Example.london 500%float Example.empty_world 3 ltac:(lia))
    as [H _].
  rewrite H. vm_compute. reflexivity.
Defined.

(** ** The cache and the handler *)

Definition with_cache (c : gmap string Entry.t) (w : World) : World :=
  {| cache := c; clock_reads := clock_reads w;
     random_draws := random_draws w |}.

Section CacheFacts.

Variable host : Host.

Lemma getFromCache_absent key w :
  cache w !! key = None ->
  getFromCache host key w = (None, w).
Proof.
  intros Hk. unfold getFromCache, cache_get, cache_delete, bind, ret.
  rewrite Hk. rewrite delete_id by exact Hk. destruct w; reflexivity.
Qed.

Lemma getFromCache_fresh key e w :
  cache w !! key = Some e ->
  Date_now host (clock_reads w) - Entry.timestamp e < CACHE_TTL ->
  getFromCache host key w = (Some (Entry.data e), ticked w).
Proof.
  intros Hk Ht. unfold getFromCache, cache_get, bind, ret, now.
  rewrite Hk. apply Z.ltb_lt in Ht. rewrite Ht. reflexivity.
Qed.

Lemma getFromCache_expired key e w :
  cache w !! key = Some e ->
  CACHE_TTL <= Date_now host (clock_reads w) - Entry.timestamp e ->
  getFromCache host key w
  = (None, with_cache (delete key (cache w)) (ticked w)).
Proof.
  intros Hk Ht. unfold getFromCache, cache_get, cache_delete, bind, ret, now.
  rewrite Hk. apply Z.ltb_ge in Ht. rewrite Ht. reflexivity.
Qed.

(** What a lookup leaves behind when it finds nothing to return. *)
Lemma getFromCache_miss key w :
  (getFromCache host key w).1 = None ->
  let w' := (getFromCache host key w).2 in
  cache w' = delete key (cache w) /\
  random_draws w' = random_draws w /\
  (clock_reads w <= clock_reads w' <= S (clock_reads w))%nat.
Proof.
  intros Hmiss.
  destruct (cache w !! key) as [e|] eqn:Hk.
  - destruct (Z.lt_ge_cases (Date_now host (clock_reads w) - Entry.timestamp e)
                CACHE_TTL) as [Ht|Ht].
    + rewrite (getFromCache_fresh _ _ _ Hk Ht) in Hmiss. discriminate.
    + rewrite (getFromCache_expired _ _ _ Hk Ht). cbn. auto with lia.
  - rewrite (getFromCache_absent _ _ Hk). cbn.
    rewrite delete_id by exact Hk. auto with lia.
Qed.

Definition cacheKey (transport : Transport) (request : IsochronesRequest)
    : string :=
  getCacheKey host (transport_name transport) (locations request)
    (range request).

(** The handler on a hit: the cached data go out as they are; one reading
    of the clock is all that happens. *)
Lemma handler_hit transport request e w :
  cache w !! cacheKey transport request = Some e ->
  Date_now host (clock_reads w) - Entry.timestamp e < CACHE_TTL ->
  handler host transport request w
  = ({| status := 200; headers := [];
        body := Json_isochrones (Entry.data e) |},
     ticked w).
Proof.
  intros Hk Ht. unfold handler. rewrite bind_run.
  fold (cacheKey transport request).
  rewrite (getFromCache_fresh _ _ _ Hk Ht). reflexivity.
Qed.

(** The handler on a miss: a response is generated, stored under the key
    with the next reading of the clock, and sent with the cache
    directive. *)
Lemma handler_miss transport request w :
  (getFromCache host (cacheKey transport request) w).1 = None ->
  let w1 := (getFromCache host (cacheKey transport request) w).2 in
  let result :=
    (generateMockIsochrones host (locations request) (range request)
       (id request) (Some transport) w1).1 in
  let w2 :=
    (generateMockIsochrones host (locations request) (range request)
       (id request) (Some transport) w1).2 in
  handler host transport request w
  = ({| status := 200;
        headers := [("Cache-Control", "public, max-age=3600")];
        body := Json_isochrones result |},
     with_cache
       (<[cacheKey transport request :=
            {| Entry.data := result;
               Entry.timestamp := Date_now host (clock_reads w2) |}]>
          (cache w2))
       (ticked w2)).
Proof.
  intros Hmiss. cbv zeta. unfold handler. rewrite bind_run.
  fold (cacheKey transport request). rewrite Hmiss.
  rewrite bind_run. unfold setCache. rewrite !bind_run. reflexivity.
Qed.

End CacheFacts.

Section CacheInvariant.

Variable host : Host.

Lemma generateMockIsochrones_world locs rng rid transport w :
  let w' := (generateMockIsochrones host locs rng rid transport w).2 in
  cache w' = cache w /\
  clock_reads w' = S (clock_reads w) /\
  random_draws w'
  = (random_draws w + numPoints * length rng * length locs)%nat.
Proof. rewrite generateMockIsochrones_run. cbn. auto. Qed.

(** The clock is only ever read forward. *)
Lemma handler_clock transport request w :
  (clock_reads w <= clock_reads (handler host transport request w).2)%nat.
Proof.
  destruct ((getFromCache host (cacheKey host transport request) w).1)
    as [d|] eqn:Hlook.
  - destruct (cache w !! cacheKey host transport request) as [e|] eqn:Hk.
    + destruct (Z.lt_ge_cases
                  (Date_now host (clock_reads w) - Entry.timestamp e)
                  CACHE_TTL) as [Ht|Ht].
      * rewrite (handler_hit _ _ _ _ _ Hk Ht). cbn. lia.
      * rewrite (getFromCache_expired _ _ _ _ Hk Ht) in Hlook. discriminate.
    + rewrite (getFromCache_absent _ _ _ Hk) in Hlook. discriminate.
  - rewrite (handler_miss _ _ _ _ Hlook).
    cbn [snd with_cache ticked clock_reads].
    destruct (getFromCache_miss _ _ _ Hlook) as (_ & _ & Hc).
    destruct (generateMockIsochrones_world (locations request)
                (range request) (id request) (Some transport)
                (getFromCache host (cacheKey host transport request) w).2)
      as (_ & Hc' & _).
    cbv zeta in Hc'. rewrite Hc'. lia.
Qed.

(** An entry stays in the cache through a call as long as the clock, read
    during that call, stays within the TTL of the entry. *)
Lemma handler_keeps_entry key e transport request w :
  cache w !! key = Some e ->
  (forall n,
     (clock_reads w <= n < clock_reads (handler host transport request w).2)%nat ->
     Date_now host n - Entry.timestamp e < CACHE_TTL) ->
  cache (handler host transport request w).2 !! key = Some e.
Proof.
  intros Hkey Hwin.
  destruct ((getFromCache host (cacheKey host transport request) w).1)
    as [d|] eqn:Hlook.
  - destruct (cache w !! cacheKey host transport request) as [e'|] eqn:Hk.
    + destruct (Z.lt_ge_cases
                  (Date_now host (clock_reads w) - Entry.timestamp e')
                  CACHE_TTL) as [Ht|Ht].
      * rewrite (handler_hit _ _ _ _ _ Hk Ht). exact Hkey.
      * rewrite (getFromCache_expired _ _ _ _ Hk Ht) in Hlook. discriminate.
    + rewrite (getFromCache_absent _ _ _ Hk) in Hlook. discriminate.
  - pose proof (handler_clock transport request w) as Hclock.
    rewrite (handler_miss _ _ _ _ Hlook) in Hwin, Hclock |- *.
    cbn [snd with_cache cache ticked clock_reads] in *.
    destruct (getFromCache_miss _ _ _ Hlook) as (Hc1 & _ & Hr1).
    destruct (generateMockIsochrones_world (locations request)
                (range request) (id request) (Some transport)
                (getFromCache host (cacheKey host transport request) w).2)
      as (Hc2 & Hr2 & _).
    cbv zeta in Hc1, Hr1, Hc2, Hr2.
    destruct (decide (cacheKey host transport request = key)) as [Heq|Hne].
    + exfalso. rewrite Heq in *.
      destruct (Z.lt_ge_cases
                  (Date_now host (clock_reads w) - Entry.timestamp e)
                  CACHE_TTL) as [Ht|Ht].
      * rewrite (getFromCache_fresh _ _ _ _ Hkey Ht) in Hlook. discriminate.
      * specialize (Hwin (clock_reads w)). rewrite Hr2 in Hwin. lia.
    + rewrite lookup_insert_ne by exact Hne.
      rewrite Hc2, Hc1, lookup_delete_ne by exact Hne. exact Hkey.
Qed.

Lemma isochronesRoute_clock path body w :
  (clock_reads w <= clock_reads (isochronesRoute host path body w).2)%nat.
Proof.
  unfold isochronesRoute, post.
  repeat (destruct (String.eqb _ _)); try (cbn; lia);
    destruct (IsochronesRequestSchema body); try (cbn; lia);
    apply handler_clock.
Qed.

Lemma isochronesRoute_keeps_entry key e path body w :
  cache w !! key = Some e ->
  (forall n,
     (clock_reads w <= n < clock_reads (isochronesRoute host path body w).2)%nat ->
     Date_now host n - Entry.timestamp e < CACHE_TTL) ->
  cache (isochronesRoute host path body w).2 !! key = Some e.
Proof.
  unfold isochronesRoute, post. intros Hkey.
  repeat (destruct (String.eqb _ _)); try (intros; exact Hkey);
    destruct (IsochronesRequestSchema body); try (intros; exact Hkey);
    apply handler_keeps_entry; exact Hkey.
Qed.

Lemma serve_clock calls :
  forall w, (clock_reads w <= clock_reads (serve host calls w).2)%nat.
Proof.
  induction calls as [|[path body] calls IH]; intros w; cbn [serve].
  - cbn. lia.
  - rewrite !bind_run. cbn [ret snd].
    pose proof (isochronesRoute_clock path body w).
    pose proof (IH (isochronesRoute host path body w).2). lia.
Qed.

Lemma serve_keeps_entry key e calls :
  forall w,
    cache w !! key = Some e ->
    (forall n,
       (clock_reads w <= n < clock_reads (serve host calls w).2)%nat ->
       Date_now host n - Entry.timestamp e < CACHE_TTL) ->
    cache (serve host calls w).2 !! key = Some e.
Proof.
  induction calls as [|[path body] calls IH]; intros w Hkey Hwin;
    cbn [serve] in *.
  - exact Hkey.
  - rewrite !bind_run in Hwin |- *. cbn [ret snd] in *.
    pose proof (isochronesRoute_clock path body w) as H1.
    pose proof (serve_clock calls (isochronesRoute host path body w).2) as H2.
    apply IH.
    + apply isochronesRoute_keeps_entry; [exact Hkey|].
      intros n Hn. apply Hwin. lia.
    + intros n Hn. apply Hwin. lia.
Qed.

(** With a clock that does not run backwards, the timestamp of a cached
    response is not later than the timestamp of its entry. *)
Definition stamped (w : World) : Prop :=
  forall key e,
    cache w !! key = Some e ->
    timestamp (metadata (Entry.data e)) <= Entry.timestamp e.

Hypothesis clock_monotone :
  forall n m, (n <= m)%nat -> Date_now host n <= Date_now host m.

Lemma handler_stamped transport request w :
  stamped w -> stamped (handler host transport request w).2.
Proof.
  intros Hst.
  destruct ((getFromCache host (cacheKey host transport request) w).1)
    as [d|] eqn:Hlook.
  - destruct (cache w !! cacheKey host transport request) as [e|] eqn:Hk.
    + destruct (Z.lt_ge_cases
                  (Date_now host (clock_reads w) - Entry.timestamp e)
                  CACHE_TTL) as [Ht|Ht].
      * rewrite (handler_hit _ _ _ _ _ Hk Ht). exact Hst.
      * rewrite (getFromCache_expired _ _ _ _ Hk Ht) in Hlook. discriminate.
    + rewrite (getFromCache_absent _ _ _ Hk) in Hlook. discriminate.
  - rewrite (handler_miss _ _ _ _ Hlook).
    destruct (getFromCache_miss _ _ _ Hlook) as (Hc1 & _ & _).
    cbv zeta in Hc1. rewrite generateMockIsochrones_run.
    cbn [fst snd]. intros key e. cbn [cache with_cache ticked drawn].
    rewrite Hc1.
    destruct (decide (cacheKey host transport request = key)) as [<-|Hne].
    + rewrite lookup_insert_eq. intros He; inversion He; subst.
      cbn [Entry.data Entry.timestamp metadata timestamp clock_reads
           ticked drawn].
      apply clock_monotone. lia.
    + rewrite lookup_insert_ne, lookup_delete_ne by exact Hne. apply Hst.
Qed.

Lemma serve_stamped calls :
  forall w, stamped w -> stamped (serve host calls w).2.
Proof.
  induction calls as [|[path body] calls IH]; intros w Hst; cbn [serve].
  - exact Hst.
  - rewrite !bind_run. cbn [ret snd]. apply IH.
    unfold isochronesRoute, post.
    repeat (destruct (String.eqb _ _)); try exact Hst;
      (destruct (IsochronesRequestSchema body);
       [apply handler_stamped; exact Hst | exact Hst]).
Qed.

End CacheInvariant.

Section CacheClaims.

Variable host : Host.

(** A call that misses populates the cache; a later call with the same
    transport, locations and range, whatever its [id], is answered from
    that entry as long as the clock stays within the TTL of the entry. *)
Lemma populate_then_hit transport request1 request2 between w0 :
  locations request1 = locations request2 ->
  range request1 = range request2 ->
  (getFromCache host (cacheKey host transport request1) w0).1 = None ->
  let w1 := (handler host transport request1 w0).2 in
  let w2 := (serve host between w1).2 in
  exists e,
    cache w1 !! cacheKey host transport request1 = Some e /\
    Entry.timestamp e = Date_now host (clock_reads w1 - 1) /\
    Entry.data e
    = (generateMockIsochrones host (locations request1) (range request1)
         (id request1) (Some transport)
         (getFromCache host (cacheKey host transport request1) w0).2).1 /\
    (handler host transport request1 w0).1
    = {| status := 200;
         headers := [("Cache-Control", "public, max-age=3600")];
         body := Json_isochrones (Entry.data e) |} /\
    ((forall n,
        (clock_reads w1 <= n <= clock_reads w2)%nat ->
        Date_now host n - Entry.timestamp e < CACHE_TTL) ->
     handler host transport request2 w2
     = ({| status := 200; headers := [];
           body := Json_isochrones (Entry.data e) |},
        ticked w2)).
Proof.
  intros Hlocs Hrng Hmiss w1 w2. subst w1 w2.
  rewrite (handler_miss _ _ _ _ Hmiss). cbn [fst snd].
  eexists. split; [|split; [|split; [|split]]].
  - cbn [with_cache cache]. apply lookup_insert_eq.
  - cbn [Entry.timestamp with_cache ticked clock_reads]. f_equal. lia.
  - reflexivity.
  - reflexivity.
  - intros Hwin.
    assert (Hkey : cacheKey host transport request2
                   = cacheKey host transport request1)
      by (unfold cacheKey; rewrite Hlocs, Hrng; reflexivity).
    apply handler_hit.
    + rewrite Hkey. apply serve_keeps_entry.
      * cbn [with_cache cache]. apply lookup_insert_eq.
      * intros n Hn. apply Hwin. lia.
    + apply Hwin. split; [apply serve_clock | lia].
Qed.

End CacheClaims.

(** ** Claims about the cache *)


(** C10. The cache key is built from the transport, the locations and the
    range, and not from the [id]: two requests that differ in their [id]
    alone have the same key.  So when the first populates the cache and the
    second is answered from it within the TTL, the [id] of the metadata
    and of the echoed query of the second response are those of the first
    request. *)
Theorem cache_hit_echoes_id_of_populating_request (host : Host)
    (transport : Transport) (locs : list Coordinate) (rng : list float)
    (id1 id2 : option string) (between : list (string * json))
    (w0 : World) :
  let request1 := {| locations := locs; range := rng; id := id1 |} in
  let request2 := {| locations := locs; range := rng; id := id2 |} in
  (getFromCache host (cacheKey host transport request1) w0).1 = None ->
  let first := handler host transport request1 w0 in
  let w2 := (serve host between first.2).2 in
  let second := handler host transport request2 w2 in
  (forall e n,
     cache first.2 !! cacheKey host transport request1 = Some e ->
     (clock_reads first.2 <= n <= clock_reads w2)%nat ->
     Date_now host n - Entry.timestamp e < CACHE_TTL) ->
  cacheKey host transport request1 = cacheKey host transport request2 /\
  exists d : IsochronesResponse,
    body second.1 = Json_isochrones d /\
    metadata_id (metadata d) = id1 /\
    query_id (query (metadata d)) = id1.
Proof.
  intros request1 request2 Hmiss first w2 second Hwin.
  subst first w2 second. split; [reflexivity|].
  destruct (populate_then_hit host transport request1 request2 between w0
              eq_refl eq_refl Hmiss) as (e & He & _ & Hdata & _ & Hsecond).
  cbv zeta in Hsecond. rewrite Hsecond by (intros n Hn; eauto).
  exists (Entry.data e). split; [reflexivity|].
  rewrite Hdata, generateMockIsochrones_run. cbn. auto.
Qed.

(** C6. For an entry of the cache, a lookup at the time [t] returns nothing
    exactly when [t - timestamp >= TTL], the TTL being 3600 seconds.  An
    entry found expired is deleted by that lookup, which touches no other
    key; an entry found fresh is returned and the cache is left alone.  A
    call for the key of an expired entry generates a fresh response from
    new draws, with the next reading of the clock as its timestamp (which
    differs from the old one when the clock does not run backwards and the
    old response was stamped no later than its entry, as [serve_stamped]
    shows of every entry the service makes), and stores it in place of the
    old entry. *)
Theorem expired_entry_is_absent_and_removed_on_lookup (host : Host)
    (key : string) (e : Entry.t) (w : World) :
  cache w !! key = Some e ->
  let t := Date_now host (clock_reads w) in
  let looked := getFromCache host key w in
  CACHE_TTL = 3600 * 1000 /\
  (looked.1 = None <-> t - Entry.timestamp e >= CACHE_TTL) /\
  (t - Entry.timestamp e >= CACHE_TTL ->
   cache looked.2 = delete key (cache w) /\
   cache looked.2 !! key = None /\
   forall key', key' <> key -> cache looked.2 !! key' = cache w !! key') /\
  (t - Entry.timestamp e < CACHE_TTL ->
   looked.1 = Some (Entry.data e) /\ cache looked.2 = cache w) /\
  (forall transport request,
     cacheKey host transport request = key ->
     t - Entry.timestamp e >= CACHE_TTL ->
     let served := handler host transport request w in
     exists fresh : IsochronesResponse,
       served.1
       = {| status := 200;
            headers := [("Cache-Control", "public, max-age=3600")];
            body := Json_isochrones fresh |} /\
       features fresh
       = all_features host (random_draws w) 0 (locations request)
           (range request) /\
       timestamp (metadata fresh) = Date_now host (S (clock_reads w)) /\
       random_draws served.2
       = (random_draws w +
          numPoints * length (range request) * length (locations request))%nat /\
       cache served.2 !! key
       = Some {| Entry.data := fresh;
                 Entry.timestamp := Date_now host (S (S (clock_reads w))) |} /\
       ((forall n m, (n <= m)%nat -> Date_now host n <= Date_now host m) ->
        timestamp (metadata (Entry.data e)) <= Entry.timestamp e ->
        timestamp (metadata fresh) <> timestamp (metadata (Entry.data e)))).
Proof.
  intros Hkey t looked. subst t looked.
  split; [reflexivity|]. split; [|split; [|split]].
  - destruct (Z.lt_ge_cases (Date_now host (clock_reads w) - Entry.timestamp e)
                CACHE_TTL) as [Ht|Ht].
    + rewrite (getFromCache_fresh _ _ _ _ Hkey Ht). cbn [fst].
      split; [discriminate | lia].
    + rewrite (getFromCache_expired _ _ _ _ Hkey Ht). cbn [fst].
      split; [lia | reflexivity].
  - intros Ht. rewrite (getFromCache_expired _ _ _ _ Hkey) by lia.
    cbn [snd with_cache cache]. split; [reflexivity|]. split.
    + apply lookup_delete_eq.
    + intros key' Hne. apply lookup_delete_ne. congruence.
  - intros Ht. rewrite (getFromCache_fresh _ _ _ _ Hkey Ht). auto.
  - intros transport request Hreq Ht served. subst served.
    assert (Hlook : getFromCache host (cacheKey host transport request) w
                    = (None, with_cache (delete key (cache w)) (ticked w))).
    { rewrite Hreq. apply (getFromCache_expired _ _ _ _ Hkey). lia. }
    rewrite handler_miss by (rewrite Hlook; reflexivity).
    rewrite Hlook. cbn [fst snd]. rewrite generateMockIsochrones_run.
    cbn [fst snd]. eexists. split; [reflexivity|].
    cbn [features metadata timestamp with_cache ticked drawn cache
         clock_reads random_draws].
    split; [reflexivity|]. split; [reflexivity|]. split; [reflexivity|].
    split.
    + rewrite Hreq. apply lookup_insert_eq.
    + intros Hmono Hold.
      pose proof (Hmono (clock_reads w) (S (clock_reads w)) ltac:(lia)).
      unfold CACHE_TTL in Ht. lia.
Qed.


Module Scenario.

Definition request (rid : option string) : IsochronesRequest :=
  {| locations := [Example.london]; range := [500%float]; id := rid |}.

Definition body_m1 : json :=
  JObject
    [("locations", JArray [JArray [JNumber (-0.1)%float; JNumber 51.5%float]]);
     ("range", JArray [JNumber 500%float]);
     ("id", JString "m1")].

(** The world after a first call on [foot-walking] has populated the
    cache. *)
Definition populated : World :=
  (handler Example.host foot_walking (request (Some "m1"))
     Example.empty_world).2.

End Scenario.


Lemma cache_hit_echoes_id_of_populating_request_witness :
  let first :=
    handler Example.host foot_walking (Scenario.request (Some "m1"))
      Example.empty_world in
  let second :=
    handler Example.host foot_walking (Scenario.request (Some "m2"))
      (serve Example.host [] first.2).2 in
  exists d : IsochronesResponse,
    body second.1 = Json_isochrones d /\
    metadata_id (metadata d) = Some "m1" /\
    query_id (query (metadata d)) = Some "m1".
Proof.
  refine (proj2 (cache_hit_echoes_id_of_populating_request Example.host
                   foot_walking [Example.london] [500%float] (Some "m1")
                   (Some "m2") [] Example.empty_world _ _)).
  - vm_compute. reflexivity.
  - intros e n He Hn.
    vm_compute in He. injection He as <-.
    vm_compute in Hn. cbn [Entry.timestamp Date_now Example.host].
    unfold Example.clock, CACHE_TTL. lia.
Defined.

Module Expiry.

(** A host whose clock advances forty minutes between two readings. *)
Definition host : Host :=
  {| Date_now := fun n => 1767225600000 + 2400000 * Z.of_nat n;
     Math_random := Example.draw; Math_cos := Example.cos;
     Math_sin := Example.sin; Number_toString := Example.toString |}.

Definition key : string := cacheKey host foot_walking (Scenario.request None).

(** The entry that a first call leaves in the cache. *)
Definition entry : Entry.t :=
  {| Entry.data :=
       (generateMockIsochrones host [Example.london] [500%float]
          (Some "m1") (Some foot_walking) Example.empty_world).1;
     Entry.timestamp := Date_now host 1 |}.

(** The world after that call and a second one, answered from the
    cache forty minutes after the entry was made. *)
Definition after_two_calls : World :=
  (serve host
     [("/foot-walking", Scenario.body_m1);
      ("/foot-walking", Scenario.body_m1)]
     Example.empty_world).2.

End Expiry.

Lemma expired_entry_is_absent_and_removed_on_lookup_witness :
  cache Expiry.after_two_calls !! Expiry.key = Some Expiry.entry /\
  (getFromCache Expiry.host Expiry.key Expiry.after_two_calls).1 = None /\
  cache (getFromCache Expiry.host Expiry.key Expiry.after_two_calls).2
    !! Expiry.key = None.
Proof.
  assert (Hkey : cache Expiry.after_two_calls !! Expiry.key
                 = Some Expiry.entry) by (vm_compute; reflexivity).
  split; [exact Hkey|].
  destruct (expired_entry_is_absent_and_removed_on_lookup Expiry.host
              Expiry.key Expiry.entry Expiry.after_two_calls Hkey)
    as (_ & Habsent & Hremoved & _).
  assert (Hlate : Date_now Expiry.host (clock_reads Expiry.after_two_calls)
                  - Entry.timestamp Expiry.entry >= CACHE_TTL)
    by (vm_compute; discriminate).
  split; [apply Habsent, Hlate | apply Hremoved, Hlate].
Defined.

(** The three calls of the expiry scenario: generated, served from the
    cache (same timestamp), generated again (new timestamp). *)
Example expiry_scenario :
  map (fun r : HttpResponse =>
         match body r with
         | Json_isochrones d => Some (timestamp (metadata d))
         | _ => None
         end)
      (serve Expiry.host
         [("/foot-walking", Scenario.body_m1);
          ("/foot-walking", Scenario.body_m1);
          ("/foot-walking", Scenario.body_m1)]
         Example.empty_world).1
  = [Some 1767225600000; Some 1767225600000; Some 1767235200000].
Proof. vm_compute. reflexivity. Qed.

(** ** Claims about the routes *)

Definition transport_path (t : Transport) : string :=
  "/" +:+ transport_name t.

Lemma isochronesRoute_post host t body :
  isochronesRoute host (transport_path t) body = post host t body.
Proof. destruct t; reflexivity. Qed.

Lemma nonpositive_not_positive (x : float) :
  (x <=? 0)%float = true -> (0 <? x)%float = false.
Proof.
  rewrite leb_spec, ltb_spec.
  replace (Prim2SF 0%float) with (S754_zero false) by reflexivity.
  destruct (Prim2SF x) as [s|s| |s m e]; try destruct s; cbn; congruence.
Qed.

Lemma z_items_rejects {A} (item : json -> option A) (items : list json) j :
  j ∈ items -> item j = None -> z_items item items = None.
Proof.
  intros Hin Hj. induction Hin as [j l|j j' l Hin IH]; cbn [z_items].
  - rewrite Hj. reflexivity.
  - rewrite IH by exact Hj. destruct (item j'); reflexivity.
Qed.

(** C8. A request whose [locations] list is empty, whose [range] list is
    empty, or whose [range] list holds a number that is zero or negative,
    is answered with status 400 by each of the three routes, and the world
    is left exactly as it was: nothing is synthesized (no draw, no reading
    of the clock) and the cache is unchanged. *)
Theorem invalid_request_is_rejected_without_side_effect (host : Host)
    (transport : Transport) (members : list (string * json)) (w : World) :
  property "locations" members = Some (JArray []) \/
  property "range" members = Some (JArray []) \/
  (exists items x,
     property "range" members = Some (JArray items) /\
     JNumber x ∈ items /\ (x <=? 0)%float = true) ->
  isochronesRoute host (transport_path transport) (JObject members) w
  = ({| status := 400; headers := []; body := Json_validation_failure |}, w).
Proof.
  intros Hbad. rewrite isochronesRoute_post. unfold post.
  assert (Hschema : IsochronesRequestSchema (JObject members) = None);
    [|rewrite Hschema; reflexivity].
  unfold IsochronesRequestSchema.
  destruct Hbad as [Hl|[Hr|(items & x & Hr & Hin & Hx)]].
  - rewrite Hl. reflexivity.
  - rewrite Hr. cbn.
    destruct (required _ (property "locations" members)); reflexivity.
  - rewrite Hr. cbn [required]. unfold z_array_nonempty, z_array.
    rewrite (z_items_rejects _ _ (JNumber x) Hin).
    + destruct (required _ (property "locations" members)); reflexivity.
    + unfold z_number_positive, z_number.
      destruct (is_finite x); [|reflexivity].
      rewrite (nonpositive_not_positive x Hx). reflexivity.
Qed.

Lemma invalid_request_is_rejected_without_side_effect_witness :
  isochronesRoute Example.host "/driving-car"
    (JObject
       [("locations", JArray [JArray [JNumber 0%float; JNumber 0%float]]);
        ("range", JArray [JNumber 500%float; JNumber (-1)%float])])
    Scenario.populated
  = ({| status := 400; headers := []; body := Json_validation_failure |},
     Scenario.populated).
Proof.
  apply (invalid_request_is_rejected_without_side_effect Example.host
           driving_car).
  right. right. exists [JNumber 500%float; JNumber (-1)%float], (-1)%float.
  split; [reflexivity|]. split; [|reflexivity].
  apply list_elem_of_In. simpl. auto.
Defined.

(** C9 (the code departs from the claim).  Every answer of the handler has
    status 200, and it carries [Cache-Control: public, max-age=3600]
    exactly when the lookup in the cache found nothing: an answer served
    from the cache carries no [Cache-Control] header.  So for the same
    valid request sent twice to [/driving-car]: the first answer, freshly
    synthesized, has the header, and the second, served from the cache,
    has not. *)
Theorem cached_response_carries_no_cache_directive :
  (forall (host : Host) (transport : Transport) (request : IsochronesRequest)
          (w : World),
     let response := (handler host transport request w).1 in
     status response = 200%nat /\
     header "Cache-Control" response
     = match (getFromCache host (cacheKey host transport request) w).1 with
       | Some _ => None
       | None => Some "public, max-age=3600"
       end) /\
  map (fun r : HttpResponse => (status r, header "Cache-Control" r))
      (serve Example.host
         [("/driving-car", Scenario.body_m1);
          ("/driving-car", Scenario.body_m1)]
         Example.empty_world).1
  = [(200%nat, Some "public, max-age=3600"); (200%nat, None)].
Proof.
  split; [|vm_compute; reflexivity].
  intros host transport request w response. subst response.
  destruct ((getFromCache host (cacheKey host transport request) w).1)
    as [d|] eqn:Hlook.
  - unfold handler. rewrite bind_run.
    fold (cacheKey host transport request). rewrite Hlook.
    split; reflexivity.
  - rewrite (handler_miss _ _ _ _ Hlook). split; reflexivity.
Qed.

(** ** The overlap pass *)

Definition has_data (r : Query.result) : bool :=
  match Query.data r with
  | Some _ => true
  | None => false
  end.

Section OverlapFacts.

Variable host : Host.
Variable turf_intersect :
  list Ring -> list Ring -> Exc (option TurfFeature).

(** The two loops of [combine], by recursion on the results that remain. *)
Fixpoint pass_with (dataI : IsochronesResponse) (rest : list Query.result)
    (intersections : list MapGeoJson.t) : Exc (list MapGeoJson.t) :=
  match rest with
  | [] => Returns intersections
  | resultJ :: rest' =>
      match Query.data resultJ with
      | None => pass_with dataI rest' intersections
      | Some dataJ =>
          exc_bind (intersect_pair host turf_intersect dataI dataJ intersections)
            (pass_with dataI rest')
      end
  end.

Fixpoint pass (results : list Query.result)
    (intersections : list MapGeoJson.t) : Exc (list MapGeoJson.t) :=
  match results with
  | [] => Returns intersections
  | resultI :: rest =>
      match Query.data resultI with
      | None => pass rest intersections
      | Some dataI => exc_bind (pass_with dataI rest intersections) (pass rest)
      end
  end.

Lemma exc_bind_ext {A B} (m : Exc A) (k k' : A -> Exc B) :
  (forall a, k a = k' a) -> exc_bind m k = exc_bind m k'.
Proof. intros H. destruct m; simpl; auto. Qed.

Lemma inner_loop_pass_with results dataI steps :
  forall j intersections,
    (j + steps)%nat = length results ->
    for_range j steps
      (fun j intersections =>
         (let? resultJ := at_index results j in
          match Query.data resultJ with
          | None => Returns intersections
          | Some dataJ =>
              intersect_pair host turf_intersect dataI dataJ intersections
          end)%exc)
      intersections
    = pass_with dataI (drop j results) intersections.
Proof.
  induction steps as [|steps IH]; intros j acc Hlen; cbn [for_range].
  - rewrite drop_ge by lia. reflexivity.
  - destruct (lookup_lt_is_Some_2 results j ltac:(lia)) as [r Hr].
    rewrite (drop_S _ _ _ Hr). unfold at_index at 1. rewrite Hr.
    cbn [exc_bind pass_with].
    destruct (Query.data r) as [dataJ|].
    + apply exc_bind_ext. intros a. apply IH. lia.
    + cbn [exc_bind]. apply IH. lia.
Qed.

Lemma outer_loop_pass results steps :
  forall i intersections,
    (i + steps)%nat = length results ->
    for_range i steps
      (fun i intersections =>
         (let? resultI := at_index results i in
          match Query.data resultI with
          | None => Returns intersections
          | Some dataI =>
              for_range (S i) (length results - S i)
                (fun j intersections =>
                   let? resultJ := at_index results j in
                   match Query.data resultJ with
                   | None => Returns intersections
                   | Some dataJ =>
                       intersect_pair host turf_intersect dataI dataJ
                         intersections
                   end)
                intersections
          end)%exc)
      intersections
    = pass (drop i results) intersections.
Proof.
  induction steps as [|steps IH]; intros i acc Hlen; cbn [for_range].
  - rewrite drop_ge by lia. reflexivity.
  - destruct (lookup_lt_is_Some_2 results i ltac:(lia)) as [r Hr].
    rewrite (drop_S _ _ _ Hr). unfold at_index at 1. rewrite Hr.
    cbn [exc_bind pass].
    destruct (Query.data r) as [dataI|].
    + rewrite inner_loop_pass_with by lia.
      apply exc_bind_ext. intros a. apply IH. lia.
    + cbn [exc_bind]. apply IH. lia.
Qed.

Lemma combine_pass results :
  combine host turf_intersect results = pass results [].
Proof. unfold combine. rewrite outer_loop_pass by lia. reflexivity. Qed.

(** Results without data take no part in the pass. *)
Lemma pass_with_filter dataI rest :
  forall intersections,
    pass_with dataI (List.filter has_data rest) intersections
    = pass_with dataI rest intersections.
Proof.
  induction rest as [|r rest IH]; intros acc; cbn [List.filter pass_with].
  - reflexivity.
  - unfold has_data at 1. destruct (Query.data r) as [d|] eqn:Hd.
    + cbn [pass_with]. rewrite Hd. apply exc_bind_ext. exact IH.
    + apply IH.
Qed.

Lemma pass_filter results :
  forall intersections,
    pass (List.filter has_data results) intersections
    = pass results intersections.
Proof.
  induction results as [|r rest IH]; intros acc; cbn [List.filter pass].
  - reflexivity.
  - unfold has_data at 1. destruct (Query.data r) as [d|] eqn:Hd.
    + cbn [pass]. rewrite Hd, pass_with_filter. apply exc_bind_ext. exact IH.
    + apply IH.
Qed.

End OverlapFacts.

(** *** The overlap engine as the specification words it *)

(** The pairs [(i, j)] with [i < j < n], first by [i], then by [j]. *)
Definition pairs (n : nat) : list (nat * nat) :=
  flat_map (fun i => map (pair i) (seq (S i) (n - S i))) (seq 0 n).

Section OverlapSpec.

Variable host : Host.
Variable turf_intersect :
  list Ring -> list Ring -> Exc (option TurfFeature).

(** The region in which two single-ring polygons overlap, if they do. *)
Definition overlap (p q : Ring) : option TurfFeature :=
  match turf_intersect [p] [q] with
  | Returns region => region
  | Throws => None
  end.

(** For every pair [i < j] of the input list, the intersection of
    polygon [i] and polygon [j]; one result for each pair that overlaps. *)
Definition pairwiseIntersections (polygons : list Ring)
    : list TurfFeature :=
  omap (fun ij : nat * nat =>
          match polygons !! ij.1, polygons !! ij.2 with
          | Some p, Some q => overlap p q
          | _, _ => None
          end)
       (pairs (length polygons)).

(** The same by recursion on the list. *)
Fixpoint all_overlaps (polygons : list Ring) : list TurfFeature :=
  match polygons with
  | [] => []
  | p :: rest => omap (overlap p) rest ++ all_overlaps rest
  end.

Lemma flat_map_shift {A} (f f' : nat -> list A) (g : A -> A) (l : list nat) :
  (forall i, f (S i) = map g (f' i)) ->
  flat_map f (map S l) = map g (flat_map f' l).
Proof.
  intros H. induction l as [|i l IH]; simpl; [reflexivity|].
  rewrite map_app, H, IH. reflexivity.
Qed.

Lemma pairs_S n :
  pairs (S n)
  = map (pair 0%nat) (seq 1 n) ++
    map (fun ij : nat * nat => (S ij.1, S ij.2)) (pairs n).
Proof.
  unfold pairs. cbn [seq flat_map].
  replace (S n - 1)%nat with n by lia. f_equal.
  rewrite <- seq_shift.
  apply flat_map_shift. intros i.
  rewrite map_map. cbn [fst snd].
  replace (S n - S (S i))%nat with (n - S i)%nat by lia.
  rewrite <- (seq_shift _ (S i)), map_map. reflexivity.
Qed.

Lemma pairs_length n : (2 * length (pairs n))%nat = (n * (n - 1))%nat.
Proof.
  induction n as [|n IH]; [reflexivity|].
  rewrite pairs_S, length_app, !length_map, length_seq.
  destruct n as [|n]; [reflexivity|].
  replace (S (S n) - 1)%nat with (S n) by lia.
  replace (S n - 1)%nat with n in IH by lia. nia.
Qed.

Lemma pairs_elem n i j : (i, j) ∈ pairs n <-> (i < j < n)%nat.
Proof.
  unfold pairs. rewrite list_elem_of_In, in_flat_map. split.
  - intros (i' & Hi & Hj). apply in_map_iff in Hj as (j' & Heq & Hj).
    inversion Heq; subst. apply in_seq in Hi, Hj. lia.
  - intros Hij. exists i. split.
    + apply in_seq. lia.
    + apply in_map_iff. exists j. split; [reflexivity|]. apply in_seq. lia.
Qed.

Lemma pairs_NoDup n : NoDup (pairs n).
Proof.
  induction n as [|n IH]; [constructor|].
  rewrite pairs_S. apply NoDup_app. split; [|split].
  - change (map ?f ?l) with (f <$> l).
    apply NoDup_fmap_2; [intros a b Hab; congruence|].
    apply NoDup_ListNoDup, seq_NoDup.
  - intros [i j] Hl Hr.
    apply list_elem_of_In, in_map_iff in Hl as (j' & Heq & _).
    apply list_elem_of_In, in_map_iff in Hr as ([i'' j''] & Heq' & _).
    cbn in Heq'. congruence.
  - change (map ?f ?l) with (f <$> l).
    apply NoDup_fmap_2; [|exact IH].
    intros [a b] [c d] Hab. cbn in Hab. congruence.
Qed.

Lemma omap_length_le {A B} (f : A -> option B) (l : list A) :
  (length (omap f l) <= length l)%nat.
Proof.
  induction l as [|a l IH]; cbn; [lia|].
  destruct (f a); cbn; lia.
Qed.

Lemma omap_map {A B C} (f : B -> option C) (g : A -> B) (l : list A) :
  omap f (map g l) = omap (fun a => f (g a)) l.
Proof.
  induction l as [|a l IH]; cbn; [reflexivity|].
  rewrite IH. reflexivity.
Qed.

Lemma omap_lookup_seq {A B} (f : A -> option B) (l : list A) :
  forall start (whole : list A),
    drop start whole = l ->
    omap (fun j => match whole !! j with Some q => f q | None => None end)
         (seq start (length l))
    = omap f l.
Proof.
  induction l as [|a l IH]; intros start whole Hdrop; cbn; [reflexivity|].
  assert (Ha : whole !! start = Some a).
  { rewrite <- (Nat.add_0_r start), <- lookup_drop, Hdrop. reflexivity. }
  rewrite Ha. rewrite (IH (S start) whole); [reflexivity|].
  rewrite (drop_S _ _ _ Ha) in Hdrop. congruence.
Qed.

Lemma all_overlaps_pairwise polygons :
  all_overlaps polygons = pairwiseIntersections polygons.
Proof.
  unfold pairwiseIntersections.
  induction polygons as [|p rest IH]; [reflexivity|].
  cbn [all_overlaps length]. rewrite pairs_S, omap_app, !omap_map.
  cbn [fst snd lookup list_lookup]. f_equal.
  - symmetry. apply (omap_lookup_seq (overlap p) rest 1 (p :: rest)).
    reflexivity.
  - exact IH.
Qed.

End OverlapSpec.

(** A stand-in for turf on the squares used below: exact when the two
    rings are the same, and "no overlap" otherwise. *)
Module Squares.

Definition same_position (a b : Coordinate) : bool :=
  (a.1 =? b.1)%float && (a.2 =? b.2)%float.

Fixpoint same_ring (a b : Ring) : bool :=
  match a, b with
  | [], [] => true
  | x :: a', y :: b' => same_position x y && same_ring a' b'
  | _, _ => false
  end.

Definition intersect (a b : list Ring) : Exc (option TurfFeature) :=
  match a, b with
  | [p], [q] =>
      Returns (if same_ring p q then Some (TurfPolygon [p]) else None)
  | _, _ => Throws
  end.

Definition unit_square : Ring :=
  [(0, 0); (1, 0); (1, 1); (0, 1); (0, 0)]%float.

Definition far_square : Ring :=
  [(10, 10); (11, 10); (11, 11); (10, 11); (10, 10)]%float.

Definition response_of (ring : Ring) : IsochronesResponse :=
  {| bbox := world_bbox;
     features :=
       [{| geometry := {| coordinates := [ring] |};
           properties :=
             {| group_index := 0; value := 500%float;
                center := (0, 0)%float |} |}];
     metadata :=
       {| metadata_id := None;
          attribution := "openrouteservice.org | OpenStreetMap contributors";
          service := "isochrones";
          timestamp := 1767225600000;
          query :=
            {| query_id := None; query_locations := [(0, 0)%float];
               query_range := [500%float];
               query_transport := Some foot_walking |};
          engine := mock_engine |} |}.

Definition fetched (ring : Ring) : Query.result :=
  {| Query.status := success; Query.data := Some (response_of ring) |}.

Definition waiting : Query.result :=
  {| Query.status := pending; Query.data := None |}.

End Squares.

(** ** Claims about the overlap pass *)

(** A result that holds the single-ring polygon [p] as its first
    feature. *)
Definition holds_polygon (r : Query.result) (p : Ring) : Prop :=
  exists d f,
    Query.data r = Some d /\ features d !! 0%nat = Some f /\
    coordinates (geometry f) = [p] /\ p <> [].

Section OverlapClaims.

Variable host : Host.
Variable turf_intersect :
  list Ring -> list Ring -> Exc (option TurfFeature).

Lemma intersect_pair_run dataI dataJ fI fJ p q region intersections :
  features dataI !! 0%nat = Some fI -> coordinates (geometry fI) = [p] ->
  features dataJ !! 0%nat = Some fJ -> coordinates (geometry fJ) = [q] ->
  p <> [] -> q <> [] ->
  turf_intersect [p] [q] = Returns region ->
  exists items,
    intersect_pair host turf_intersect dataI dataJ intersections
    = Returns (intersections ++ items) /\
    map MapGeoJson.data items = option_list region.
Proof.
  intros HfI HcI HfJ HcJ Hp Hq Hturf.
  unfold intersect_pair, at_index. rewrite HfI, HfJ. cbn [exc_bind].
  rewrite HcI, HcJ, Hturf. cbn [exc_bind].
  destruct region as [region|].
  - destruct p as [|cp p']; [congruence|].
    destruct q as [|cq q']; [congruence|].
    cbn. eexists [_]. split; reflexivity.
  - exists []. rewrite app_nil_r. split; reflexivity.
Qed.

Lemma pass_with_polygons dataI fI p :
  features dataI !! 0%nat = Some fI -> coordinates (geometry fI) = [p] ->
  p <> [] ->
  forall rest polygons intersections,
    Forall2 holds_polygon rest polygons ->
    (forall q, q ∈ polygons -> turf_intersect [p] [q] <> Throws) ->
    exists items,
      pass_with host turf_intersect dataI rest intersections
      = Returns (intersections ++ items) /\
      map MapGeoJson.data items = omap (overlap turf_intersect p) polygons.
Proof.
  intros HfI HcI Hp rest polygons acc Hall. revert acc.
  induction Hall as [|r q rest polygons (d & f & Hd & Hf & Hc & Hq) Hall IH];
    intros acc Hturf; cbn [pass_with].
  - exists []. rewrite app_nil_r. split; reflexivity.
  - rewrite Hd.
    destruct (turf_intersect [p] [q]) as [region|] eqn:Hpq;
      [|exfalso; apply (Hturf q); [left | exact Hpq]].
    destruct (intersect_pair_run dataI d fI f p q region acc
                HfI HcI Hf Hc Hp Hq Hpq) as (items & -> & Hitems).
    cbn [exc_bind].
    destruct (IH (acc ++ items)) as (items' & -> & Hitems').
    { intros q' Hq'. apply Hturf. right. exact Hq'. }
    exists (items ++ items'). rewrite app_assoc. split; [reflexivity|].
    rewrite map_app, Hitems, Hitems'. cbn [omap list_omap].
    unfold overlap at 2. rewrite Hpq. destruct region; reflexivity.
Qed.

Lemma pass_polygons results polygons :
  Forall2 holds_polygon results polygons ->
  forall intersections,
    (forall i j p q,
       (i < j)%nat -> polygons !! i = Some p -> polygons !! j = Some q ->
       turf_intersect [p] [q] <> Throws) ->
    exists items,
      pass host turf_intersect results intersections
      = Returns (intersections ++ items) /\
      map MapGeoJson.data items = all_overlaps turf_intersect polygons.
Proof.
  induction 1 as [|r p rest polygons Hr Hall IH]; intros acc Hturf;
    cbn [pass all_overlaps].
  - exists []. rewrite app_nil_r. split; reflexivity.
  - pose proof Hr as (d & f & Hd & Hf & Hc & Hp). rewrite Hd.
    destruct (pass_with_polygons d f p Hf Hc Hp rest polygons acc Hall)
      as (items & -> & Hitems).
    { intros q Hq. apply list_elem_of_lookup in Hq as [j Hj].
      apply (Hturf 0%nat (S j)); [lia | reflexivity | exact Hj]. }
    cbn [exc_bind].
    destruct (IH (acc ++ items)) as (items' & -> & Hitems').
    { intros i j p' q' Hij Hi Hj.
      apply (Hturf (S i) (S j)); [lia | exact Hi | exact Hj]. }
    exists (items ++ items'). rewrite app_assoc. split; [reflexivity|].
    rewrite map_app, Hitems, Hitems'. reflexivity.
Qed.

End OverlapClaims.

Lemma omap_all_None {A B} (f : A -> option B) (l : list A) :
  (forall a, a ∈ l -> f a = None) -> omap f l = [].
Proof.
  induction l as [|a l IH]; intros H; cbn; [reflexivity|].
  rewrite (H a) by left. apply IH. intros b Hb. apply H. right. exact Hb.
Qed.

(** C3. The overlap pass on the results of [N] markers, each holding a
    single-ring polygon that turf accepts, returns the intersections of
    the specification: one for each pair [(i, j)] with [i < j], in order,
    whose polygons overlap.  Every such pair occurs exactly once among the
    pairs considered; hence at most [N (N - 1) / 2] results, each of them
    the overlap of two of the polygons, and none at all when the polygons
    are pairwise disjoint. *)
Theorem overlap_pass_considers_each_pair_once (host : Host)
    (turf_intersect : list Ring -> list Ring -> Exc (option TurfFeature))
    (results : list Query.result) (polygons : list Ring) :
  Forall2 holds_polygon results polygons ->
  (forall i j p q,
     (i < j)%nat -> polygons !! i = Some p -> polygons !! j = Some q ->
     turf_intersect [p] [q] <> Throws) ->
  let N := length polygons in
  exists out,
    combine host turf_intersect results = Returns out /\
    map MapGeoJson.data out = pairwiseIntersections turf_intersect polygons /\
    (length out <= N * (N - 1) / 2)%nat /\
    NoDup (pairs N) /\
    (forall i j, (i, j) ∈ pairs N <-> (i < j < N)%nat) /\
    (forall region,
       region ∈ map MapGeoJson.data out ->
       exists i j p q,
         (i < j)%nat /\ polygons !! i = Some p /\ polygons !! j = Some q /\
         turf_intersect [p] [q] = Returns (Some region)) /\
    ((forall i j p q,
        (i < j)%nat -> polygons !! i = Some p -> polygons !! j = Some q ->
        turf_intersect [p] [q] = Returns None) ->
     out = []).
Proof.
  intros Hall Hturf N.
  destruct (pass_polygons host turf_intersect results polygons Hall [] Hturf)
    as (out & Hpass & Hout).
  rewrite all_overlaps_pairwise in Hout. cbn [app] in Hpass.
  exists out. rewrite combine_pass.
  split; [exact Hpass|]. split; [exact Hout|].
  split; [|split; [apply pairs_NoDup|split; [apply pairs_elem|split]]].
  - apply Nat.div_le_lower_bound; [lia|].
    rewrite <- (length_map MapGeoJson.data), Hout.
    unfold pairwiseIntersections.
    pose proof (omap_length_le
                  (fun ij : nat * nat =>
                     match polygons !! ij.1, polygons !! ij.2 with
                     | Some p, Some q => overlap turf_intersect p q
                     | _, _ => None
                     end) (pairs (length polygons))) as Hle.
    pose proof (pairs_length (length polygons)). subst N. lia.
  - intros region Hregion. rewrite Hout in Hregion.
    apply list_elem_of_omap in Hregion as ([i j] & Hij & Hreg).
    apply pairs_elem in Hij. cbn [fst snd] in Hreg.
    destruct (polygons !! i) as [p|] eqn:Hi; [|discriminate].
    destruct (polygons !! j) as [q|] eqn:Hj; [|discriminate].
    exists i, j, p, q. split; [lia|]. split; [exact Hi|].
    split; [exact Hj|].
    unfold overlap in Hreg.
    destruct (turf_intersect [p] [q]) as [o|]; [|discriminate].
    rewrite Hreg. reflexivity.
  - intros Hdisjoint.
    apply (f_equal (@length _)) in Hout as Hlen.
    rewrite length_map in Hlen.
    unfold pairwiseIntersections in Hlen. rewrite omap_all_None in Hlen.
    + destruct out; [reflexivity | discriminate].
    + intros [i j] Hij. apply pairs_elem in Hij. cbn [fst snd].
      destruct (polygons !! i) as [p|] eqn:Hi; [|reflexivity].
      destruct (polygons !! j) as [q|] eqn:Hj; [|reflexivity].
      unfold overlap. rewrite (Hdisjoint i j p q); auto. lia.
Qed.

Lemma overlap_pass_considers_each_pair_once_witness :
  exists out,
    combine Example.host Squares.intersect
      [Squares.fetched Squares.unit_square;
       Squares.fetched Squares.unit_square;
       Squares.fetched Squares.far_square]
    = Returns out /\
    map MapGeoJson.data out = [TurfPolygon [Squares.unit_square]] /\
    (length out <= 3 * (3 - 1) / 2)%nat.
Proof.
  destruct (overlap_pass_considers_each_pair_once Example.host
              Squares.intersect
              [Squares.fetched Squares.unit_square;
               Squares.fetched Squares.unit_square;
               Squares.fetched Squares.far_square]
              [Squares.unit_square; Squares.unit_square; Squares.far_square])
    as (out & Hout & Hdata & Hlen & _).
  - repeat (apply List.Forall2_cons;
              [eexists _, _;
               split; [reflexivity|]; split; [reflexivity|];
               split; [reflexivity | discriminate]|]).
    apply List.Forall2_nil.
  - intros i j p q _ _ _. cbn. discriminate.
  - exists out. split; [exact Hout|]. split; [|exact Hlen].
    rewrite Hdata. vm_compute. reflexivity.
Defined.

(** The scenario of three markers: A and B hold the same unit square, C a
    square away from both; the pass yields the one intersection of A and
    B, the shared square. *)
Example three_markers_one_intersection :
  combine Example.host Squares.intersect
    [Squares.fetched Squares.unit_square;
     Squares.fetched Squares.unit_square;
     Squares.fetched Squares.far_square]
  = Returns
      [{| MapGeoJson.key := "intersection-0,0-0,0";
          MapGeoJson.data := TurfPolygon [Squares.unit_square];
          MapGeoJson.style := intersection_style |}].
Proof. vm_compute. reflexivity. Qed.

(** C4 as stated fails: with the polygons of two markers fetched and the
    fetch of a third still pending, the pass already yields the
    intersection of the first two. *)
Lemma overlap_pass_runs_while_a_fetch_is_pending :
  ~ (forall (host : Host)
       (turf_intersect : list Ring -> list Ring -> Exc (option TurfFeature))
       (results : list Query.result),
       Exists (fun r => Query.status r = pending) results ->
       combine host turf_intersect results = Returns []).
Proof.
  intros Hnever.
  specialize (Hnever Example.host Squares.intersect
                [Squares.fetched Squares.unit_square;
                 Squares.fetched Squares.unit_square;
                 Squares.waiting]).
  assert (Hpending : Exists (fun r => Query.status r = pending)
                       [Squares.fetched Squares.unit_square;
                        Squares.fetched Squares.unit_square;
                        Squares.waiting])
    by (do 2 apply Exists_cons_tl; apply Exists_cons_hd; reflexivity).
  specialize (Hnever Hpending). vm_compute in Hnever. discriminate.
Qed.

(** C4, amended. The pass is not held back until every fetch has settled:
    it runs on the results as they are, skips each result that has no
    data, and yields what it would yield on the results that have data
    alone; on results none of which has data it yields nothing. *)
Theorem overlap_pass_runs_on_the_results_that_have_data (host : Host)
    (turf_intersect : list Ring -> list Ring -> Exc (option TurfFeature))
    (results : list Query.result) :
  combine host turf_intersect results
  = combine host turf_intersect (List.filter has_data results) /\
  combine host turf_intersect (List.filter (fun r => negb (has_data r)) results)
  = Returns [].
Proof.
  split.
  - rewrite !combine_pass, pass_filter. reflexivity.
  - rewrite combine_pass.
    induction results as [|r rest IH]; cbn [List.filter pass];
      [reflexivity|].
    unfold has_data at 1. destruct (Query.data r) as [d|] eqn:Hd;
      cbn [negb pass]; [exact IH|].
    rewrite Hd. exact IH.
Qed.

(** ** The cache key determines the shape of the response

    Two facts about [Number::toString] are used, and only for the numbers
    that pass validation: its text holds none of the characters that
    structure the key, and distinct positive numbers have distinct
    texts. *)

Fixpoint count (c : ascii) (s : string) : nat :=
  match s with
  | EmptyString => 0
  | String a s' => (if Ascii.eqb a c then 1 else 0) + count c s'
  end.

Definition plain (s : string) : Prop :=
  count "," s = 0%nat /\ count ":" s = 0%nat /\
  count "[" s = 0%nat /\ count "]" s = 0%nat.

Record number_text (host : Host) : Prop :=
  { text_plain :
      forall x, is_finite x = true -> plain (Number_toString host x);
    text_inj :
      forall x y,
        (0 <? x)%float = true -> (0 <? y)%float = true ->
        Number_toString host x = Number_toString host y -> x = y }.

Lemma count_app c s1 s2 :
  count c (s1 +:+ s2) = (count c s1 + count c s2)%nat.
Proof.
  induction s1 as [|a s1 IH]; simpl; [reflexivity|]. rewrite IH. lia.
Qed.

(** A text is cut in one way only at the first occurrence of [c]. *)
Lemma split_unique c a a' b b' :
  count c a = 0%nat -> count c a' = 0%nat ->
  a +:+ String c b = a' +:+ String c b' ->
  a = a' /\ b = b'.
Proof.
  revert a'. induction a as [|x a IH]; intros [|y a'] Ha Ha' Heq; cbn in *.
  - inversion Heq. auto.
  - inversion Heq; subst. rewrite Ascii.eqb_refl in Ha'. lia.
  - inversion Heq; subst. rewrite Ascii.eqb_refl in Ha. lia.
  - inversion Heq; subst.
    destruct (IH a') as [-> ->]; auto; lia.
Qed.

Lemma concat_cons2 sep (x y : string) (l : list string) :
  String.concat sep (x :: y :: l) = x +:+ sep +:+ String.concat sep (y :: l).
Proof. reflexivity. Qed.

Lemma count_concat c sep (items : list string) :
  count c sep = 0%nat ->
  count c (String.concat sep items)
  = foldr (fun s n => (count c s + n)%nat) 0%nat items.
Proof.
  intros Hsep. induction items as [|x [|y l] IH].
  - reflexivity.
  - cbn. lia.
  - rewrite concat_cons2, !count_app, Hsep, IH. cbn. lia.
Qed.

(** Joined texts that hold no comma: the join determines the texts. *)
Lemma join_unique (items items' : list string) :
  items <> [] -> items' <> [] ->
  Forall (fun s => count "," s = 0%nat) items ->
  Forall (fun s => count "," s = 0%nat) items' ->
  String.concat "," items = String.concat "," items' ->
  items = items'.
Proof.
  revert items'.
  induction items as [|x [|y l] IH]; intros [|x' [|y' l']] Hne Hne' Hall Hall';
    try congruence.
  - cbn. congruence.
  - intros Heq. change (String.concat "," [x]) with x in Heq.
    rewrite concat_cons2 in Heq.
    apply Forall_cons in Hall as [Hx _]. rewrite Heq, !count_app in Hx.
    cbn in Hx. lia.
  - intros Heq. change (String.concat "," [x']) with x' in Heq.
    rewrite concat_cons2 in Heq.
    apply Forall_cons in Hall' as [Hx _]. rewrite <- Heq, !count_app in Hx.
    cbn in Hx. lia.
  - rewrite !concat_cons2. intros Heq.
    apply Forall_cons in Hall as [Hx Hall].
    apply Forall_cons in Hall' as [Hx' Hall'].
    apply (split_unique "," x x') in Heq as [-> Heq]; auto.
    f_equal. apply IH; auto; discriminate.
Qed.

Definition valid_request (request : IsochronesRequest) : Prop :=
  locations request <> [] /\ range request <> [] /\
  Forall (fun c : Coordinate =>
            is_finite c.1 = true /\ is_finite c.2 = true)
         (locations request) /\
  Forall (fun x => is_finite x = true /\ (0 <? x)%float = true)
         (range request).

Lemma z_items_Forall {A} (item : json -> option A) (P : A -> Prop) :
  (forall j a, item j = Some a -> P a) ->
  forall items l, z_items item items = Some l -> Forall P l.
Proof.
  intros HP. induction items as [|j items IH]; intros l Hl; cbn in Hl.
  - inversion Hl. constructor.
  - destruct (item j) as [a|] eqn:Ha; [|discriminate].
    destruct (z_items item items) as [l'|]; [|discriminate].
    inversion Hl; subst. constructor; eauto.
Qed.

Lemma z_number_finite j x : z_number j = Some x -> is_finite x = true.
Proof.
  destruct j; cbn; try discriminate.
  destruct (is_finite x0) eqn:Hx; [|discriminate].
  intros H; inversion H; subst. exact Hx.
Qed.

(** What passes [IsochronesRequestSchema] is a valid request. *)
Lemma schema_valid body request :
  IsochronesRequestSchema body = Some request -> valid_request request.
Proof.
  unfold IsochronesRequestSchema. destruct body as [| | | | |members];
    try discriminate.
  destruct (required (z_array_nonempty CoordinateSchema)
              (property "locations" members)) as [locs|] eqn:Hl;
    [|discriminate].
  destruct (required (z_array_nonempty z_number_positive)
              (property "range" members)) as [rng|] eqn:Hr;
    [|discriminate].
  destruct (optional z_string (property "id" members)); [|discriminate].
  intros H; inversion H; subst; clear H. unfold valid_request. cbn.
  unfold required, z_array_nonempty, z_array in Hl, Hr.
  destruct (property "locations" members) as [[| | | |ls|]|];
    try discriminate.
  destruct (property "range" members) as [[| | | |rs|]|]; try discriminate.
  destruct (z_items CoordinateSchema ls) as [[|c cs]|] eqn:Hls;
    try discriminate.
  destruct (z_items z_number_positive rs) as [[|x xs]|] eqn:Hrs;
    try discriminate.
  inversion Hl; inversion Hr; subst.
  split; [discriminate|]. split; [discriminate|]. split.
  - eapply z_items_Forall; [|exact Hls].
    intros j [a b]. unfold CoordinateSchema.
    destruct j as [| | | |[|ja [|jb [|]]]|]; try discriminate.
    destruct (z_number ja) eqn:Ha; [|discriminate].
    destruct (z_number jb) eqn:Hb; [|discriminate].
    intros H; inversion H; subst. cbn.
    split; eapply z_number_finite; eauto.
  - eapply z_items_Forall; [|exact Hrs].
    intros j a. unfold z_number_positive.
    destruct (z_number j) eqn:Hj; [|discriminate].
    destruct (0 <? f)%float eqn:Hpos; [|discriminate].
    intros H; inversion H; subst. split; [|exact Hpos].
    eapply z_number_finite; eauto.
Qed.

Section KeyShape.

Variable host : Host.
Hypothesis text : number_text host.

Lemma getCacheKey_form name locs rng :
  getCacheKey host name locs rng
  = name +:+ String ":" (JSON_locations host locs +:+
                         String ":" (JSON_range host rng)).
Proof. reflexivity. Qed.

Lemma JSON_array_form items :
  JSON_array items = String "[" (String.concat "," items +:+ String "]" "").
Proof. reflexivity. Qed.

Lemma JSON_number_plain x : plain (JSON_number host x).
Proof.
  unfold JSON_number. destruct (is_finite x) eqn:Hx.
  - apply (text_plain host text). exact Hx.
  - repeat split.
Qed.

Lemma count_JSON_array c items :
  count c "," = 0%nat ->
  count c (JSON_array items)
  = (count c "[" + foldr (fun s n => (count c s + n)%nat) 0%nat items
     + count c "]")%nat.
Proof.
  intros Hsep. unfold JSON_array.
  rewrite !count_app, count_concat by exact Hsep. lia.
Qed.

Lemma count_JSON_locations_colon locs :
  count ":" (JSON_locations host locs) = 0%nat.
Proof.
  unfold JSON_locations. rewrite count_JSON_array by reflexivity.
  assert (H : foldr (fun s n => (count ":" s + n)%nat) 0%nat
                (map (fun c : Coordinate =>
                        JSON_array [JSON_number host c.1;
                                    JSON_number host c.2]) locs)
              = 0%nat).
  { induction locs as [|[x y] locs IH]; cbn [map foldr length];
      [reflexivity|].
    rewrite IH, count_JSON_array by reflexivity. cbn [map foldr fst snd].
    destruct (JSON_number_plain x) as (_ & -> & _).
    destruct (JSON_number_plain y) as (_ & -> & _). reflexivity. }
  rewrite H. reflexivity.
Qed.

Lemma count_JSON_locations_bracket locs :
  count "[" (JSON_locations host locs) = S (length locs).
Proof.
  unfold JSON_locations. rewrite count_JSON_array by reflexivity.
  assert (H : foldr (fun s n => (count "[" s + n)%nat) 0%nat
                (map (fun c : Coordinate =>
                        JSON_array [JSON_number host c.1;
                                    JSON_number host c.2]) locs)
              = length locs).
  { induction locs as [|[x y] locs IH]; cbn [map foldr length];
      [reflexivity|].
    rewrite IH, count_JSON_array by reflexivity. cbn [map foldr fst snd].
    destruct (JSON_number_plain x) as (_ & _ & -> & _).
    destruct (JSON_number_plain y) as (_ & _ & -> & _). reflexivity. }
  rewrite H. cbn. lia.
Qed.

Lemma transport_name_inj t t' :
  transport_name t = transport_name t' -> t = t'.
Proof. destruct t, t'; cbn; congruence. Qed.

Lemma JSON_range_inj rng rng' :
  rng <> [] -> rng' <> [] ->
  Forall (fun x => is_finite x = true /\ (0 <? x)%float = true) rng ->
  Forall (fun x => is_finite x = true /\ (0 <? x)%float = true) rng' ->
  JSON_range host rng = JSON_range host rng' -> rng = rng'.
Proof.
  intros Hne Hne' Hall Hall' Heq. unfold JSON_range in Heq.
  rewrite !JSON_array_form in Heq. injection Heq as Heq.
  assert (Hcomma : forall l,
             Forall (fun s => count "," s = 0%nat) (map (JSON_number host) l)).
  { intros l. apply Forall_forall. intros s Hs.
    apply list_elem_of_In, in_map_iff in Hs as (x & <- & _).
    apply JSON_number_plain. }
  assert (Hbracket : forall l,
             count "]" (String.concat "," (map (JSON_number host) l)) = 0%nat).
  { intros l. rewrite count_concat by reflexivity.
    induction l as [|x l IH]; cbn [map foldr]; [reflexivity|].
    rewrite IH. destruct (JSON_number_plain x) as (_ & _ & _ & ->).
    reflexivity. }
  apply split_unique in Heq as [Heq _]; auto.
  apply join_unique in Heq; auto;
    try (destruct rng; cbn; congruence); try (destruct rng'; cbn; congruence).
  clear Hne Hne'. revert rng' Hall' Heq.
  induction Hall as [|x rng [Hx Hpos] Hall IH]; intros [|y rng'] Hall' Heq;
    cbn in Heq; try congruence.
  apply Forall_cons in Hall' as [[Hy Hpos'] Hall'].
  inversion Heq as [[Hxy Hrest]]. unfold JSON_number in Hxy.
  rewrite Hx, Hy in Hxy.
  f_equal; [apply (text_inj host text); auto | apply IH; auto].
Qed.

(** The key of a valid request determines its transport, the number of its
    locations and its range. *)
Lemma cacheKey_shape t t' request request' :
  valid_request request -> valid_request request' ->
  cacheKey host t request = cacheKey host t' request' ->
  t = t' /\
  length (locations request) = length (locations request') /\
  range request = range request'.
Proof.
  intros (_ & Hr & _ & Hrng) (_ & Hr' & _ & Hrng') Heq.
  unfold cacheKey in Heq. rewrite !getCacheKey_form in Heq.
  apply split_unique in Heq as [Hname Heq];
    [|destruct t; reflexivity|destruct t'; reflexivity].
  apply split_unique in Heq as [Hlocs Hjr];
    [|apply count_JSON_locations_colon..].
  split; [apply transport_name_inj; exact Hname|]. split.
  - apply (f_equal (count "[")) in Hlocs.
    rewrite !count_JSON_locations_bracket in Hlocs. congruence.
  - apply JSON_range_inj; auto.
Qed.

End KeyShape.

(** The host of the examples prints numbers as [number_text] asks. *)

Lemma binary_count c m :
  Ascii.eqb "0" c = false -> Ascii.eqb "1" c = false ->
  count c (Example.binary m) = 0%nat.
Proof.
  intros H0 H1. induction m as [m IH|m IH|]; cbn [Example.binary count].
  - rewrite H1, IH. reflexivity.
  - rewrite H0, IH. reflexivity.
  - rewrite H1. reflexivity.
Qed.

Lemma signed_count c z :
  Ascii.eqb "0" c = false -> Ascii.eqb "1" c = false ->
  Ascii.eqb "+" c = false -> Ascii.eqb "-" c = false ->
  count c (Example.signed z) = 0%nat.
Proof.
  intros H0 H1 Hp Hm. destruct z as [|p|p]; cbn [Example.signed count].
  - rewrite Hp. reflexivity.
  - rewrite Hp, binary_count by assumption. reflexivity.
  - rewrite Hm, binary_count by assumption. reflexivity.
Qed.

Lemma binary_inj m m' : Example.binary m = Example.binary m' -> m = m'.
Proof.
  revert m'. induction m as [m IH|m IH|]; intros [m'|m'|]; cbn;
    intros H; try discriminate; try reflexivity;
    try (injection H as H; f_equal; apply IH; exact H).
  - injection H as H. destruct m; discriminate.
  - injection H as H. destruct m'; discriminate.
Qed.

Lemma signed_inj z z' : Example.signed z = Example.signed z' -> z = z'.
Proof.
  destruct z as [|p|p], z' as [|p'|p']; cbn; intros H;
    try discriminate; try reflexivity;
    try (injection H as H; f_equal; apply binary_inj; exact H).
  - injection H as H. destruct p'; discriminate.
  - injection H as H. destruct p; discriminate.
Qed.

Lemma positive_float x :
  (0 <? x)%float = true ->
  Prim2SF x = S754_infinity false \/
  exists m e, Prim2SF x = S754_finite false m e.
Proof.
  rewrite ltb_spec.
  replace (Prim2SF 0%float) with (S754_zero false) by reflexivity.
  destruct (Prim2SF x) as [s|s| |s m e]; try destruct s; cbn;
    try discriminate; eauto.
Qed.

Lemma example_number_text : number_text Example.host.
Proof.
  split.
  - intros x _. cbn [Number_toString Example.host]. unfold Example.toString.
    destruct (Prim2SF x) as [s|[|]| |s m e]; try (repeat split; fail).
    unfold plain. rewrite !count_app.
    rewrite !binary_count, !signed_count by reflexivity.
    destruct s; repeat split.
  - intros x y Hx Hy. cbn [Number_toString Example.host].
    unfold Example.toString. intros Heq.
    rewrite <- (SF2Prim_Prim2SF x), <- (SF2Prim_Prim2SF y). f_equal.
    destruct (positive_float x Hx) as [Hsx|(m & e & Hsx)],
             (positive_float y Hy) as [Hsy|(m' & e' & Hsy)];
      rewrite Hsx, Hsy in Heq |- *; cbn in Heq.
    + reflexivity.
    + destruct m'; discriminate.
    + destruct m; discriminate.
    + change (Example.binary m +:+ String "p" (Example.signed e)
              = Example.binary m' +:+ String "p" (Example.signed e')) in Heq.
      apply split_unique in Heq as [Hm He];
        [|apply binary_count; reflexivity..].
      apply binary_inj in Hm. apply signed_inj in He. congruence.
Qed.

(** ** Claims about the service *)

(** One feature for each location and each range value, those of a
    location together and in the order of the range values. *)
Definition one_feature_per_pair (L : nat) (rng : list float)
    (fs : list Feature) : Prop :=
  length fs = (L * length rng)%nat /\
  forall i j r,
    (i < L)%nat -> rng !! j = Some r ->
    exists f,
      fs !! (i * length rng + j)%nat = Some f /\
      group_index (properties f) = i /\ value (properties f) = r.

(** Every entry of the cache was generated for a valid request with the
    key of the entry. *)
Definition coherent (host : Host) (w : World) : Prop :=
  forall key e,
    cache w !! key = Some e ->
    exists t request,
      valid_request request /\ key = cacheKey host t request /\
      one_feature_per_pair (length (locations request)) (range request)
        (features (Entry.data e)).

Section Service.

Variable host : Host.
Hypothesis text : number_text host.

Lemma all_features_shape d locs rng :
  one_feature_per_pair (length locs) rng (all_features host d 0 locs rng).
Proof.
  split; [apply all_features_length|].
  intros i j r Hi Hj.
  destruct (lookup_lt_is_Some_2 locs i Hi) as [loc Hloc].
  eexists. split; [apply (all_features_lookup _ _ _ _ _ _ _ _ _ Hloc Hj)|].
  split; reflexivity.
Qed.

Lemma handler_coherent transport request w :
  valid_request request -> coherent host w ->
  coherent host (handler host transport request w).2 /\
  status (handler host transport request w).1 = 200%nat /\
  exists d,
    body (handler host transport request w).1 = Json_isochrones d /\
    one_feature_per_pair (length (locations request)) (range request)
      (features d).
Proof.
  intros Hvalid Hcoh.
  destruct ((getFromCache host (cacheKey host transport request) w).1)
    as [d|] eqn:Hlook.
  - destruct (cache w !! cacheKey host transport request) as [e|] eqn:Hk.
    + destruct (Z.lt_ge_cases
                  (Date_now host (clock_reads w) - Entry.timestamp e)
                  CACHE_TTL) as [Ht|Ht].
      * rewrite (handler_hit _ _ _ _ _ Hk Ht). cbn [fst snd status body].
        split; [exact Hcoh|]. split; [reflexivity|].
        exists (Entry.data e). split; [reflexivity|].
        destruct (Hcoh _ _ Hk) as (t' & request' & Hvalid' & Hkey & Hshape).
        destruct (cacheKey_shape host text _ _ _ _ Hvalid Hvalid' Hkey)
          as (_ & -> & ->).
        exact Hshape.
      * rewrite (getFromCache_expired _ _ _ _ Hk Ht) in Hlook. discriminate.
    + rewrite (getFromCache_absent _ _ _ Hk) in Hlook. discriminate.
  - rewrite (handler_miss _ _ _ _ Hlook). cbn [fst snd status body].
    destruct (getFromCache_miss _ _ _ Hlook) as (Hc1 & _ & _).
    cbv zeta in Hc1. rewrite generateMockIsochrones_run.
    cbn [fst snd features with_cache cache ticked drawn].
    split; [|split; [reflexivity|]].
    + intros key e. cbn [cache with_cache]. rewrite Hc1.
      destruct (decide (cacheKey host transport request = key)) as [<-|Hne].
      * rewrite lookup_insert_eq. intros He; inversion He; subst.
        exists transport, request. split; [exact Hvalid|].
        split; [reflexivity|]. apply all_features_shape.
      * rewrite lookup_insert_ne, lookup_delete_ne by exact Hne.
        apply Hcoh.
    + eexists. split; [reflexivity|]. apply all_features_shape.
Qed.

Lemma isochronesRoute_coherent path body w :
  coherent host w -> coherent host (isochronesRoute host path body w).2.
Proof.
  intros Hcoh. unfold isochronesRoute, post.
  repeat (destruct (String.eqb _ _)); try exact Hcoh;
    (destruct (IsochronesRequestSchema body) as [request|] eqn:Hbody;
     [apply handler_coherent; [exact (schema_valid _ _ Hbody) | exact Hcoh]
     |exact Hcoh]).
Qed.

Lemma serve_coherent calls :
  forall w, coherent host w -> coherent host (serve host calls w).2.
Proof.
  induction calls as [|[path body] calls IH]; intros w Hcoh; cbn [serve].
  - exact Hcoh.
  - rewrite !bind_run. cbn [ret snd].
    apply IH, isochronesRoute_coherent, Hcoh.
Qed.

Lemma empty_cache_coherent c0 d0 :
  coherent host {| cache := ∅; clock_reads := c0; random_draws := d0 |}.
Proof. intros key e He. cbn in He. rewrite lookup_empty in He. discriminate. Qed.

End Service.

(** C1. The server starts with an empty cache and has served any
    sequence of calls.  A valid request, on any of the three routes, is
    then answered with status 200 and a feature collection of exactly
    [|locations| * |range|] features in location-major, range-minor order:
    the feature at position [i * |range| + j] has [group_index = i] and
    [value = range[j]], whether the answer is synthesized or comes from
    the cache.  A fresh synthesis has, in addition, the location [i] as
    the [center] of that feature. *)
Theorem compute_returns_one_feature_per_location_and_range (host : Host)
    (calls : list (string * json)) (c0 d0 : nat) (transport : Transport)
    (payload : json) (request : IsochronesRequest) :
  number_text host ->
  IsochronesRequestSchema payload = Some request ->
  let w :=
    (serve host calls
       {| cache := ∅; clock_reads := c0; random_draws := d0 |}).2 in
  let response := (isochronesRoute host (transport_path transport) payload w).1 in
  let locs := locations request in
  let rng := range request in
  status response = 200%nat /\
  (exists d,
     body response = Json_isochrones d /\
     length (features d) = (length locs * length rng)%nat /\
     forall i j loc r,
       locs !! i = Some loc -> rng !! j = Some r ->
       exists f,
         features d !! (i * length rng + j)%nat = Some f /\
         group_index (properties f) = i /\ value (properties f) = r) /\
  (forall rid w',
     let fresh :=
       (generateMockIsochrones host locs rng rid (Some transport) w').1 in
     length (features fresh) = (length locs * length rng)%nat /\
     forall i j loc r,
       locs !! i = Some loc -> rng !! j = Some r ->
       exists f,
         features fresh !! (i * length rng + j)%nat = Some f /\
         group_index (properties f) = i /\ value (properties f) = r /\
         center (properties f) = loc).
Proof.
  intros text Hbody w response locs rng. subst response.
  rewrite isochronesRoute_post. unfold post. rewrite Hbody.
  destruct (handler_coherent host text transport request w
              (schema_valid _ _ Hbody))
    as (_ & Hstatus & d & Hd & Hlen & Hfeat).
  { apply serve_coherent; [exact text | apply empty_cache_coherent]. }
  split; [exact Hstatus|]. split.
  - exists d. split; [exact Hd|]. split; [exact Hlen|].
    intros i j loc r Hi Hj. apply Hfeat; [|exact Hj].
    apply lookup_lt_Some in Hi. exact Hi.
  - intros rid w'. cbv zeta. rewrite generateMockIsochrones_run.
    cbn [fst features]. split; [apply all_features_length|].
    intros i j loc r Hi Hj. eexists.
    split; [apply (all_features_lookup _ _ _ _ _ _ _ _ _ Hi Hj)|].
    repeat split.
Qed.

Lemma compute_returns_one_feature_per_location_and_range_witness :
  let w :=
    (serve Example.host [("/foot-walking", Scenario.body_m1)]
       Example.empty_world).2 in
  let response :=
    (isochronesRoute Example.host "/foot-walking" Scenario.body_m1 w).1 in
  status response = 200%nat /\
  exists d,
    body response = Json_isochrones d /\
    length (features d) = 1%nat /\
    exists f,
      features d !! 0%nat = Some f /\
      group_index (properties f) = 0%nat /\
      value (properties f) = 500%float.
Proof.
  destruct (compute_returns_one_feature_per_location_and_range Example.host
              [("/foot-walking", Scenario.body_m1)] 0 0 foot_walking
              Scenario.body_m1 (Scenario.request (Some "m1"))
              example_number_text eq_refl)
    as (Hstatus & (d & Hd & Hlen & Hfeat) & _).
  split; [exact Hstatus|]. exists d. split; [exact Hd|].
  split; [exact Hlen|].
  destruct (Hfeat 0%nat 0%nat Example.london 500%float eq_refl eq_refl)
    as (f & Hf & Hg & Hv).
  exists f. auto.
Defined.

(** The end-to-end scenario: one location, the range 500, the id [m1], on
    [foot-walking]. *)
Example end_to_end_scenario :
  match
    body (isochronesRoute Example.host "/foot-walking" Scenario.body_m1
            Example.empty_world).1
  with
  | Json_isochrones d =>
      map (fun f => (group_index (properties f), value (properties f)))
          (features d)
      = [(0%nat, 500%float)] /\
      query_transport (query (metadata d)) = Some foot_walking /\
      metadata_id (metadata d) = Some "m1"
  | _ => False
  end.
Proof. vm_compute. auto. Qed.

(** * More of the server *)

(** ** The cache as a store *)

Section CacheStore.

Variable host : Host.

(** X1. What [setCache] stores under a key is what an immediate
    [getFromCache] of that key returns, whatever was stored there before,
    as long as the clock has advanced by less than the TTL between the two;
    otherwise the lookup returns nothing and removes the entry.  Storing
    touches no other key. *)
Theorem setCache_then_getFromCache (key : string) (d : IsochronesResponse)
    (w : World) :
  let stored := (setCache host key d w).2 in
  let looked := getFromCache host key stored in
  let age :=
    Date_now host (S (clock_reads w)) - Date_now host (clock_reads w) in
  cache stored !! key
  = Some {| Entry.data := d;
            Entry.timestamp := Date_now host (clock_reads w) |} /\
  (forall key', key' <> key -> cache stored !! key' = cache w !! key') /\
  (age < CACHE_TTL ->
   looked.1 = Some d /\ cache looked.2 = cache stored) /\
  (CACHE_TTL <= age ->
   looked.1 = None /\ cache looked.2 = delete key (cache w)).
Proof.
  intros stored looked age. subst stored looked age.
  assert (Hset : setCache host key d w
                 = (tt, with_cache
                          (<[key := {| Entry.data := d;
                                       Entry.timestamp :=
                                         Date_now host (clock_reads w) |}]>
                             (cache w))
                          (ticked w))) by reflexivity.
  rewrite Hset. cbn [snd].
  set (e := {| Entry.data := d;
               Entry.timestamp := Date_now host (clock_reads w) |}).
  assert (Hk : cache (with_cache (<[key := e]> (cache w)) (ticked w)) !! key
               = Some e) by apply lookup_insert_eq.
  split; [exact Hk|]. split; [|split].
  - intros key' Hne. cbn [cache with_cache].
    apply lookup_insert_ne. congruence.
  - intros Hage. rewrite (getFromCache_fresh host _ _ _ Hk) by exact Hage.
    split; reflexivity.
  - intros Hage. rewrite (getFromCache_expired host _ _ _ Hk) by exact Hage.
    split; [reflexivity|]. cbn [snd cache with_cache].
    apply delete_insert_eq.
Qed.

Lemma handler_other_key transport request w key :
  key <> cacheKey host transport request ->
  cache (handler host transport request w).2 !! key = cache w !! key.
Proof.
  intros Hne.
  destruct ((getFromCache host (cacheKey host transport request) w).1)
    as [d|] eqn:Hlook.
  - destruct (cache w !! cacheKey host transport request) as [e|] eqn:Hk.
    + destruct (Z.lt_ge_cases
                  (Date_now host (clock_reads w) - Entry.timestamp e)
                  CACHE_TTL) as [Ht|Ht].
      * rewrite (handler_hit _ _ _ _ _ Hk Ht). reflexivity.
      * rewrite (getFromCache_expired _ _ _ _ Hk Ht) in Hlook. discriminate.
    + rewrite (getFromCache_absent _ _ _ Hk) in Hlook. discriminate.
  - rewrite (handler_miss _ _ _ _ Hlook).
    destruct (getFromCache_miss _ _ _ Hlook) as (Hc1 & _ & _).
    cbv zeta in Hc1. rewrite generateMockIsochrones_run.
    cbn [snd cache with_cache ticked drawn]. rewrite Hc1.
    rewrite lookup_insert_ne, lookup_delete_ne by congruence. reflexivity.
Qed.

Lemma handler_cache_size transport request w :
  (size (cache (handler host transport request w).2) <= S (size (cache w)))%nat.
Proof.
  destruct ((getFromCache host (cacheKey host transport request) w).1)
    as [d|] eqn:Hlook.
  - destruct (cache w !! cacheKey host transport request) as [e|] eqn:Hk.
    + destruct (Z.lt_ge_cases
                  (Date_now host (clock_reads w) - Entry.timestamp e)
                  CACHE_TTL) as [Ht|Ht].
      * rewrite (handler_hit _ _ _ _ _ Hk Ht). cbn. lia.
      * rewrite (getFromCache_expired _ _ _ _ Hk Ht) in Hlook. discriminate.
    + rewrite (getFromCache_absent _ _ _ Hk) in Hlook. discriminate.
  - rewrite (handler_miss _ _ _ _ Hlook).
    destruct (getFromCache_miss _ _ _ Hlook) as (Hc1 & _ & _).
    cbv zeta in Hc1. rewrite generateMockIsochrones_run.
    cbn [snd cache with_cache ticked drawn]. rewrite Hc1.
    rewrite insert_delete_eq, map_size_insert.
    destruct (cache w !! cacheKey host transport request); cbn; lia.
Qed.

(** X2. A call changes the cache at most under the key of its own valid
    request: the entry of every other key is left as it was (none is
    evicted or refreshed), a call that is rejected or whose path is unknown
    changes nothing, and the cache grows by at most one entry per call. *)
Theorem call_touches_only_its_own_key (path : string) (payload : json)
    (w : World) (key : string) :
  (forall t request,
     path = transport_path t ->
     IsochronesRequestSchema payload = Some request ->
     key <> cacheKey host t request) ->
  cache (isochronesRoute host path payload w).2 !! key = cache w !! key /\
  (size (cache (isochronesRoute host path payload w).2)
   <= S (size (cache w)))%nat.
Proof.
  intros Hkey. unfold isochronesRoute, post.
  destruct (String.eqb path "/driving-car") eqn:H1;
    [apply String.eqb_eq in H1; subst path|
     destruct (String.eqb path "/foot-walking") eqn:H2;
     [apply String.eqb_eq in H2; subst path|
      destruct (String.eqb path "/cycling-regular") eqn:H3;
      [apply String.eqb_eq in H3; subst path|]]];
    try (cbn; split; [reflexivity | lia]);
    (destruct (IsochronesRequestSchema payload) as [request|] eqn:Hbody;
     [|cbn; split; [reflexivity | lia]]).
  - split; [apply handler_other_key, (Hkey driving_car); reflexivity
           |apply handler_cache_size].
  - split; [apply handler_other_key, (Hkey foot_walking); reflexivity
           |apply handler_cache_size].
  - split; [apply handler_other_key, (Hkey cycling_regular); reflexivity
           |apply handler_cache_size].
Qed.

(** X3. The key begins with the name of the transport, up to the first
    colon: requests to different routes never share a cache entry,
    whatever their locations and ranges and however the host prints
    numbers. *)
Theorem different_transports_have_different_keys (t t' : Transport)
    (locs locs' : list Coordinate) (rng rng' : list float) :
  t <> t' ->
  getCacheKey host (transport_name t) locs rng
  <> getCacheKey host (transport_name t') locs' rng'.
Proof.
  intros Hne Heq. apply Hne. clear Hne.
  change (transport_name t +:+
          String ":" (JSON_locations host locs +:+
                      String ":" (JSON_range host rng))
          = transport_name t' +:+
            String ":" (JSON_locations host locs' +:+
                        String ":" (JSON_range host rng'))) in Heq.
  apply split_unique in Heq as [Hname _];
    [|destruct t; reflexivity|destruct t'; reflexivity].
  destruct t, t'; cbn in Hname; congruence.
Qed.

(** X4. When the host prints numbers as JavaScript does ([number_text]),
    two valid requests with the same key have the same transport, the same
    range values in the same order, and the same number of locations. *)
Theorem same_key_same_transport_range_and_location_count (t t' : Transport)
    (request request' : IsochronesRequest) :
  number_text host ->
  valid_request request -> valid_request request' ->
  cacheKey host t request = cacheKey host t' request' ->
  t = t' /\ range request = range request' /\
  length (locations request) = length (locations request').
Proof.
  intros text Hv Hv' Hkey.
  destruct (cacheKey_shape host text t t' request request' Hv Hv' Hkey)
    as (Ht & Hl & Hr).
  auto.
Qed.

End CacheStore.

Lemma call_touches_only_its_own_key_witness :
  cache (isochronesRoute Example.host "/driving-car" Scenario.body_m1
           Scenario.populated).2
    !! cacheKey Example.host foot_walking (Scenario.request None)
  = cache Scenario.populated
      !! cacheKey Example.host foot_walking (Scenario.request None).
Proof.
  refine (proj1 (call_touches_only_its_own_key Example.host "/driving-car"
                   Scenario.body_m1 Scenario.populated
                   (cacheKey Example.host foot_walking (Scenario.request None))
                   _)).
  intros t request Hpath Hbody.
  destruct t; discriminate.
Defined.

Lemma different_transports_have_different_keys_witness :
  getCacheKey Example.host (transport_name driving_car)
    [Example.london] [500%float]
  <> getCacheKey Example.host (transport_name foot_walking)
       [Example.london] [500%float].
Proof.
  apply (different_transports_have_different_keys Example.host
           driving_car foot_walking).
  discriminate.
Defined.

(** Two requests that differ in the sign of a zero coordinate: the host of
    the examples, like JavaScript, prints both zeros as ["0"], so the keys
    agree. *)
Lemma same_key_same_transport_range_and_location_count_witness :
  cacheKey Example.host foot_walking
    {| locations := [(0, 51.5)%float]; range := [500%float]; id := None |}
  = cacheKey Example.host foot_walking
      {| locations := [(-0, 51.5)%float]; range := [500%float];
         id := Some "m2" |} /\
  foot_walking = foot_walking /\
  [500%float] = [500%float] /\ 1%nat = 1%nat.
Proof.
  assert (Hkey :
    cacheKey Example.host foot_walking
      {| locations := [(0, 51.5)%float]; range := [500%float]; id := None |}
    = cacheKey Example.host foot_walking
        {| locations := [(-0, 51.5)%float]; range := [500%float];
           id := Some "m2" |}) by (vm_compute; reflexivity).
  split; [exact Hkey|].
  apply (same_key_same_transport_range_and_location_count Example.host
           foot_walking foot_walking
           {| locations := [(0, 51.5)%float]; range := [500%float];
              id := None |}
           {| locations := [(-0, 51.5)%float]; range := [500%float];
              id := Some "m2" |}
           example_number_text);
    [| |exact Hkey];
    (split; [discriminate|]; split; [discriminate|];
     split; repeat constructor).
Defined.

(** ** Validation *)

(** The JSON value of a request: [{ locations, range, id }], the [id] left
    out when there is none. *)
Definition request_json (request : IsochronesRequest) : json :=
  JObject
    ([("locations",
       JArray (map (fun c : Coordinate => JArray [JNumber c.1; JNumber c.2])
                   (locations request)));
      ("range", JArray (map JNumber (range request)))] ++
     match id request with
     | Some s => [("id", JString s)]
     | None => []
     end).

Lemma z_items_map {A} (item : json -> option A) (f : A -> json) (l : list A) :
  Forall (fun a => item (f a) = Some a) l ->
  z_items item (map f l) = Some l.
Proof.
  induction 1 as [|a l Ha _ IH]; cbn [map z_items]; [reflexivity|].
  rewrite Ha, IH. reflexivity.
Qed.

(** X5. Validation accepts exactly the valid requests: what
    [IsochronesRequestSchema] lets through has a non-empty list of
    locations with finite coordinates and a non-empty list of finite,
    positive range values; and every such request, written as JSON, is let
    through and read back as it was, [id] included. *)
Theorem validation_accepts_exactly_the_valid_requests :
  (forall payload request,
     IsochronesRequestSchema payload = Some request ->
     valid_request request) /\
  (forall request,
     valid_request request ->
     IsochronesRequestSchema (request_json request) = Some request).
Proof.
  split; [exact schema_valid|].
  intros [locs rng rid] (Hl & Hr & Hlocs & Hrng). cbn in Hl, Hr, Hlocs, Hrng.
  unfold IsochronesRequestSchema, request_json. cbn [locations range id].
  assert (Hpl : forall tl,
             (tl = [] \/ exists s, tl = [("id", JString s)]) ->
             property "locations"
               ([("locations",
                  JArray (map (fun c : Coordinate =>
                                 JArray [JNumber c.1; JNumber c.2]) locs));
                 ("range", JArray (map JNumber rng))] ++ tl)
             = Some (JArray (map (fun c : Coordinate =>
                                    JArray [JNumber c.1; JNumber c.2]) locs)) /\
             property "range"
               ([("locations",
                  JArray (map (fun c : Coordinate =>
                                 JArray [JNumber c.1; JNumber c.2]) locs));
                 ("range", JArray (map JNumber rng))] ++ tl)
             = Some (JArray (map JNumber rng))).
  { intros tl [->|[s ->]]; split; reflexivity. }
  assert (Hzl : z_items CoordinateSchema
                  (map (fun c : Coordinate =>
                          JArray [JNumber c.1; JNumber c.2]) locs)
                = Some locs).
  { apply z_items_map. eapply Forall_impl; [exact Hlocs|].
    intros [x y] [Hx Hy]. cbn in *. rewrite Hx, Hy. reflexivity. }
  assert (Hzr : z_items z_number_positive (map JNumber rng) = Some rng).
  { apply z_items_map. eapply Forall_impl; [exact Hrng|].
    intros x [Hx Hpos]. unfold z_number_positive, z_number.
    rewrite Hx, Hpos. reflexivity. }
  destruct rid as [s|].
  - destruct (Hpl [("id", JString s)]) as [-> ->]; [right; eauto|].
    cbn [required]. unfold z_array_nonempty, z_array. rewrite Hzl, Hzr.
    destruct locs; [congruence|]. destruct rng; [congruence|]. reflexivity.
  - destruct (Hpl []) as [-> ->]; [left; reflexivity|].
    cbn [required]. unfold z_array_nonempty, z_array. rewrite Hzl, Hzr.
    destruct locs; [congruence|]. destruct rng; [congruence|]. reflexivity.
Qed.

Lemma property_other name k v (l1 l2 : list (string * json)) :
  k <> name ->
  property name (l1 ++ (k, v) :: l2) = property name (l1 ++ l2).
Proof.
  intros Hne. induction l1 as [|[k' v'] l1 IH]; cbn [app property].
  - apply String.eqb_neq in Hne. rewrite Hne.
    destruct (property name l2); reflexivity.
  - rewrite IH. reflexivity.
Qed.

(** X6. A member of the body whose name is none of [locations], [range]
    and [id] is ignored, wherever it stands: the request is accepted or
    rejected, and read, as without it. *)
Theorem unknown_members_are_ignored (k : string) (v : json)
    (l1 l2 : list (string * json)) :
  k <> "locations" -> k <> "range" -> k <> "id" ->
  IsochronesRequestSchema (JObject (l1 ++ (k, v) :: l2))
  = IsochronesRequestSchema (JObject (l1 ++ l2)).
Proof.
  intros Hl Hr Hi. unfold IsochronesRequestSchema.
  rewrite !property_other by assumption. reflexivity.
Qed.

Lemma unknown_members_are_ignored_witness :
  IsochronesRequestSchema
    (JObject
       [("locations", JArray [JArray [JNumber (-0.1)%float; JNumber 51.5%float]]);
        ("units", JString "m");
        ("range", JArray [JNumber 500%float])])
  = Some {| locations := [Example.london]; range := [500%float]; id := None |}.
Proof.
  etransitivity;
    [exact (unknown_members_are_ignored "units" (JString "m")
              [("locations",
                JArray [JArray [JNumber (-0.1)%float; JNumber 51.5%float]])]
              [("range", JArray [JNumber 500%float])]
              ltac:(discriminate) ltac:(discriminate) ltac:(discriminate))
    |reflexivity].
Defined.

(** An array of exactly two finite numbers. *)
Definition two_numbers (j : json) : Prop :=
  exists x y,
    j = JArray [JNumber x; JNumber y] /\
    is_finite x = true /\ is_finite y = true.

(** A finite number. *)
Definition one_number (j : json) : Prop :=
  exists x, j = JNumber x /\ is_finite x = true.

Lemma CoordinateSchema_rejects j :
  ~ two_numbers j -> CoordinateSchema j = None.
Proof.
  intros Hnot. unfold CoordinateSchema.
  destruct j as [| | | |[|a [|b [|c rest]]]|]; try reflexivity.
  unfold z_number.
  destruct a as [| |x| | |]; try reflexivity.
  destruct (is_finite x) eqn:Hx; [|reflexivity].
  destruct b as [| |y| | |]; try reflexivity.
  destruct (is_finite y) eqn:Hy; [|reflexivity].
  exfalso. apply Hnot. exists x, y. auto.
Qed.

Lemma z_number_rejects j : ~ one_number j -> z_number j = None.
Proof.
  intros Hnot. unfold z_number.
  destruct j as [| |x| | |]; try reflexivity.
  destruct (is_finite x) eqn:Hx; [|reflexivity].
  exfalso. apply Hnot. exists x. auto.
Qed.

(** X7. Besides empty lists and ranges that are not positive, the routes
    answer 400, and leave the world as it was, when the body is not an
    object, when [locations] or [range] is missing or is not an array,
    when a location is anything but an array of exactly two finite
    numbers, when a range value is anything but a finite number, and when
    [id] is present and is not a string. *)
Theorem malformed_request_is_rejected_without_side_effect (host : Host)
    (transport : Transport) (payload : json) (w : World) :
  (forall members, payload <> JObject members) \/
  (exists members,
     payload = JObject members /\
     (property "locations" members = None \/
      property "range" members = None \/
      (exists j,
         property "locations" members = Some j /\
         forall items, j <> JArray items) \/
      (exists j,
         property "range" members = Some j /\
         forall items, j <> JArray items) \/
      (exists items location,
         property "locations" members = Some (JArray items) /\
         location ∈ items /\ ~ two_numbers location) \/
      (exists items rangeValue,
         property "range" members = Some (JArray items) /\
         rangeValue ∈ items /\ ~ one_number rangeValue) \/
      (exists j,
         property "id" members = Some j /\
         forall s, j <> JString s))) ->
  isochronesRoute host (transport_path transport) payload w
  = ({| status := 400; headers := []; body := Json_validation_failure |}, w).
Proof.
  intros Hbad. rewrite isochronesRoute_post. unfold post.
  assert (Hschema : IsochronesRequestSchema payload = None);
    [|rewrite Hschema; reflexivity].
  unfold IsochronesRequestSchema.
  destruct Hbad as [Hobj|(members & -> & Hbad)].
  { destruct payload; try reflexivity. exfalso. eapply Hobj. reflexivity. }
  destruct Hbad as [Hl|[Hr|[(j & Hl & Hj)|[(j & Hr & Hj)
                           |[(items & location & Hl & Hin & Hnot)
                            |[(items & rangeValue & Hr & Hin & Hnot)
                             |(j & Hj & Hs)]]]]]].
  - rewrite Hl. reflexivity.
  - rewrite Hr. cbn [required].
    destruct (required _ (property "locations" members)); reflexivity.
  - rewrite Hl. cbn [required]. unfold z_array_nonempty, z_array.
    destruct j; try reflexivity. exfalso. eapply Hj. reflexivity.
  - rewrite Hr. cbn [required]. unfold z_array_nonempty, z_array.
    destruct j;
      try (destruct (required _ (property "locations" members));
           reflexivity).
    exfalso. eapply Hj. reflexivity.
  - rewrite Hl. cbn [required]. unfold z_array_nonempty, z_array.
    rewrite (z_items_rejects _ _ _ Hin); [reflexivity|].
    apply CoordinateSchema_rejects, Hnot.
  - rewrite Hr. cbn [required]. unfold z_array_nonempty, z_array.
    rewrite (z_items_rejects _ _ rangeValue Hin).
    + destruct (required _ (property "locations" members)); reflexivity.
    + unfold z_number_positive.
      rewrite (z_number_rejects _ Hnot). reflexivity.
  - rewrite Hj. cbn [optional].
    assert (Hz : z_string j = None).
    { destruct j; try reflexivity. exfalso. eapply Hs. reflexivity. }
    rewrite Hz.
    destruct (required _ (property "locations" members));
      [destruct (required _ (property "range" members))|]; reflexivity.
Qed.

Lemma malformed_request_is_rejected_without_side_effect_witness :
  isochronesRoute Example.host "/cycling-regular"
    (JObject
       [("locations",
         JArray [JArray [JNumber 0%float; JNumber 0%float];
                 JArray [JNumber 1%float; JString "b"]]);
        ("range", JArray [JNumber 500%float])])
    Scenario.populated
  = ({| status := 400; headers := []; body := Json_validation_failure |},
     Scenario.populated).
Proof.
  apply (malformed_request_is_rejected_without_side_effect Example.host
           cycling_regular).
  right. eexists. split; [reflexivity|].
  do 4 right. left.
  exists [JArray [JNumber 0%float; JNumber 0%float];
          JArray [JNumber 1%float; JString "b"]],
         (JArray [JNumber 1%float; JString "b"]).
  split; [reflexivity|]. split; [right; left|].
  intros (x & y & Hj & _). discriminate Hj.
Defined.

(** X8. In a generated response, vertex [v] of the ring of the feature at
    position [k = i * |range| + j] is computed for location [i] and range
    value [j] from the draw number [12 * k + v] after those made before:
    no two vertices of a response share a draw.  Generating consumes
    [12 * |range| * |locations|] draws and one reading of the clock, which
    is the timestamp of the response, and does not touch the cache. *)
Theorem every_vertex_has_a_draw_of_its_own (host : Host)
    (locs : list Coordinate) (rng : list float) (rid : option string)
    (transport : option Transport) (w : World) (i j v : nat)
    (loc : Coordinate) (r : float) :
  locs !! i = Some loc -> rng !! j = Some r -> (v < 12)%nat ->
  let generated := generateMockIsochrones host locs rng rid transport w in
  let k := (i * length rng + j)%nat in
  (exists f ring,
     features generated.1 !! k = Some f /\
     coordinates (geometry f) = [ring] /\
     ring !! v
     = Some (vertex host loc r v
               (Math_random host (random_draws w + (12 * k + v))))) /\
  random_draws generated.2
  = (random_draws w + 12 * length rng * length locs)%nat /\
  clock_reads generated.2 = S (clock_reads w) /\
  timestamp (metadata generated.1) = Date_now host (clock_reads w) /\
  cache generated.2 = cache w.
Proof.
  intros Hi Hj Hv generated k. subst generated k.
  rewrite generateMockIsochrones_run. cbn [fst snd features metadata timestamp].
  split; [|repeat split].
  eexists _, _. split; [apply (all_features_lookup _ _ _ _ _ _ _ _ _ Hi Hj)|].
  split; [reflexivity|].
  rewrite ring_from_unfold, lookup_app_l
    by (rewrite vertices_from_length; exact Hv).
  rewrite vertices_from_lookup by exact Hv.
  do 3 f_equal. unfold numPoints. lia.
Qed.

Lemma every_vertex_has_a_draw_of_its_own_witness :
  exists f ring,
    features
      (generateMockIsochrones Example.host
         [Example.london; (2.35, 48.85)%float] [300%float; 500%float]
         None (Some foot_walking) Example.empty_world).1
      !! (1 * 2 + 0)%nat = Some f /\
    coordinates (geometry f) = [ring] /\
    ring !! 3%nat
    = Some (vertex Example.host (2.35, 48.85)%float 300%float 3
              (Math_random Example.host (0 + (12 * (1 * 2 + 0) + 3)))).
Proof.
  exact (proj1 (every_vertex_has_a_draw_of_its_own Example.host
                  [Example.london; (2.35, 48.85)%float]
                  [300%float; 500%float] None (Some foot_walking)
                  Example.empty_world 1 0 3 (2.35, 48.85)%float 300%float
                  eq_refl eq_refl ltac:(lia))).
Defined.

(** A response generated for a valid request with the key [key]. *)
Definition generated_for (host : Host) (key : string)
    (d : IsochronesResponse) : Prop :=
  exists t request w0,
    valid_request request /\ key = cacheKey host t request /\
    d = (generateMockIsochrones host (locations request) (range request)
           (id request) (Some t) w0).1.

Definition entries_generated (host : Host) (w : World) : Prop :=
  forall key e, cache w !! key = Some e -> generated_for host key (Entry.data e).

Section Generated.

Variable host : Host.

Lemma handler_generated transport request w :
  valid_request request -> entries_generated host w ->
  entries_generated host (handler host transport request w).2 /\
  exists d,
    (handler host transport request w).1.(body) = Json_isochrones d /\
    (handler host transport request w).1.(status) = 200%nat /\
    generated_for host (cacheKey host transport request) d.
Proof.
  intros Hvalid Hgen.
  destruct ((getFromCache host (cacheKey host transport request) w).1)
    as [d|] eqn:Hlook.
  - destruct (cache w !! cacheKey host transport request) as [e|] eqn:Hk.
    + destruct (Z.lt_ge_cases
                  (Date_now host (clock_reads w) - Entry.timestamp e)
                  CACHE_TTL) as [Ht|Ht].
      * rewrite (handler_hit _ _ _ _ _ Hk Ht). cbn [fst snd status body].
        split; [exact Hgen|]. exists (Entry.data e).
        split; [reflexivity|]. split; [reflexivity|]. exact (Hgen _ _ Hk).
      * rewrite (getFromCache_expired _ _ _ _ Hk Ht) in Hlook. discriminate.
    + rewrite (getFromCache_absent _ _ _ Hk) in Hlook. discriminate.
  - rewrite (handler_miss _ _ _ _ Hlook). cbn [fst snd status body].
    destruct (getFromCache_miss _ _ _ Hlook) as (Hc1 & _ & _).
    cbv zeta in Hc1.
    assert (Hnew : generated_for host (cacheKey host transport request)
                     (generateMockIsochrones host (locations request)
                        (range request) (id request) (Some transport)
                        (getFromCache host
                           (cacheKey host transport request) w).2).1).
    { eexists transport, request, _. split; [exact Hvalid|].
      split; reflexivity. }
    split; [|eexists; split; [reflexivity|]; split; [reflexivity|exact Hnew]].
    intros key e. cbn [cache with_cache].
    destruct (generateMockIsochrones_world host (locations request)
                (range request) (id request) (Some transport)
                (getFromCache host (cacheKey host transport request) w).2)
      as (Hc2 & _ & _).
    cbv zeta in Hc2. rewrite Hc2, Hc1.
    destruct (decide (cacheKey host transport request = key)) as [<-|Hne].
    + rewrite lookup_insert_eq. intros He; inversion He; subst. exact Hnew.
    + rewrite lookup_insert_ne, lookup_delete_ne by exact Hne. apply Hgen.
Qed.

Lemma serve_generated calls :
  forall w, entries_generated host w ->
            entries_generated host (serve host calls w).2.
Proof.
  induction calls as [|[path payload] calls IH]; intros w Hgen; cbn [serve].
  - exact Hgen.
  - rewrite !bind_run. cbn [ret snd]. apply IH.
    unfold isochronesRoute, post.
    repeat (destruct (String.eqb _ _)); try exact Hgen;
      (destruct (IsochronesRequestSchema payload) as [request|] eqn:Hbody;
       [apply handler_generated; [exact (schema_valid _ _ Hbody) | exact Hgen]
       |exact Hgen]).
Qed.

Lemma empty_cache_generated c0 d0 :
  entries_generated host
    {| cache := ∅; clock_reads := c0; random_draws := d0 |}.
Proof. intros key e He. cbn in He. rewrite lookup_empty in He. discriminate. Qed.

End Generated.

Lemma ring_from_closed host d location rangeValue :
  length (ring_from host d location rangeValue) = 13%nat /\
  head (ring_from host d location rangeValue)
  = last (ring_from host d location rangeValue).
Proof.
  rewrite ring_from_unfold.
  pose proof (vertices_from_length host d location rangeValue) as Hlen.
  pose proof (vertices_from_lookup host d location rangeValue 0) as H0.
  unfold numPoints in Hlen, H0. specialize (H0 ltac:(lia)).
  split.
  - rewrite length_app, Hlen. reflexivity.
  - rewrite last_snoc, head_lookup, lookup_app_l by lia. exact H0.
Qed.



(** X10. With a clock that does not run backwards, every entry the service
    has put in the cache was stored no earlier than its response was
    generated: the timestamp in the metadata of a cached response is at
    most the timestamp of its entry, from which the TTL is counted. *)
Theorem cached_response_is_not_younger_than_its_entry (host : Host)
    (calls : list (string * json)) (c0 d0 : nat) (key : string)
    (e : Entry.t) :
  (forall n m, (n <= m)%nat -> Date_now host n <= Date_now host m) ->
  cache (serve host calls
           {| cache := ∅; clock_reads := c0; random_draws := d0 |}).2
    !! key = Some e ->
  timestamp (metadata (Entry.data e)) <= Entry.timestamp e.
Proof.
  intros Hmono He.
  refine (serve_stamped host Hmono calls _ _ key e He).
  intros k e' Hk. cbn in Hk. rewrite lookup_empty in Hk. discriminate.
Qed.

Lemma cached_response_is_not_younger_than_its_entry_witness :
  timestamp (metadata (Entry.data Expiry.entry))
  <= Entry.timestamp Expiry.entry.
Proof.
  apply (cached_response_is_not_younger_than_its_entry Expiry.host
           [("/foot-walking", Scenario.body_m1);
            ("/foot-walking", Scenario.body_m1)] 0 0 Expiry.key).
  - intros n m H. cbn. lia.
  - vm_compute. reflexivity.
Defined.

Lemma negative_zero_is_another_number : (-0)%float <> 0%float.
Proof.
  intros H. apply (f_equal Prim2SF) in H. vm_compute in H. discriminate.
Qed.

(** X11. The key does not tell [-0] from [0] when the host prints both as
    the same text, as JavaScript does (["0"]).  A request for the location
    [(-0, y)] made within the TTL of an entry populated for [(0, y)], with
    the same range, is therefore answered with that entry: the body is the
    one of the first call, and the location it echoes is [(0, y)], which is
    not the location requested. *)
Theorem zero_sign_is_lost_in_the_key (host : Host) (transport : Transport)
    (y : float) (rng : list float) (rid1 rid2 : option string) (w0 : World) :
  Number_toString host (-0)%float = Number_toString host 0%float ->
  let request1 :=
    {| locations := [(0%float, y)]; range := rng; id := rid1 |} in
  let request2 :=
    {| locations := [((-0)%float, y)]; range := rng; id := rid2 |} in
  (getFromCache host (cacheKey host transport request1) w0).1 = None ->
  let first := handler host transport request1 w0 in
  Date_now host (clock_reads first.2)
  - Date_now host (clock_reads first.2 - 1) < CACHE_TTL ->
  let second := handler host transport request2 first.2 in
  cacheKey host transport request2 = cacheKey host transport request1 /\
  body second.1 = body first.1 /\
  exists d,
    body second.1 = Json_isochrones d /\
    query_locations (query (metadata d)) = [(0%float, y)] /\
    query_locations (query (metadata d)) <> locations request2.
Proof.
  intros Hzero request1 request2 Hmiss first Hage second.
  subst first second.
  assert (Hkey : cacheKey host transport request2
                 = cacheKey host transport request1).
  { subst request1 request2.
    unfold cacheKey, getCacheKey, JSON_locations.
    cbn [locations range map fst snd]. unfold JSON_number.
    replace (is_finite (-0)%float) with true by reflexivity.
    replace (is_finite 0%float) with true by reflexivity.
    rewrite Hzero. reflexivity. }
  split; [exact Hkey|].
  rewrite (handler_miss _ _ _ _ Hmiss) in Hage |- *. cbn [fst snd] in *.
  set (w1 := (getFromCache host (cacheKey host transport request1) w0).2) in *.
  set (gen := generateMockIsochrones host (locations request1)
                (range request1) (id request1) (Some transport) w1) in *.
  set (e := {| Entry.data := gen.1;
               Entry.timestamp := Date_now host (clock_reads gen.2) |}).
  assert (Hhit : handler host transport request2
                   (with_cache (<[cacheKey host transport request1 := e]>
                                  (cache gen.2)) (ticked gen.2))
                 = ({| status := 200; headers := [];
                       body := Json_isochrones (Entry.data e) |},
                    ticked (with_cache
                              (<[cacheKey host transport request1 := e]>
                                 (cache gen.2)) (ticked gen.2)))).
  { apply handler_hit.
    - rewrite Hkey. cbn [cache with_cache]. apply lookup_insert_eq.
    - cbn [clock_reads with_cache ticked Entry.timestamp e] in *.
      replace (S (clock_reads gen.2) - 1)%nat with (clock_reads gen.2) in Hage
        by lia.
      exact Hage. }
  rewrite Hhit. cbn [fst body Entry.data e].
  split; [reflexivity|]. exists gen.1. split; [reflexivity|].
  subst gen. rewrite generateMockIsochrones_run.
  cbn [fst metadata query query_locations locations request1 request2].
  split; [reflexivity|].
  intros H. apply negative_zero_is_another_number. symmetry.
  exact (f_equal (fun l : list Coordinate =>
                    match l with
                    | c :: _ => c.1
                    | [] => 0%float
                    end) H).
Qed.

Lemma zero_sign_is_lost_in_the_key_witness :
  let first :=
    handler Example.host foot_walking
      {| locations := [(0, 51.5)%float]; range := [500%float];
         id := Some "a" |}
      Example.empty_world in
  let second :=
    handler Example.host foot_walking
      {| locations := [(-0, 51.5)%float]; range := [500%float];
         id := Some "b" |}
      first.2 in
  body second.1 = body first.1.
Proof.
  refine (proj1 (proj2 (zero_sign_is_lost_in_the_key Example.host
                          foot_walking 51.5%float [500%float]
                          (Some "a") (Some "b") Example.empty_world
                          _ _ _))).
  - vm_compute. reflexivity.
  - vm_compute. reflexivity.
  - vm_compute. reflexivity.
Defined.

(** * More of the client *)

(** ** Fetching the isochrone of a marker ([createIsochroneQueryOptions]) *)

(** A configured marker ([ConfigItem]). *)
Module Config.
Record item :=
  { id : string; location : Coordinate; transport : Transport;
    range : float }.
End Config.

(** A number as the server reads it after [JSON.stringify] on the client
    and [JSON.parse] on the server: itself when it is finite, except that
    [-0] arrives as [0]; [null] when it is not finite. *)
Definition JSON_number_sent (x : float) : json :=
  if is_finite x then JNumber (if (x =? 0)%float then 0%float else x)
  else JNull.

(** The body [{ locations: [item.location], range: [item.range],
    id: item.id }] as the server reads it. *)
Definition query_json (item : Config.item) : json :=
  JObject
    [("locations",
      JArray [JArray [JSON_number_sent (Config.location item).1;
                      JSON_number_sent (Config.location item).2]]);
     ("range", JArray [JSON_number_sent (Config.range item)]);
     ("id", JString (Config.id item))].

(** [s] without the prefix [p], when it begins with it. *)
Fixpoint strip_prefix (p s : string) : option string :=
  match p, s with
  | EmptyString, _ => Some s
  | String a p', String b s' =>
      if Ascii.eqb a b then strip_prefix p' s' else None
  | String _ _, EmptyString => None
  end.

Section Fetch.

Variable host : Host.

(** [app.use("*", logger())]: the logger of hono runs around every
    request.  It reads the clock once before the handlers
    ([const start = Date.now()]) and once after them
    ([Date.now() - start]); the lines it prints are not part of the
    world. *)
Definition logger {A} (next : State A) : State A :=
  let* start := now host in
  let* response := next in
  let* finish := now host in
  ret response.

(** A POST to the application of [app.ts]: the isochrone routes are
    mounted under [/api/isochrones]; no other path takes a POST. *)
Definition app_post (path : string) (payload : json) : State HttpResponse :=
  logger
    match strip_prefix "/api/isochrones" path with
    | Some rest => isochronesRoute host rest payload
    | None =>
        ret {| status := 404; headers := []; body := Text "404 Not Found" |}
    end.

(** [response.ok] *)
Definition response_ok (r : HttpResponse) : bool :=
  (200 <=? status r)%nat && (status r <? 300)%nat.

(** The [queryFn] of a marker: it returns the parsed body of the answer,
    and throws when the answer is not ok.  (An ok answer of the server
    always has an isochrone body.) *)
Definition queryFn (item : Config.item) : State (Exc IsochronesResponse) :=
  let* response :=
    app_post
      ("/api/isochrones/" +:+ transport_name (Config.transport item))
      (query_json item) in
  ret (if response_ok response then
         match body response with
         | Json_isochrones d => Returns d
         | _ => Throws
         end
       else Throws).

End Fetch.

(** A marker the server accepts: finite coordinates and a finite, positive
    range. *)
Definition valid_item (item : Config.item) : Prop :=
  is_finite (Config.location item).1 = true /\
  is_finite (Config.location item).2 = true /\
  is_finite (Config.range item) = true /\
  (0 <? Config.range item)%float = true.

(** The request the server reads from the body sent for a marker. *)
Definition request_of (item : Config.item) : IsochronesRequest :=
  {| locations :=
       [(if ((Config.location item).1 =? 0)%float then 0%float
         else (Config.location item).1,
         if ((Config.location item).2 =? 0)%float then 0%float
         else (Config.location item).2)];
     range := [Config.range item];
     id := Some (Config.id item) |}.

Lemma positive_is_not_zero (x : float) :
  (0 <? x)%float = true -> (x =? 0)%float = false.
Proof.
  rewrite FloatAxioms.ltb_spec, FloatAxioms.eqb_spec.
  replace (Prim2SF 0%float) with (S754_zero false) by reflexivity.
  destruct (Prim2SF x) as [s|s| |s m e]; try destruct s; cbn; congruence.
Qed.

Lemma sent_zero_is_finite (x : float) :
  is_finite x = true ->
  is_finite (if (x =? 0)%float then 0%float else x) = true.
Proof. intros Hx. destruct (x =? 0)%float; [reflexivity | exact Hx]. Qed.

Lemma query_json_schema item :
  valid_item item ->
  IsochronesRequestSchema (query_json item) = Some (request_of item).
Proof.
  intros (Hx & Hy & Hr & Hpos).
  unfold IsochronesRequestSchema, query_json, request_of.
  cbn [property String.eqb Ascii.eqb Bool.eqb required optional z_string].
  unfold JSON_number_sent. rewrite Hx, Hy, Hr.
  rewrite (positive_is_not_zero _ Hpos).
  unfold z_array_nonempty, z_array. cbn [z_items].
  unfold CoordinateSchema, z_number_positive, z_number.
  rewrite !sent_zero_is_finite by assumption. rewrite Hr, Hpos.
  reflexivity.
Qed.

Lemma app_post_route host t payload :
  app_post host ("/api/isochrones/" +:+ transport_name t) payload
  = logger host (post host t payload).
Proof. destruct t; reflexivity. Qed.

(** A request behind the logger: the handlers run after one reading of the
    clock, and one more reading follows them. *)
Lemma logger_run {A} host (next : State A) w :
  logger host next w = ((next (ticked w)).1, ticked (next (ticked w)).2).
Proof.
  unfold logger. rewrite bind_run, now_run. cbn [fst snd].
  rewrite bind_run, bind_run, now_run. reflexivity.
Qed.

Lemma ticked_generated host w :
  entries_generated host w -> entries_generated host (ticked w).
Proof. intros Hgen key e Hkey. exact (Hgen key e Hkey). Qed.

Lemma request_of_valid item : valid_item item -> valid_request (request_of item).
Proof.
  intros (Hx & Hy & Hr & Hpos). unfold valid_request, request_of.
  cbn [locations range]. split; [discriminate|]. split; [discriminate|].
  split; repeat constructor; cbn [fst snd];
    try apply sent_zero_is_finite; assumption.
Qed.

(** What a successful fetch returns was generated, at some time, for one
    location and for the range and the transport of the marker. *)
Lemma queryFn_generated (host : Host) (calls : list (string * json))
    (c0 d0 : nat) (item : Config.item) :
  number_text host -> valid_item item ->
  exists d loc rid w0,
    (queryFn host item
       (serve host calls
          {| cache := ∅; clock_reads := c0; random_draws := d0 |}).2).1
    = Returns d /\
    d = (generateMockIsochrones host [loc] [Config.range item] rid
           (Some (Config.transport item)) w0).1.
Proof.
  intros text Hitem. unfold queryFn. rewrite bind_run.
  rewrite app_post_route, logger_run. unfold post.
  rewrite (query_json_schema _ Hitem).
  pose proof (request_of_valid _ Hitem) as Hvalid.
  destruct (handler_generated host (Config.transport item) (request_of item)
              (ticked
                 (serve host calls
                    {| cache := ∅; clock_reads := c0; random_draws := d0 |}).2)
              Hvalid)
    as (_ & d & Hd & Hstatus & t' & request' & w0 & Hvalid' & Hkey & Hgen).
  { apply ticked_generated, serve_generated, empty_cache_generated. }
  destruct (cacheKey_shape host text _ _ _ _ Hvalid Hvalid' Hkey)
    as (<- & Hlen & Hrng).
  cbn [locations range request_of length] in Hlen, Hrng.
  destruct (locations request') as [|loc [|loc2 locs]] eqn:Hlocs;
    try discriminate.
  exists d, loc, (id request'), w0. split.
  - cbn [ret fst]. unfold response_ok. rewrite Hstatus, Hd. reflexivity.
  - rewrite Hgen, <- Hrng. reflexivity.
Qed.

(** X12. Whatever the server has served before, the fetch of a marker with
    finite coordinates and a finite, positive range succeeds, and what it
    returns has exactly one feature: of [group_index] 0, of the range of
    the marker, with a single closed ring of 13 coordinates, centred on the
    one location that the response echoes; and the response names the
    transport of the marker. *)
Theorem fetch_of_a_valid_marker_succeeds (host : Host)
    (calls : list (string * json)) (c0 d0 : nat) (item : Config.item) :
  number_text host -> valid_item item ->
  let w :=
    (serve host calls
       {| cache := ∅; clock_reads := c0; random_draws := d0 |}).2 in
  exists d f ring,
    (queryFn host item w).1 = Returns d /\
    features d = [f] /\
    group_index (properties f) = 0%nat /\
    value (properties f) = Config.range item /\
    coordinates (geometry f) = [ring] /\
    length ring = 13%nat /\ head ring = last ring /\
    query_transport (query (metadata d)) = Some (Config.transport item) /\
    query_locations (query (metadata d)) = [center (properties f)].
Proof.
  intros text Hitem w. subst w.
  destruct (queryFn_generated host calls c0 d0 item text Hitem)
    as (d & loc & rid & w0 & Hfetch & ->).
  rewrite generateMockIsochrones_run in Hfetch. cbn [fst] in Hfetch.
  eexists _, _, _. split; [exact Hfetch|].
  cbn [features all_features location_features app metadata query
       query_transport query_locations].
  split; [reflexivity|].
  cbn [feature_from properties geometry coordinates group_index value center].
  repeat split; try reflexivity; apply ring_from_closed.
Qed.

Module Markers.

Definition walker : Config.item :=
  {| Config.id := "m1"; Config.location := Example.london;
     Config.transport := foot_walking; Config.range := 500%float |}.

Definition driver : Config.item :=
  {| Config.id := "m2"; Config.location := (2.35, 48.85)%float;
     Config.transport := driving_car; Config.range := 1000%float |}.

(** A marker as the form leaves it when the range was never chosen. *)
Definition rangeless : Config.item :=
  {| Config.id := "m3"; Config.location := Example.london;
     Config.transport := cycling_regular; Config.range := 0%float |}.

End Markers.

Lemma walker_is_valid : valid_item Markers.walker.
Proof. split; [|split; [|split]]; vm_compute; reflexivity. Qed.

Lemma fetch_of_a_valid_marker_succeeds_witness :
  let w :=
    (serve Example.host [("/foot-walking", Scenario.body_m1)]
       Example.empty_world).2 in
  exists d f,
    (queryFn Example.host Markers.walker w).1 = Returns d /\
    features d = [f] /\
    value (properties f) = 500%float /\
    query_transport (query (metadata d)) = Some foot_walking.
Proof.
  destruct (fetch_of_a_valid_marker_succeeds Example.host
              [("/foot-walking", Scenario.body_m1)] 0 0 Markers.walker
              example_number_text walker_is_valid)
    as (d & f & ring & Hd & Hf & _ & Hv & _ & _ & _ & Ht & _).
  exists d, f. split; [exact Hd|]. split; [exact Hf|].
  split; [exact Hv | exact Ht].
Defined.

Lemma z_number_sent (x : float) :
  z_number (JSON_number_sent x)
  = if is_finite x then Some (if (x =? 0)%float then 0%float else x)
    else None.
Proof.
  unfold JSON_number_sent. destruct (is_finite x) eqn:Hx; [|reflexivity].
  cbn [z_number]. rewrite (sent_zero_is_finite x Hx). reflexivity.
Qed.

Lemma z_number_positive_sent_bad (x : float) :
  (x <=? 0)%float = true \/ is_finite x = false ->
  z_number_positive (JSON_number_sent x) = None.
Proof.
  intros Hbad. unfold z_number_positive. rewrite z_number_sent.
  destruct (is_finite x); [|reflexivity].
  destruct Hbad as [Hle|Hfin]; [|discriminate].
  destruct (x =? 0)%float; [reflexivity|].
  rewrite (nonpositive_not_positive x Hle). reflexivity.
Qed.

(** The server refuses the body sent for a marker whose range is zero or
    negative, or one of whose numbers is not finite. *)
Lemma query_json_rejected (item : Config.item) :
  (Config.range item <=? 0)%float = true \/
  is_finite (Config.range item) = false \/
  is_finite (Config.location item).1 = false \/
  is_finite (Config.location item).2 = false ->
  IsochronesRequestSchema (query_json item) = None.
Proof.
  intros Hbad. unfold IsochronesRequestSchema, query_json.
  cbn [property String.eqb Ascii.eqb Bool.eqb required optional z_string].
  unfold z_array_nonempty, z_array. cbn [z_items].
  destruct Hbad as [Hr|[Hr|[Hx|Hy]]].
  - rewrite (z_number_positive_sent_bad (Config.range item)) by (left; exact Hr).
    destruct (CoordinateSchema _); reflexivity.
  - rewrite (z_number_positive_sent_bad (Config.range item))
      by (right; exact Hr).
    destruct (CoordinateSchema _); reflexivity.
  - unfold CoordinateSchema. rewrite !z_number_sent, Hx. reflexivity.
  - unfold CoordinateSchema. rewrite !z_number_sent.
    destruct (is_finite (Config.location item).1); rewrite ?Hy; reflexivity.
Qed.

(** X13. The fetch of a marker whose range is zero or negative, or one of
    whose numbers is not finite, throws: the server answers 400.  Its
    cache and its use of the random source do not change; the clock is
    read twice, by the logger of the application. *)
Theorem fetch_of_an_invalid_marker_throws (host : Host) (item : Config.item)
    (w : World) :
  (Config.range item <=? 0)%float = true \/
  is_finite (Config.range item) = false \/
  is_finite (Config.location item).1 = false \/
  is_finite (Config.location item).2 = false ->
  (queryFn host item w).1 = Throws /\
  (app_post host
     ("/api/isochrones/" +:+ transport_name (Config.transport item))
     (query_json item) w).1.(status) = 400%nat /\
  cache (queryFn host item w).2 = cache w /\
  random_draws (queryFn host item w).2 = random_draws w /\
  clock_reads (queryFn host item w).2 = (clock_reads w + 2)%nat.
Proof.
  intros Hbad. unfold queryFn. rewrite bind_run, app_post_route, logger_run.
  unfold post. rewrite (query_json_rejected item Hbad).
  cbn [ret fst snd status response_ok ticked cache random_draws clock_reads].
  repeat split; try reflexivity. lia.
Qed.

Lemma fetch_of_an_invalid_marker_throws_witness :
  (queryFn Example.host Markers.rangeless Example.empty_world).1 = Throws /\
  clock_reads (queryFn Example.host Markers.rangeless Example.empty_world).2
  = 2%nat.
Proof.
  destruct (fetch_of_an_invalid_marker_throws Example.host Markers.rangeless
              Example.empty_world)
    as (Hthrows & _ & _ & _ & Hclock).
  { left. vm_compute. reflexivity. }
  split; [exact Hthrows | exact Hclock].
Defined.

(** ** The isochrone layers ([useGeoJson]) *)

(** A [MapGeoJson] whose [data] is a feature of a response, as [useGeoJson]
    makes them. *)
Module Layer.
Record t := { key : string; data : Feature; style : PathOptions }.
End Layer.

Definition transportColors (t : Transport) : string :=
  match t with
  | driving_car => "#3b82f6"
  | foot_walking => "#10b981"
  | cycling_regular => "#f59e0b"
  end.

(** [arr.forEach(x => ...)] where the body updates an accumulator and may
    throw. *)
Fixpoint exc_forEach {A Acc} (arr : list A) (body : A -> Acc -> Exc Acc)
    (acc : Acc) : Exc Acc :=
  match arr with
  | [] => Returns acc
  | x :: rest => exc_bind (body x acc) (exc_forEach rest body)
  end.

Section GeoJson.

Variable host : Host.

(** The callback of [results.forEach] in the [combine] of [useGeoJson].
    [features?.[0]] is absent for a response without features, and the
    transport may be absent; the locations of the echoed query are an
    array, whose first element is read for the key. *)
Definition geojson_of_result (result : Query.result)
    (layers : list Layer.t) : Exc (list Layer.t) :=
  match Query.data result with
  | None => Returns layers
  | Some d =>
      match features d !! 0%nat, query_transport (query (metadata d)) with
      | Some feature, Some transport =>
          (let? first := at_index (query_locations (query (metadata d))) 0 in
           Returns
             (layers ++
              [{| Layer.key := "geojson-" +:+ join_position host first;
                  Layer.data := feature;
                  Layer.style :=
                    {| color := transportColors transport;
                       weight := 1%float; opacity := 1%float;
                       fillOpacity := 0.25%float |} |}]))%exc
      | _, _ => Returns layers
      end
  end.

(** The [combine] callback of [useGeoJson], whose value the hook returns. *)
Definition useGeoJson (results : list Query.result) : Exc (list Layer.t) :=
  exc_forEach results geojson_of_result [].

Lemma useGeoJson_loop results :
  forall layers out,
    exc_forEach results geojson_of_result layers = Returns out ->
    exists new,
      out = layers ++ new /\
      (length new <= length (List.filter has_data results))%nat /\
      Forall (fun layer =>
                exists r d,
                  r ∈ results /\ Query.data r = Some d /\
                  features d !! 0%nat = Some (Layer.data layer))
             new.
Proof.
  induction results as [|r results IH]; intros layers out Hout;
    cbn [exc_forEach] in Hout.
  - inversion Hout; subst. exists []. rewrite app_nil_r.
    split; [reflexivity|]. split; [cbn; lia | constructor].
  - unfold geojson_of_result in Hout at 1. cbn [List.filter].
    unfold has_data at 1.
    destruct (Query.data r) as [d|] eqn:Hd; cbn [exc_bind] in Hout.
    + assert (Hstep : forall mid,
                 exc_forEach results geojson_of_result mid = Returns out ->
                 (mid = layers \/
                  exists layer,
                    mid = layers ++ [layer] /\
                    features d !! 0%nat = Some (Layer.data layer)) ->
                 exists new,
                   out = layers ++ new /\
                   (length new
                    <= length (r :: List.filter has_data results))%nat /\
                   Forall (fun layer =>
                             exists r' d',
                               r' ∈ r :: results /\
                               Query.data r' = Some d' /\
                               features d' !! 0%nat = Some (Layer.data layer))
                          new).
      { intros mid Hmid Hcase.
        destruct (IH _ _ Hmid) as (new & -> & Hlen & Hall).
        assert (Hall' : Forall (fun layer =>
                                  exists r' d',
                                    r' ∈ r :: results /\
                                    Query.data r' = Some d' /\
                                    features d' !! 0%nat
                                    = Some (Layer.data layer)) new).
        { eapply Forall_impl; [exact Hall|].
          intros layer (r' & d' & Hin & Hd' & Hf).
          exists r', d'. split; [right; exact Hin | auto]. }
        destruct Hcase as [->|(layer & -> & Hf)].
        - exists new. split; [reflexivity|]. split; [cbn; lia | exact Hall'].
        - exists (layer :: new). rewrite <- app_assoc.
          split; [reflexivity|]. split; [cbn; lia|].
          constructor; [|exact Hall'].
          exists r, d. split; [left | auto]. }
      destruct (features d !! 0%nat) as [f|] eqn:Hf;
        [|apply (Hstep layers Hout); left; reflexivity].
      destruct (query_transport (query (metadata d)));
        [|apply (Hstep layers Hout); left; reflexivity].
      destruct (at_index (query_locations (query (metadata d))) 0);
        cbn [exc_bind] in Hout; [|discriminate].
      apply (Hstep _ Hout). right. eexists. split; reflexivity.
    + destruct (IH _ _ Hout) as (new & -> & Hlen & Hall).
      exists new. split; [reflexivity|]. split; [exact Hlen|].
      eapply Forall_impl; [exact Hall|].
      intros layer (r' & d' & Hin & Hd' & Hf').
      exists r', d'. split; [right; exact Hin | auto].
Qed.

Lemma useGeoJson_loop_filter results :
  forall layers,
    exc_forEach (List.filter has_data results) geojson_of_result layers
    = exc_forEach results geojson_of_result layers.
Proof.
  induction results as [|r results IH]; intros layers;
    cbn [List.filter exc_forEach]; [reflexivity|].
  unfold has_data at 1. destruct (Query.data r) as [d|] eqn:Hd.
  - cbn [exc_forEach]. apply exc_bind_ext. exact IH.
  - unfold geojson_of_result at 2. rewrite Hd. cbn [exc_bind]. apply IH.
Qed.

(** X14. The isochrone layers, too, are made from the results as they
    are: a result without data is skipped, so that the layers are those of
    the results that have data; there is at most one layer for each of
    these, and the data of a layer is the first feature of the response of
    one of the results. *)
Theorem isochrone_layers_come_from_the_results_that_have_data
    (results : list Query.result) :
  useGeoJson results = useGeoJson (List.filter has_data results) /\
  forall layers,
    useGeoJson results = Returns layers ->
    (length layers <= length (List.filter has_data results))%nat /\
    forall layer,
      layer ∈ layers ->
      exists r d,
        r ∈ results /\ Query.data r = Some d /\
        features d !! 0%nat = Some (Layer.data layer).
Proof.
  split; [unfold useGeoJson; rewrite useGeoJson_loop_filter; reflexivity|].
  intros layers Hout.
  destruct (useGeoJson_loop results [] layers Hout) as (new & -> & Hlen & Hall).
  cbn [app]. split; [exact Hlen|].
  intros layer Hin. rewrite Forall_forall in Hall. apply Hall, Hin.
Qed.

End GeoJson.

(** ** Fetched markers on the map *)

(** The result of the query of a marker once its fetch has succeeded, at
    any time in the life of the server. *)
Definition fetched (host : Host) (item : Config.item) (r : Query.result)
    : Prop :=
  exists calls c0 d0 d,
    (queryFn host item
       (serve host calls
          {| cache := ∅; clock_reads := c0; random_draws := d0 |}).2).1
    = Returns d /\
    r = {| Query.status := success; Query.data := Some d |}.

Lemma fetched_generated host item r :
  number_text host -> valid_item item -> fetched host item r ->
  exists loc rid w0,
    Query.data r
    = Some (generateMockIsochrones host [loc] [Config.range item] rid
              (Some (Config.transport item)) w0).1.
Proof.
  intros text Hitem (calls & c0 & d0 & d & Hfetch & ->).
  destruct (queryFn_generated host calls c0 d0 item text Hitem)
    as (d' & loc & rid & w0 & Hfetch' & ->).
  rewrite Hfetch in Hfetch'. inversion Hfetch'; subst.
  exists loc, rid, w0. reflexivity.
Qed.

(** X15. For markers that the server accepts and whose fetches have
    succeeded, [useGeoJson] gives one layer for each marker, in the order
    of the markers: drawn in the colour of the transport of the marker,
    and holding the one feature fetched for it, of the range of the
    marker. *)
Theorem layers_follow_the_markers (host : Host) (items : list Config.item)
    (results : list Query.result) :
  number_text host ->
  Forall2 (fun item r => valid_item item /\ fetched host item r)
          items results ->
  exists layers,
    useGeoJson host results = Returns layers /\
    Forall2 (fun item layer =>
               color (Layer.style layer)
               = transportColors (Config.transport item) /\
               value (properties (Layer.data layer)) = Config.range item)
            items layers /\
    Forall2 (fun r layer =>
               exists d, Query.data r = Some d /\
                         features d = [Layer.data layer])
            results layers.
Proof.
  intros text Hall. unfold useGeoJson.
  assert (Hgen : forall acc,
             exists layers,
               exc_forEach results (geojson_of_result host) acc
               = Returns (acc ++ layers) /\
               Forall2 (fun item layer =>
                          color (Layer.style layer)
                          = transportColors (Config.transport item) /\
                          value (properties (Layer.data layer))
                          = Config.range item)
                       items layers /\
               Forall2 (fun r layer =>
                          exists d, Query.data r = Some d /\
                                    features d = [Layer.data layer])
                       results layers).
  { induction Hall as [|item r items results [Hitem Hr] Hall IH]; intros acc.
    - exists []. rewrite app_nil_r. repeat split; constructor.
    - destruct (fetched_generated host item r text Hitem Hr)
        as (loc & rid & w0 & Hd).
      cbn [exc_forEach]. unfold geojson_of_result at 1. rewrite Hd.
      rewrite generateMockIsochrones_run.
      cbn [fst features all_features location_features app lookup list_lookup
           metadata query query_transport query_locations at_index exc_bind].
      destruct (IH (acc ++
                    [{| Layer.key := "geojson-" +:+ join_position host loc;
                        Layer.data :=
                          feature_from host (random_draws w0) 0 loc
                            (Config.range item);
                        Layer.style :=
                          {| color := transportColors (Config.transport item);
                             weight := 1%float; opacity := 1%float;
                             fillOpacity := 0.25%float |} |}]))
        as (layers & Hrun & Hitems & Hresults).
      eexists (_ :: layers). split; [|split].
      + rewrite Hrun, <- app_assoc. reflexivity.
      + constructor; [split; reflexivity | exact Hitems].
      + constructor; [|exact Hresults].
        eexists. split; [exact Hd|].
        rewrite generateMockIsochrones_run. reflexivity. }
  destruct (Hgen []) as (layers & Hrun & H1 & H2).
  exists layers. auto.
Qed.

(** X16. Markers that the server accepts and whose fetches have succeeded
    are what the overlap pass expects: each result holds a single closed
    ring of 13 coordinates, so that reading the results never throws, and
    the pass returns the intersections of all the pairs of these rings
    whenever turf returns on them. *)
Theorem fetched_markers_feed_the_overlap_pass (host : Host)
    (turf_intersect : list Ring -> list Ring -> Exc (option TurfFeature))
    (items : list Config.item) (results : list Query.result) :
  number_text host ->
  Forall2 (fun item r => valid_item item /\ fetched host item r)
          items results ->
  exists rings,
    Forall2 holds_polygon results rings /\
    Forall (fun ring => length ring = 13%nat /\ head ring = last ring)
           rings /\
    ((forall i j p q,
        (i < j)%nat -> rings !! i = Some p -> rings !! j = Some q ->
        turf_intersect [p] [q] <> Throws) ->
     exists out,
       combine host turf_intersect results = Returns out /\
       map MapGeoJson.data out = pairwiseIntersections turf_intersect rings).
Proof.
  intros text Hall.
  assert (Hrings : exists rings,
             Forall2 holds_polygon results rings /\
             Forall (fun ring => length ring = 13%nat /\
                                 head ring = last ring) rings).
  { induction Hall as [|item r items results [Hitem Hr] Hall IH].
    - exists []. split; constructor.
    - destruct IH as (rings & Hholds & Hclosed).
      destruct (fetched_generated host item r text Hitem Hr)
        as (loc & rid & w0 & Hd).
      rewrite generateMockIsochrones_run in Hd. cbn [fst] in Hd.
      exists (ring_from host (random_draws w0) loc (Config.range item)
                :: rings).
      split; constructor; try assumption; [|apply ring_from_closed].
      eexists _, _. split; [exact Hd|]. split; [reflexivity|].
      split; [reflexivity|].
      pose proof (ring_from_closed host (random_draws w0) loc
                    (Config.range item)) as [Hlen _].
      intros Hnil. rewrite Hnil in Hlen. discriminate. }
  destruct Hrings as (rings & Hholds & Hclosed).
  exists rings. split; [exact Hholds|]. split; [exact Hclosed|].
  intros Hturf.
  destruct (pass_polygons host turf_intersect results rings Hholds [] Hturf)
    as (out & Hpass & Hout).
  exists out. rewrite combine_pass, <- all_overlaps_pairwise.
  split; [exact Hpass | exact Hout].
Qed.

Module Fetched.

(** The result of the query of a marker fetched from a server that has
    served nothing yet. *)
Definition result_of (item : Config.item) : Query.result :=
  match (queryFn Example.host item Example.empty_world).1 with
  | Returns d => {| Query.status := success; Query.data := Some d |}
  | Throws => {| Query.status := error; Query.data := None |}
  end.

End Fetched.

Lemma driver_is_valid : valid_item Markers.driver.
Proof. split; [|split; [|split]]; vm_compute; reflexivity. Qed.

Lemma result_of_fetched (item : Config.item) :
  valid_item item -> fetched Example.host item (Fetched.result_of item).
Proof.
  intros Hitem.
  destruct (queryFn_generated Example.host [] 0 0 item example_number_text
              Hitem) as (d & _ & _ & _ & Hd & _).
  exists [], 0%nat, 0%nat, d. split; [exact Hd|].
  unfold Fetched.result_of.
  change Example.empty_world
    with (serve Example.host []
            {| cache := ∅; clock_reads := 0; random_draws := 0 |}).2.
  rewrite Hd. reflexivity.
Qed.

Lemma walker_and_driver_fetched :
  Forall2 (fun item r => valid_item item /\ fetched Example.host item r)
          [Markers.walker; Markers.driver]
          [Fetched.result_of Markers.walker;
           Fetched.result_of Markers.driver].
Proof.
  repeat constructor;
    auto using walker_is_valid, driver_is_valid, result_of_fetched.
Qed.

Lemma layers_follow_the_markers_witness :
  exists layers,
    useGeoJson Example.host
      [Fetched.result_of Markers.walker; Fetched.result_of Markers.driver]
    = Returns layers /\
    map (fun layer => color (Layer.style layer)) layers
    = [transportColors foot_walking; transportColors driving_car] /\
    map (fun layer => value (properties (Layer.data layer))) layers
    = [500%float; 1000%float].
Proof.
  destruct (layers_follow_the_markers Example.host
              [Markers.walker; Markers.driver]
              [Fetched.result_of Markers.walker;
               Fetched.result_of Markers.driver]
              example_number_text walker_and_driver_fetched)
    as (layers & Hrun & Hitems & _).
  exists layers. split; [exact Hrun|].
  inversion Hitems as [|? l1 ? rest1 [Hc1 Hv1] Hrest]; subst.
  inversion Hrest as [|? l2 ? rest2 [Hc2 Hv2] Hnil]; subst.
  inversion Hnil; subst. cbn [map].
  rewrite Hc1, Hc2, Hv1, Hv2. split; reflexivity.
Defined.

Lemma fetched_markers_feed_the_overlap_pass_witness :
  exists rings out,
    Forall2 holds_polygon
      [Fetched.result_of Markers.walker; Fetched.result_of Markers.driver]
      rings /\
    combine Example.host Squares.intersect
      [Fetched.result_of Markers.walker; Fetched.result_of Markers.driver]
    = Returns out /\
    map MapGeoJson.data out
    = pairwiseIntersections Squares.intersect rings.
Proof.
  destruct (fetched_markers_feed_the_overlap_pass Example.host
              Squares.intersect
              [Markers.walker; Markers.driver]
              [Fetched.result_of Markers.walker;
               Fetched.result_of Markers.driver]
              example_number_text walker_and_driver_fetched)
    as (rings & Hholds & _ & Hpass).
  destruct Hpass as (out & Hrun & Hout).
  { intros i j p q _ _ _. cbn [Squares.intersect]. discriminate. }
  exists rings, out. auto.
Defined.

(** ** The overlap pass at its edges *)

Section OverlapEdges.

Variable host : Host.
Variable turf_intersect :
  list Ring -> list Ring -> Exc (option TurfFeature).

Lemma filter_has_data_elem (results : list Query.result) r :
  r ∈ results -> has_data r = true ->
  (1 <= length (List.filter has_data results))%nat.
Proof.
  intros Hin Hdata.
  assert (Hfiltered : In r (List.filter has_data results)).
  { apply List.filter_In. split; [apply list_elem_of_In, Hin | exact Hdata]. }
  destruct (List.filter has_data results); [destruct Hfiltered | cbn; lia].
Qed.

(** X17. With fewer than two results that have data there is no pair to
    intersect: the overlap pass returns no region and does not throw,
    whatever the data of the one result holds and whatever turf would
    do. *)
Theorem overlap_pass_needs_two_results_with_data
    (results : list Query.result) :
  (length (List.filter has_data results) <= 1)%nat ->
  combine host turf_intersect results = Returns [].
Proof.
  intros Hfew. rewrite combine_pass, <- pass_filter.
  destruct (List.filter has_data results) as [|r [|r' rest]].
  - reflexivity.
  - cbn [pass pass_with]. destruct (Query.data r); reflexivity.
  - cbn [length] in Hfew. lia.
Qed.

(** The inner loop throws when it meets a response without features, on
    either side of a pair. *)
Lemma pass_with_throws dataI rest :
  forall intersections,
    (features dataI = [] /\ exists r, r ∈ rest /\ has_data r = true) \/
    (exists r d, r ∈ rest /\ Query.data r = Some d /\ features d = []) ->
    pass_with host turf_intersect dataI rest intersections = Throws.
Proof.
  induction rest as [|r rest IH]; intros acc Hbad.
  - destruct Hbad as [(_ & r & Hin & _) | (r & d & Hin & _)];
      inversion Hin.
  - cbn [pass_with]. destruct (Query.data r) as [dataJ|] eqn:Hdata.
    + unfold intersect_pair, at_index.
      destruct (features dataI) as [|featureI restI] eqn:HfeaturesI;
        [reflexivity|].
      destruct (features dataJ) as [|featureJ restJ] eqn:HfeaturesJ;
        [reflexivity|].
      fold (@at_index Ring) (@at_index Coordinate).
      match goal with
      | |- exc_bind ?m _ = _ => destruct m as [acc'|]; [|reflexivity]
      end.
      cbn [exc_bind]. apply IH.
      destruct Hbad as [(Hnil & _) | (r' & d & Hin & Hd & Hnil)];
        [discriminate|].
      right. apply elem_of_cons in Hin as [->|Hin].
      * rewrite Hdata in Hd. inversion Hd; subst.
        rewrite HfeaturesJ in Hnil. discriminate.
      * exists r', d. auto.
    + apply IH.
      destruct Hbad as [(Hnil & r' & Hin & Hhas) | (r' & d & Hin & Hd & Hnil)].
      * left. split; [exact Hnil|]. exists r'. split; [|exact Hhas].
        apply elem_of_cons in Hin as [->|Hin]; [|exact Hin].
        unfold has_data in Hhas. rewrite Hdata in Hhas. discriminate.
      * right. exists r', d.
        apply elem_of_cons in Hin as [->|Hin]; [|auto].
        rewrite Hdata in Hd. discriminate.
Qed.

Lemma pass_throws results :
  forall intersections,
    (exists bad d, bad ∈ results /\ Query.data bad = Some d /\
                   features d = []) ->
    (2 <= length (List.filter has_data results))%nat ->
    pass host turf_intersect results intersections = Throws.
Proof.
  induction results as [|r results IH];
    intros acc (bad & d & Hin & Hd & Hnil) Htwo.
  - inversion Hin.
  - cbn [pass]. cbn [List.filter] in Htwo. unfold has_data at 1 in Htwo.
    destruct (Query.data r) as [dataI|] eqn:Hdata.
    + rewrite pass_with_throws; [reflexivity|].
      cbn [length] in Htwo.
      apply elem_of_cons in Hin as [->|Hin].
      * left. rewrite Hdata in Hd. inversion Hd; subst.
        split; [exact Hnil|].
        destruct (List.filter has_data results) as [|r' rest] eqn:Hfilter;
          [cbn in Htwo; lia|].
        assert (Hr' : In r' (List.filter has_data results))
          by (rewrite Hfilter; left; reflexivity).
        apply List.filter_In in Hr' as [Hr' Hhas].
        exists r'. split; [apply list_elem_of_In, Hr' | exact Hhas].
      * right. exists bad, d. auto.
    + apply IH; [|exact Htwo].
      exists bad, d. split; [|auto].
      apply elem_of_cons in Hin as [->|Hin]; [|exact Hin].
      rewrite Hdata in Hd. discriminate.
Qed.

Lemma exc_forEach_skip {A B} (body : A -> B -> Exc B) (before after : list A)
    (x : A) :
  (forall acc, body x acc = Returns acc) ->
  forall acc,
    exc_forEach (before ++ x :: after) body acc
    = exc_forEach (before ++ after) body acc.
Proof.
  intros Hskip. induction before as [|y before IH]; intros acc;
    cbn [app exc_forEach].
  - rewrite Hskip. reflexivity.
  - apply exc_bind_ext, IH.
Qed.

(** X18. A response that holds no feature is treated differently by the
    two hooks: [useGeoJson] guards the read and draws the other layers as
    if the result were not there, while the overlap pass reads
    [features[0].geometry] unguarded and throws as soon as any other
    result has data, whatever the other results hold and wherever the
    response stands. *)
Theorem response_without_features_breaks_the_overlap_pass
    (before after : list Query.result) (bad : Query.result)
    (d : IsochronesResponse) :
  Query.data bad = Some d ->
  features d = [] ->
  useGeoJson host (before ++ bad :: after)
  = useGeoJson host (before ++ after) /\
  forall other,
    other ∈ before ++ after -> has_data other = true ->
    combine host turf_intersect (before ++ bad :: after) = Throws.
Proof.
  intros Hd Hnil. split.
  - unfold useGeoJson. apply exc_forEach_skip. intros acc.
    unfold geojson_of_result. rewrite Hd, Hnil. reflexivity.
  - intros other Hin Hhas. rewrite combine_pass. apply pass_throws.
    + exists bad, d. split; [|auto].
      apply elem_of_app. right. left.
    + pose proof (filter_has_data_elem _ _ Hin Hhas) as Hone.
      rewrite List.filter_app in Hone. rewrite List.filter_app.
      cbn [List.filter]. unfold has_data at 2. rewrite Hd.
      rewrite length_app in *. cbn [length]. lia.
Qed.

End OverlapEdges.

Module Featureless.

(** A response that holds no feature, as no request the server accepts
    gives one. *)
Definition response : IsochronesResponse :=
  {| bbox := world_bbox;
     features := [];
     metadata := metadata (Squares.response_of Squares.unit_square) |}.

Definition result : Query.result :=
  {| Query.status := success; Query.data := Some response |}.

(** A turf that throws on every pair. *)
Definition refuse (a b : list Ring) : Exc (option TurfFeature) := Throws.

End Featureless.

Lemma overlap_pass_needs_two_results_with_data_witness :
  combine Example.host Featureless.refuse
    [Squares.waiting; Featureless.result; Squares.waiting]
  = Returns [].
Proof.
  apply (overlap_pass_needs_two_results_with_data Example.host
           Featureless.refuse
           [Squares.waiting; Featureless.result; Squares.waiting]).
  cbn. lia.
Defined.

Lemma response_without_features_breaks_the_overlap_pass_witness :
  useGeoJson Example.host
    [Squares.fetched Squares.unit_square; Featureless.result]
  = useGeoJson Example.host [Squares.fetched Squares.unit_square] /\
  combine Example.host Squares.intersect
    [Squares.fetched Squares.unit_square; Featureless.result]
  = Throws.
Proof.
  destruct (response_without_features_breaks_the_overlap_pass Example.host
              Squares.intersect [Squares.fetched Squares.unit_square] []
              Featureless.result Featureless.response eq_refl eq_refl)
    as [Hlayers Hpass].
  split; [exact Hlayers|].
  apply (Hpass (Squares.fetched Squares.unit_square));
    [left | reflexivity].
Defined.

(** * The configuration of the markers ([use-config]) *)

(** [z.enum(["driving-car", "cycling-regular", "foot-walking"])] on a
    string. *)
Definition transport_of_name (s : string) : option Transport :=
  if String.eqb s "driving-car" then Some driving_car
  else if String.eqb s "cycling-regular" then Some cycling_regular
  else if String.eqb s "foot-walking" then Some foot_walking
  else None.

Definition transportSchema (j : json) : option Transport :=
  match j with
  | JString s => transport_of_name s
  | _ => None
  end.

(** [z.tuple([z.number(), z.number()])], as [CoordinateSchema]. *)
Definition locationSchema (j : json) : option Coordinate := CoordinateSchema j.

Definition configItemSchema (j : json) : option Config.item :=
  match j with
  | JObject members =>
      match required z_string (property "id" members),
            required locationSchema (property "location" members),
            required transportSchema (property "transport" members),
            required z_number (property "range" members) with
      | Some i, Some l, Some t, Some r =>
          Some {| Config.id := i; Config.location := l;
                  Config.transport := t; Config.range := r |}
      | _, _, _, _ => None
      end
  | _ => None
  end.

Definition configSchema (j : json) : option (list Config.item) :=
  z_array configItemSchema j.

Section UseConfig.

(** [JSON.parse(atob(s))]: [None] when [atob] or [JSON.parse] throws. *)
Variable JSON_parse_atob : string -> option json.

(** [useConfig(encodedConfig)]; [None] is [undefined], and the empty string
    is falsy as well. *)
Definition useConfig (encodedConfig : option string) : list Config.item :=
  match encodedConfig with
  | None => []
  | Some s =>
      if String.eqb s "" then []
      else
        match JSON_parse_atob s with
        | None => []
        | Some j =>
            match configSchema j with
            | Some parsed => parsed
            | None => []
            end
        end
  end.

End UseConfig.

(** A marker as [JSON.parse] reads it back after [JSON.stringify]. *)
Definition config_json (item : Config.item) : json :=
  JObject
    [("id", JString (Config.id item));
     ("location",
      JArray [JSON_number_sent (Config.location item).1;
              JSON_number_sent (Config.location item).2]);
     ("transport", JString (transport_name (Config.transport item)));
     ("range", JSON_number_sent (Config.range item))].

(** [JSON.stringify(config)], read back. *)
Definition sent_config (config : list Config.item) : json :=
  JArray (map config_json config).

(** The numbers of a marker are finite. *)
Definition item_finite (item : Config.item) : bool :=
  is_finite (Config.location item).1 &&
  is_finite (Config.location item).2 &&
  is_finite (Config.range item).

(** A marker whose zeros have lost their sign. *)
Definition unsigned_zeros (item : Config.item) : Config.item :=
  {| Config.id := Config.id item;
     Config.location :=
       (if ((Config.location item).1 =? 0)%float then 0%float
        else (Config.location item).1,
        if ((Config.location item).2 =? 0)%float then 0%float
        else (Config.location item).2);
     Config.transport := Config.transport item;
     Config.range :=
       if (Config.range item =? 0)%float then 0%float
       else Config.range item |}.

Lemma transport_of_name_name t : transport_of_name (transport_name t) = Some t.
Proof. destruct t; reflexivity. Qed.

Lemma transport_of_name_Some s t :
  transport_of_name s = Some t -> s = transport_name t.
Proof.
  unfold transport_of_name.
  destruct (String.eqb s "driving-car") eqn:H1;
    [apply String.eqb_eq in H1; intros [= <-]; exact H1|].
  destruct (String.eqb s "cycling-regular") eqn:H2;
    [apply String.eqb_eq in H2; intros [= <-]; exact H2|].
  destruct (String.eqb s "foot-walking") eqn:H3;
    [apply String.eqb_eq in H3; intros [= <-]; exact H3|].
  discriminate.
Qed.

Lemma configItemSchema_finite j item :
  configItemSchema j = Some item -> item_finite item = true.
Proof.
  unfold configItemSchema. destruct j as [| | | |items|members]; try discriminate.
  destruct (required z_string _) as [i|]; [|discriminate].
  destruct (property "location" members) as [l|]; [|discriminate].
  cbn [required]. unfold locationSchema, CoordinateSchema.
  destruct l as [| | | |[|a [|b [|c rest]]]|]; try discriminate.
  unfold z_number at 1 2.
  destruct a as [| |x| | |]; try discriminate.
  destruct (is_finite x) eqn:Hx; [|discriminate].
  destruct b as [| |y| | |]; try discriminate.
  destruct (is_finite y) eqn:Hy; [|discriminate].
  destruct (required transportSchema _) as [t|]; [|discriminate].
  destruct (property "range" members) as [r|]; [|discriminate].
  cbn [required]. unfold z_number.
  destruct r as [| |z| | |]; try discriminate.
  destruct (is_finite z) eqn:Hz; [|discriminate].
  intros [= <-]. unfold item_finite. cbn [Config.location Config.range fst snd].
  rewrite Hx, Hy, Hz. reflexivity.
Qed.

Lemma configItemSchema_config_json item :
  configItemSchema (config_json item)
  = if item_finite item then Some (unsigned_zeros item) else None.
Proof.
  unfold configItemSchema, config_json.
  cbn [property String.eqb Ascii.eqb Bool.eqb required z_string
       transportSchema].
  unfold locationSchema, CoordinateSchema. rewrite !z_number_sent.
  rewrite transport_of_name_name. unfold item_finite.
  destruct (is_finite (Config.location item).1); [|reflexivity].
  destruct (is_finite (Config.location item).2); [|reflexivity].
  destruct (is_finite (Config.range item)); reflexivity.
Qed.

Lemma configSchema_sent_config config :
  configSchema (sent_config config)
  = if forallb item_finite config then Some (map unsigned_zeros config)
    else None.
Proof.
  unfold configSchema, sent_config, z_array.
  induction config as [|item config IH]; cbn [map z_items forallb];
    [reflexivity|].
  rewrite configItemSchema_config_json, IH.
  destruct (item_finite item); [|reflexivity].
  destruct (forallb item_finite config); reflexivity.
Qed.

(** X19. The markers that [useConfig] gives never hold a number that is
    NaN or infinite, whatever the address holds and whatever decoding it
    gives. *)
Theorem config_read_from_the_address_is_finite
    (JSON_parse_atob : string -> option json)
    (encodedConfig : option string) :
  Forall (fun item => item_finite item = true)
         (useConfig JSON_parse_atob encodedConfig).
Proof.
  unfold useConfig. destruct encodedConfig as [s|]; [|constructor].
  destruct (String.eqb s ""); [constructor|].
  destruct (JSON_parse_atob s) as [j|]; [|constructor].
  destruct (configSchema j) as [parsed|] eqn:Hparsed; [|constructor].
  unfold configSchema, z_array in Hparsed.
  destruct j as [| | | |items|]; try discriminate.
  apply (z_items_Forall configItemSchema _ configItemSchema_finite items).
  exact Hparsed.
Qed.

(** X20. The configuration is read all or nothing: when every element of
    the decoded array is a marker, [useConfig] gives as many markers as
    the array has elements; a single element that is not a marker leaves
    no marker at all. *)
Theorem config_is_read_all_or_nothing
    (JSON_parse_atob : string -> option json) (s : string)
    (items : list json) :
  s <> "" ->
  JSON_parse_atob s = Some (JArray items) ->
  (Forall (fun j => configItemSchema j <> None) items ->
   length (useConfig JSON_parse_atob (Some s)) = length items /\
   Forall2 (fun j item => configItemSchema j = Some item)
           items (useConfig JSON_parse_atob (Some s))) /\
  (forall j, j ∈ items -> configItemSchema j = None ->
             useConfig JSON_parse_atob (Some s) = []).
Proof.
  intros Hs Hdecoded. unfold useConfig.
  apply String.eqb_neq in Hs. rewrite Hs, Hdecoded.
  unfold configSchema, z_array. split.
  - intros Hall.
    assert (Hparsed : exists parsed,
               z_items configItemSchema items = Some parsed /\
               Forall2 (fun j item => configItemSchema j = Some item)
                       items parsed).
    { clear Hdecoded. induction Hall as [|j items Hj _ IH]; cbn [z_items].
      - exists []. split; [reflexivity | constructor].
      - destruct IH as (parsed & -> & Hparsed).
        destruct (configItemSchema j) as [item|] eqn:Hitem; [|congruence].
        exists (item :: parsed). split; [reflexivity|].
        constructor; assumption. }
    destruct Hparsed as (parsed & -> & Hparsed).
    split; [|exact Hparsed].
    symmetry. eapply Forall2_length, Hparsed.
  - intros j Hin Hj. rewrite (z_items_rejects _ _ _ Hin Hj). reflexivity.
Qed.

(** X21. A configuration written into the address and read back by
    [useConfig] is the configuration itself, except that a zero loses its
    sign, when all its numbers are finite; when one number of one marker
    is not, no marker is read back. *)
Theorem config_written_and_read_back
    (JSON_parse_atob : string -> option json)
    (btoa_JSON_stringify : list Config.item -> string)
    (config : list Config.item) :
  btoa_JSON_stringify config <> "" ->
  JSON_parse_atob (btoa_JSON_stringify config) = Some (sent_config config) ->
  useConfig JSON_parse_atob (Some (btoa_JSON_stringify config))
  = if forallb item_finite config then map unsigned_zeros config else [].
Proof.
  intros Hs Hdecoded. unfold useConfig.
  apply String.eqb_neq in Hs. rewrite Hs, Hdecoded.
  rewrite configSchema_sent_config.
  destruct (forallb item_finite config); reflexivity.
Qed.

Module Address.

(** The text that [btoa(JSON.stringify(config))] gives for the
    configuration that holds the marker [Markers.walker] alone. *)
Definition written : string :=
  "W3siaWQiOiJtMSIsImxvY2F0aW9uIjpbLTAuMSw1MS41XSwidHJhbnNwb3J0IjoiZm9vdC13YWxraW5nIiwicmFuZ2UiOjUwMH1d".

Definition btoa_JSON_stringify (config : list Config.item) : string := written.

Definition JSON_parse_atob (s : string) : option json :=
  if String.eqb s written then Some (sent_config [Markers.walker]) else None.

(** A decoding that gives a marker followed by [null]. *)
Definition with_null (s : string) : option json :=
  Some (JArray [config_json Markers.walker; JNull]).

End Address.

Lemma config_is_read_all_or_nothing_witness :
  useConfig Address.with_null (Some Address.written) = [] /\
  length (useConfig Address.JSON_parse_atob (Some Address.written)) = 1%nat.
Proof.
  split.
  - destruct (config_is_read_all_or_nothing Address.with_null Address.written
                [config_json Markers.walker; JNull]
                ltac:(discriminate) eq_refl) as [_ Hnone].
    apply (Hnone JNull); [right; left | reflexivity].
  - destruct (config_is_read_all_or_nothing Address.JSON_parse_atob
                Address.written [config_json Markers.walker]
                ltac:(discriminate) eq_refl) as [Hall _].
    apply Hall. repeat constructor. vm_compute. discriminate.
Defined.

Lemma config_written_and_read_back_witness :
  useConfig Address.JSON_parse_atob
    (Some (Address.btoa_JSON_stringify [Markers.walker]))
  = [Markers.walker].
Proof.
  etransitivity;
    [exact (config_written_and_read_back Address.JSON_parse_atob
              Address.btoa_JSON_stringify [Markers.walker]
              ltac:(discriminate) eq_refl)
    | vm_compute; reflexivity].
Defined.

(** * Editing the markers (the index route) *)

Inductive FormState := create | edit.

Module Form.

Record values :=
  { id : string; location : Coordinate; transport : string; range : float }.

(** The values of the form, as the object given to
    [formValuesSchema.parse]. *)
Definition object (value : values) : json :=
  JObject
    [("id", JString (id value));
     ("location", JArray [JNumber (location value).1;
                          JNumber (location value).2]);
     ("transport", JString (transport value));
     ("range", JNumber (range value))].

End Form.

Module Index.
Record state :=
  { form : Form.values; isDialogOpen : bool; formState : FormState }.
End Index.

Definition formValuesSchema (j : json) : option Config.item :=
  match j with
  | JObject members =>
      match required z_string (property "id" members),
            required locationSchema (property "location" members),
            required transportSchema (property "transport" members),
            required z_number (property "range" members) with
      | Some i, Some l, Some t, Some r =>
          Some {| Config.id := i; Config.location := l;
                  Config.transport := t; Config.range := r |}
      | _, _, _, _ => None
      end
  | _ => None
  end.

Definition defaultValues : Form.values :=
  {| Form.id := ""; Form.location := ((-0.1276)%float, 51.5074%float);
     Form.transport := ""; Form.range := 0%float |}.

(** [config.find((item) => item.id === id)] *)
Definition find_marker (id : string) (config : list Config.item)
    : option Config.item :=
  List.find (fun item => String.eqb (Config.id item) id) config.

(** The callback [onSubmit] of the form, which [handleSubmit] below runs
    once the validators of the fields have passed: it throws when the
    values do not parse; otherwise it gives the configuration handed to
    [navigate] and the state of the dialog after [form.reset()] and
    [setIsDialogOpen(false)]. *)
Definition onSubmit (config : list Config.item) (st : Index.state)
    : Exc (list Config.item * Index.state) :=
  match formValuesSchema (Form.object (Index.form st)) with
  | None => Throws
  | Some parsedValue =>
      let newItem :=
        {| Config.id := Config.id parsedValue;
           Config.location := Config.location parsedValue;
           Config.transport := Config.transport parsedValue;
           Config.range := Config.range parsedValue |} in
      let existingItem := find_marker (Config.id parsedValue) config in
      let updatedConfig :=
        match existingItem with
        | Some _ =>
            map (fun item =>
                   if String.eqb (Config.id item) (Config.id parsedValue)
                   then newItem else item)
                config
        | None => config ++ [newItem]
        end in
      Returns (updatedConfig,
               {| Index.form := defaultValues;
                  Index.isDialogOpen := false;
                  Index.formState := Index.formState st |})
  end.

(** The validators of the fields [transport] and [range]: [!value] holds
    of the empty string, and of a number that is zero or NaN. *)
Definition transport_validator (value : string) : option string :=
  if String.eqb value "" then Some "Transport type is required" else None.

Definition range_validator (value : float) : option string :=
  if (value =? 0)%float || is_nan value then Some "Range is required"
  else None.

(** What a submit of the form comes to: it is stopped, with the messages of
    the fields, or [onSubmit] has run. *)
Inductive Submission :=
  | Blocked (errors : list string)
  | Submitted (updatedConfig : list Config.item) (st : Index.state).

(** [form.handleSubmit()], which the form calls on submit: the validators
    of the fields run first, in the order of the fields; when one of them
    gives a message, [onSubmit] is not called and the state stays as it
    is; otherwise [onSubmit] runs, and what it throws is thrown. *)
Definition handleSubmit (config : list Config.item) (st : Index.state)
    : Exc Submission :=
  match transport_validator (Form.transport (Index.form st)),
        range_validator (Form.range (Index.form st)) with
  | None, None =>
      match onSubmit config st with
      | Returns (updatedConfig, st') => Returns (Submitted updatedConfig st')
      | Throws => Throws
      end
  | Some e, None => Returns (Blocked [e])
  | None, Some e => Returns (Blocked [e])
  | Some e1, Some e2 => Returns (Blocked [e1; e2])
  end.

(** [handleMapClick], for a click at [lat], [lng]; [generated] is what
    [generateId()] gives. *)
Definition handleMapClick (generated : string) (lat lng : float)
    : Index.state :=
  {| Index.form :=
       {| Form.id := generated; Form.location := (lng, lat);
          Form.transport := ""; Form.range := 0%float |};
     Index.isDialogOpen := true;
     Index.formState := create |}.

Definition handleMarkerClick (config : list Config.item) (id : string)
    (st : Index.state) : Index.state :=
  match find_marker id config with
  | Some marker =>
      {| Index.form :=
           {| Form.id := Config.id marker;
              Form.location := Config.location marker;
              Form.transport := transport_name (Config.transport marker);
              Form.range := Config.range marker |};
         Index.isDialogOpen := true;
         Index.formState := edit |}
  | None => st
  end.

(** [handleDeleteMarker]: the configuration handed to [navigate] and the
    state of the dialog. *)
Definition handleDeleteMarker (config : list Config.item) (id : string)
    (st : Index.state) : list Config.item * Index.state :=
  (List.filter (fun item => negb (String.eqb (Config.id item) id)) config,
   {| Index.form := defaultValues;
      Index.isDialogOpen := false;
      Index.formState := Index.formState st |}).

(** [handleMarkerDragEnd], for a marker dropped at [lat], [lng]: the
    configuration handed to [navigate]. *)
Definition handleMarkerDragEnd (config : list Config.item) (id : string)
    (lat lng : float) : list Config.item :=
  map (fun item =>
         if String.eqb (Config.id item) id
         then {| Config.id := Config.id item;
                 Config.location := (lng, lat);
                 Config.transport := Config.transport item;
                 Config.range := Config.range item |}
         else item)
      config.

(** The marker that the values of the form stand for. *)
Definition marker_of (value : Form.values) (t : Transport) : Config.item :=
  {| Config.id := Form.id value; Config.location := Form.location value;
     Config.transport := t; Config.range := Form.range value |}.

Lemma formValuesSchema_object (value : Form.values) :
  formValuesSchema (Form.object value)
  = match transport_of_name (Form.transport value) with
    | Some t =>
        if item_finite (marker_of value t) then Some (marker_of value t)
        else None
    | None => None
    end.
Proof.
  unfold formValuesSchema, Form.object.
  cbn [property String.eqb Ascii.eqb Bool.eqb required z_string
       transportSchema].
  unfold locationSchema, CoordinateSchema, z_number, item_finite, marker_of.
  cbn [Config.location Config.range].
  destruct (Form.location value) as [lon lat]. cbn [fst snd].
  destruct (is_finite lon), (is_finite lat),
    (transport_of_name (Form.transport value)),
    (is_finite (Form.range value)); reflexivity.
Qed.

Lemma onSubmit_run (config : list Config.item) (st : Index.state) :
  onSubmit config st
  = match formValuesSchema (Form.object (Index.form st)) with
    | None => Throws
    | Some newItem =>
        Returns
          (match find_marker (Config.id newItem) config with
           | Some _ =>
               map (fun item =>
                      if String.eqb (Config.id item) (Config.id newItem)
                      then newItem else item)
                   config
           | None => config ++ [newItem]
           end,
           {| Index.form := defaultValues;
              Index.isDialogOpen := false;
              Index.formState := Index.formState st |})
    end.
Proof.
  unfold onSubmit.
  destruct (formValuesSchema _) as [[i l t r]|]; reflexivity.
Qed.

Lemma find_marker_replace (k : string) (newItem : Config.item) config id :
  Config.id newItem = k ->
  find_marker id
    (map (fun item => if String.eqb (Config.id item) k then newItem else item)
         config)
  = if String.eqb k id
    then match find_marker k config with
         | Some _ => Some newItem
         | None => None
         end
    else find_marker id config.
Proof.
  intros Hk. unfold find_marker.
  induction config as [|item config IH]; cbn [map List.find].
  - destruct (String.eqb k id); reflexivity.
  - destruct (String.eqb (Config.id item) k) eqn:Hitem.
    + apply String.eqb_eq in Hitem. rewrite Hk, Hitem.
      destruct (String.eqb k id); [reflexivity | exact IH].
    + destruct (String.eqb (Config.id item) id) eqn:Hid.
      * apply String.eqb_eq in Hid. subst id.
        rewrite String.eqb_sym, Hitem. reflexivity.
      * exact IH.
Qed.

Lemma find_marker_app (config : list Config.item) newItem id :
  find_marker id (config ++ [newItem])
  = match find_marker id config with
    | Some item => Some item
    | None => if String.eqb (Config.id newItem) id then Some newItem else None
    end.
Proof.
  unfold find_marker. induction config as [|item config IH];
    cbn [app List.find]; [reflexivity|].
  destruct (String.eqb (Config.id item) id); [reflexivity | exact IH].
Qed.

Lemma find_marker_None id config :
  find_marker id config = None <-> id ∉ map Config.id config.
Proof.
  unfold find_marker. induction config as [|item config IH];
    cbn [map List.find].
  - split; [intros _ Hin; inversion Hin | reflexivity].
  - rewrite not_elem_of_cons.
    destruct (String.eqb (Config.id item) id) eqn:Hid.
    + apply String.eqb_eq in Hid. split; [discriminate|].
      intros [Hne _]. congruence.
    + apply String.eqb_neq in Hid. rewrite IH. split; [|tauto].
      intros Hnot. split; [congruence | exact Hnot].
Qed.

Lemma find_marker_Some id config item :
  find_marker id config = Some item -> item ∈ config /\ Config.id item = id.
Proof.
  unfold find_marker. intros Hfind. apply List.find_some in Hfind as [Hin Hid].
  split; [apply list_elem_of_In, Hin | apply String.eqb_eq, Hid].
Qed.

Lemma replace_keeps_ids (k : string) (newItem : Config.item) config :
  Config.id newItem = k ->
  map Config.id
    (map (fun item => if String.eqb (Config.id item) k then newItem else item)
         config)
  = map Config.id config.
Proof.
  intros Hk. induction config as [|item config IH]; cbn [map];
    [reflexivity|].
  rewrite IH. destruct (String.eqb (Config.id item) k) eqn:Hitem;
    [|reflexivity].
  apply String.eqb_eq in Hitem. congruence.
Qed.

(** X22. A submit that does not throw hands on a configuration in which
    the marker of the form is the one found under its id, and in which
    every other id finds what it found before: an id that was there keeps
    its place, the order and the number of the markers, and a new id is
    added at the end.  The form is reset and the dialog closed. *)
Theorem submitted_marker_replaces_or_extends (config : list Config.item)
    (st : Index.state) (updated : list Config.item) (st' : Index.state) :
  onSubmit config st = Returns (updated, st') ->
  exists t,
    let newItem := marker_of (Index.form st) t in
    transport_name t = Form.transport (Index.form st) /\
    find_marker (Config.id newItem) updated = Some newItem /\
    (forall other, other <> Config.id newItem ->
                   find_marker other updated = find_marker other config) /\
    (find_marker (Config.id newItem) config = None ->
     updated = config ++ [newItem]) /\
    (find_marker (Config.id newItem) config <> None ->
     map Config.id updated = map Config.id config) /\
    Index.form st' = defaultValues /\ Index.isDialogOpen st' = false.
Proof.
  rewrite onSubmit_run, formValuesSchema_object.
  destruct (transport_of_name (Form.transport (Index.form st))) as [t|] eqn:Ht;
    [|discriminate].
  destruct (item_finite (marker_of (Index.form st) t)); [|discriminate].
  intros [= <- <-]. exists t. cbn zeta.
  split; [symmetry; apply transport_of_name_Some, Ht|].
  change (Config.id (marker_of (Index.form st) t))
    with (Form.id (Index.form st)).
  destruct (find_marker (Form.id (Index.form st)) config)
    as [existing|] eqn:Hfind.
  - split.
    { rewrite find_marker_replace by reflexivity.
      rewrite String.eqb_refl, Hfind. reflexivity. }
    split.
    { intros other Hother. rewrite find_marker_replace by reflexivity.
      apply not_eq_sym, String.eqb_neq in Hother. rewrite Hother.
      reflexivity. }
    split; [discriminate|].
    split; [|split; reflexivity].
    intros _. apply replace_keeps_ids. reflexivity.
  - split.
    { rewrite find_marker_app, Hfind. cbn [Config.id marker_of].
      rewrite String.eqb_refl. reflexivity. }
    split.
    { intros other Hother. rewrite find_marker_app.
      destruct (find_marker other config); [reflexivity|].
      apply not_eq_sym, String.eqb_neq in Hother.
      cbn [Config.id marker_of]. rewrite Hother. reflexivity. }
    split; [reflexivity|].
    split; [|split; reflexivity].
    intros Hsome. congruence.
Qed.

Lemma transport_name_not_empty t : String.eqb (transport_name t) "" = false.
Proof. destruct t; reflexivity. Qed.

Lemma transport_of_name_empty : transport_of_name "" = None.
Proof. reflexivity. Qed.

Lemma finite_not_nan (x : float) : is_finite x = true -> is_nan x = false.
Proof.
  unfold is_finite. destruct (is_nan x); [discriminate | reflexivity].
Qed.

(** X23. A submit is stopped, and nothing is handed on or thrown, exactly
    when the transport of the form is empty or its range is zero or NaN:
    so it is, by both validators, on the form as a click on the map leaves
    it.  A submit throws exactly when the validators pass and the values
    do not parse: the transport is none of the three names, or a number of
    the form is not finite. *)
Theorem submit_is_stopped_by_the_validators_or_parses
    (config : list Config.item) (st : Index.state) :
  ((exists errors, handleSubmit config st = Returns (Blocked errors)) <->
   (Form.transport (Index.form st) = "" \/
    (Form.range (Index.form st) =? 0)%float = true \/
    is_nan (Form.range (Index.form st)) = true)) /\
  (handleSubmit config st = Throws <->
   (Form.transport (Index.form st) <> "" /\
    (Form.range (Index.form st) =? 0)%float = false /\
    is_nan (Form.range (Index.form st)) = false /\
    (transport_of_name (Form.transport (Index.form st)) = None \/
     is_finite (Form.location (Index.form st)).1 = false \/
     is_finite (Form.location (Index.form st)).2 = false \/
     is_finite (Form.range (Index.form st)) = false))) /\
  forall generated lat lng,
    handleSubmit config (handleMapClick generated lat lng)
    = Returns (Blocked ["Transport type is required"; "Range is required"]).
Proof.
  split; [|split; [|reflexivity]].
  - unfold handleSubmit, transport_validator, range_validator.
    destruct (String.eqb (Form.transport (Index.form st)) "") eqn:Ht.
    + apply String.eqb_eq in Ht.
      split; [auto|]. intros _.
      destruct (_ || _); eexists; reflexivity.
    + apply String.eqb_neq in Ht.
      destruct (Form.range (Index.form st) =? 0)%float eqn:Hzero;
        cbn [orb].
      * split; [auto|]. intros _. eexists. reflexivity.
      * destruct (is_nan (Form.range (Index.form st))) eqn:Hnan.
        -- split; [auto|]. intros _. eexists. reflexivity.
        -- split.
           ++ intros [errors Hrun].
              destruct (onSubmit config st) as [[updated st']|];
                discriminate Hrun.
           ++ intros [H|[H|H]]; [contradiction | discriminate..].
  - unfold handleSubmit, transport_validator, range_validator.
    destruct (String.eqb (Form.transport (Index.form st)) "") eqn:Ht.
    + apply String.eqb_eq in Ht.
      split; [destruct (_ || _); discriminate|].
      intros (Hne & _). contradiction.
    + apply String.eqb_neq in Ht.
      destruct (Form.range (Index.form st) =? 0)%float eqn:Hzero;
        cbn [orb].
      * split; [discriminate|]. intros (_ & H & _). discriminate.
      * destruct (is_nan (Form.range (Index.form st))) eqn:Hnan.
        -- split; [discriminate|]. intros (_ & _ & H & _). discriminate.
        -- rewrite onSubmit_run, formValuesSchema_object.
           destruct (transport_of_name (Form.transport (Index.form st)))
             as [t|];
             [|split; [intros _; repeat split; auto | reflexivity]].
           unfold item_finite, marker_of. cbn [Config.location Config.range].
           destruct (is_finite (Form.location (Index.form st)).1),
             (is_finite (Form.location (Index.form st)).2),
             (is_finite (Form.range (Index.form st))); cbn [andb];
             split; try discriminate;
             try (intros _; repeat split; auto; fail);
             try reflexivity;
             intros (_ & _ & _ & [H|[H|[H|H]]]); discriminate.
Qed.

Module Dialog.

(** The dialog after a click on the map at London and the choice of a
    transport and of a range. *)
Definition filled : Index.state :=
  {| Index.form :=
       {| Form.id := "k3x9q2c1z"; Form.location := Example.london;
          Form.transport := "cycling-regular"; Form.range := 300%float |};
     Index.isDialogOpen := true;
     Index.formState := create |}.

(** The dialog opened on a marker that the address gave with a negative
    range. *)
Definition negative : Index.state :=
  {| Index.form :=
       {| Form.id := "k3x9q2c1z"; Form.location := Example.london;
          Form.transport := "cycling-regular"; Form.range := (-300)%float |};
     Index.isDialogOpen := true;
     Index.formState := edit |}.

Definition closed : Index.state :=
  {| Index.form := defaultValues; Index.isDialogOpen := false;
     Index.formState := create |}.

End Dialog.

Lemma submitted_marker_replaces_or_extends_witness :
  exists updated st',
    onSubmit [Markers.walker; Markers.driver] Dialog.filled
    = Returns (updated, st') /\
    find_marker "k3x9q2c1z" updated
    = Some (marker_of (Index.form Dialog.filled) cycling_regular) /\
    find_marker "m2" updated = Some Markers.driver.
Proof.
  eexists _, _. split; [reflexivity|].
  destruct (submitted_marker_replaces_or_extends
              [Markers.walker; Markers.driver] Dialog.filled _ _ eq_refl)
    as (t & Ht & Hfound & Hothers & _).
  destruct t; try discriminate Ht.
  split; [exact Hfound|].
  rewrite Hothers by discriminate. reflexivity.
Defined.

(** X24. Neither the form nor the address holds a range to what the
    server requires: a submit of a form whose range is negative passes the
    validators and the schema of the form, and hands on a configuration
    that holds the marker; the schema of the configuration admits this
    marker from the address; and the fetch for it throws on every
    server. *)
Theorem form_accepts_a_range_the_server_refuses (config : list Config.item)
    (st : Index.state) (t : Transport) :
  transport_of_name (Form.transport (Index.form st)) = Some t ->
  item_finite (marker_of (Index.form st) t) = true ->
  (Form.range (Index.form st) <? 0)%float = true ->
  exists updated st',
    handleSubmit config st = Returns (Submitted updated st') /\
    marker_of (Index.form st) t ∈ updated /\
    configItemSchema (config_json (marker_of (Index.form st) t))
    = Some (unsigned_zeros (marker_of (Index.form st) t)) /\
    Config.range (unsigned_zeros (marker_of (Index.form st) t))
    = Form.range (Index.form st) /\
    forall host w,
      (queryFn host (marker_of (Index.form st) t) w).1 = Throws.
Proof.
  intros Ht Hfinite Hrange.
  assert (Hzero : (Form.range (Index.form st) =? 0)%float = false).
  { revert Hrange.
    rewrite FloatAxioms.ltb_spec, FloatAxioms.eqb_spec.
    replace (Prim2SF 0%float) with (S754_zero false) by reflexivity.
    destruct (Prim2SF (Form.range (Index.form st))) as [s|s| |s m e];
      try destruct s; cbn; congruence. }
  assert (Hle : (Form.range (Index.form st) <=? 0)%float = true).
  { revert Hrange.
    rewrite FloatAxioms.ltb_spec, FloatAxioms.leb_spec.
    replace (Prim2SF 0%float) with (S754_zero false) by reflexivity.
    unfold SFltb, SFleb.
    destruct (SFcompare _ _) as [[| |]|]; congruence. }
  assert (Hnan : is_nan (Form.range (Index.form st)) = false).
  { apply finite_not_nan.
    unfold item_finite in Hfinite. cbn [marker_of Config.range] in Hfinite.
    apply andb_prop in Hfinite as [_ Hr]. exact Hr. }
  unfold handleSubmit, transport_validator, range_validator.
  assert (Hname : String.eqb (Form.transport (Index.form st)) "" = false).
  { apply String.eqb_neq. intros Hempty. rewrite Hempty in Ht.
    discriminate Ht. }
  rewrite Hname, Hzero, Hnan. cbn [orb].
  rewrite onSubmit_run, formValuesSchema_object, Ht, Hfinite.
  eexists _, _. split; [reflexivity|]. split; [|split; [|split]].
  - destruct (find_marker _ config) as [existing|] eqn:Hfind.
    + apply find_marker_Some in Hfind as [Hin Hid].
      apply list_elem_of_fmap. exists existing. split; [|exact Hin].
      apply String.eqb_eq in Hid. rewrite Hid. reflexivity.
    + apply elem_of_app. right. left.
  - rewrite configItemSchema_config_json, Hfinite. reflexivity.
  - cbn [unsigned_zeros marker_of Config.range]. rewrite Hzero. reflexivity.
  - intros host w. unfold queryFn.
    rewrite bind_run, app_post_route, logger_run.
    unfold post. rewrite query_json_rejected; [reflexivity|].
    left. exact Hle.
Qed.

Lemma form_accepts_a_range_the_server_refuses_witness :
  exists updated st',
    handleSubmit [Markers.walker] Dialog.negative
    = Returns (Submitted updated st') /\
    marker_of (Index.form Dialog.negative) cycling_regular ∈ updated /\
    (queryFn Example.host
       (marker_of (Index.form Dialog.negative) cycling_regular)
       Example.empty_world).1
    = Throws.
Proof.
  destruct (form_accepts_a_range_the_server_refuses [Markers.walker]
              Dialog.negative cycling_regular eq_refl eq_refl eq_refl)
    as (updated & st' & Hrun & Hin & _ & _ & Hfetch).
  exists updated, st'. auto.
Defined.

Lemma same_id_same_marker (config : list Config.item) a b :
  NoDup (map Config.id config) ->
  a ∈ config -> b ∈ config -> Config.id a = Config.id b -> a = b.
Proof.
  induction config as [|item config IH]; cbn [map]; intros Hnodup Ha Hb Hid.
  - inversion Ha.
  - apply NoDup_cons in Hnodup as [Hnotin Hnodup].
    apply elem_of_cons in Ha as [->|Ha]; apply elem_of_cons in Hb as [->|Hb].
    + reflexivity.
    + exfalso. apply Hnotin. rewrite Hid.
      apply list_elem_of_fmap. exists b. auto.
    + exfalso. apply Hnotin. rewrite <- Hid.
      apply list_elem_of_fmap. exists a. auto.
    + apply IH; assumption.
Qed.

Lemma find_marker_unique (config : list Config.item) marker :
  NoDup (map Config.id config) -> marker ∈ config ->
  find_marker (Config.id marker) config = Some marker.
Proof.
  intros Hnodup Hin.
  destruct (find_marker (Config.id marker) config) as [found|] eqn:Hfind.
  - apply find_marker_Some in Hfind as [Hfound Hid].
    f_equal. apply (same_id_same_marker config); assumption.
  - apply find_marker_None in Hfind. exfalso. apply Hfind.
    apply list_elem_of_fmap. exists marker. auto.
Qed.

Lemma replace_by_itself (config : list Config.item) marker :
  NoDup (map Config.id config) -> marker ∈ config ->
  map (fun item =>
         if String.eqb (Config.id item) (Config.id marker) then marker
         else item)
      config
  = config.
Proof.
  intros Hnodup Hin.
  assert (Hall : forall l, l ⊆ config ->
             map (fun item =>
                    if String.eqb (Config.id item) (Config.id marker)
                    then marker else item) l = l).
  { induction l as [|item l IH]; intros Hsub; cbn [map]; [reflexivity|].
    rewrite IH by (intros x Hx; apply Hsub; right; exact Hx).
    destruct (String.eqb (Config.id item) (Config.id marker)) eqn:Hid;
      [|reflexivity].
    apply String.eqb_eq in Hid. f_equal.
    apply (same_id_same_marker config); auto.
    apply Hsub. left. }
  apply Hall. intros x Hx. exact Hx.
Qed.

(** X25. Opening a marker and submitting the form as it stands, when the
    ids of the markers are distinct and the numbers of the marker are
    finite: the submit hands on the configuration as it was, resets the
    form and closes the dialog, unless the range of the marker is zero;
    then the validator of the range stops it and nothing is handed on. *)
Theorem clicked_marker_resubmitted_unchanged (config : list Config.item)
    (marker : Config.item) (st : Index.state) :
  NoDup (map Config.id config) ->
  marker ∈ config ->
  item_finite marker = true ->
  handleSubmit config (handleMarkerClick config (Config.id marker) st)
  = if (Config.range marker =? 0)%float
    then Returns (Blocked ["Range is required"])
    else Returns
           (Submitted config
              {| Index.form := defaultValues;
                 Index.isDialogOpen := false;
                 Index.formState := edit |}).
Proof.
  intros Hnodup Hin Hfinite.
  unfold handleMarkerClick. rewrite (find_marker_unique _ _ Hnodup Hin).
  unfold handleSubmit, transport_validator, range_validator.
  cbn [Index.form Form.transport Form.range].
  rewrite transport_name_not_empty.
  destruct (Config.range marker =? 0)%float; [reflexivity|].
  assert (Hnan : is_nan (Config.range marker) = false).
  { apply finite_not_nan. unfold item_finite in Hfinite.
    apply andb_prop in Hfinite as [_ Hr]. exact Hr. }
  rewrite Hnan. cbn [orb].
  rewrite onSubmit_run, formValuesSchema_object.
  cbn [Index.form Form.transport]. rewrite transport_of_name_name.
  assert (Hmarker :
            marker_of
              {| Form.id := Config.id marker;
                 Form.location := Config.location marker;
                 Form.transport := transport_name (Config.transport marker);
                 Form.range := Config.range marker |}
              (Config.transport marker) = marker)
    by (destruct marker; reflexivity).
  rewrite Hmarker, Hfinite, (find_marker_unique _ _ Hnodup Hin).
  rewrite (replace_by_itself _ _ Hnodup Hin). reflexivity.
Qed.

Lemma walker_and_driver_distinct :
  NoDup (map Config.id [Markers.walker; Markers.driver]).
Proof.
  cbn [map]. apply NoDup_cons. split.
  - intros Hin. apply list_elem_of_singleton in Hin. discriminate.
  - apply NoDup_singleton.
Qed.

Lemma clicked_marker_resubmitted_unchanged_witness :
  handleSubmit [Markers.walker; Markers.driver]
    (handleMarkerClick [Markers.walker; Markers.driver] "m2" Dialog.closed)
  = Returns
      (Submitted [Markers.walker; Markers.driver]
         {| Index.form := defaultValues;
            Index.isDialogOpen := false;
            Index.formState := edit |}).
Proof.
  etransitivity;
    [apply (clicked_marker_resubmitted_unchanged
              [Markers.walker; Markers.driver] Markers.driver Dialog.closed
              walker_and_driver_distinct);
     [right; left | vm_compute; reflexivity]
    | reflexivity].
Defined.

Lemma find_marker_filter (config : list Config.item) id other :
  find_marker other
    (List.filter (fun item => negb (String.eqb (Config.id item) id)) config)
  = if String.eqb id other then None else find_marker other config.
Proof.
  unfold find_marker. induction config as [|item config IH];
    cbn [List.filter List.find].
  - destruct (String.eqb id other); reflexivity.
  - destruct (String.eqb (Config.id item) id) eqn:Hid; cbn [negb List.find].
    + apply String.eqb_eq in Hid. rewrite Hid.
      destruct (String.eqb id other); [exact IH|]. exact IH.
    + destruct (String.eqb (Config.id item) other) eqn:Hother; [|exact IH].
      apply String.eqb_eq in Hother. subst other.
      rewrite String.eqb_sym, Hid. reflexivity.
Qed.

Lemma filter_absent_id (config : list Config.item) id :
  id ∉ map Config.id config ->
  List.filter (fun item => negb (String.eqb (Config.id item) id)) config
  = config.
Proof.
  induction config as [|item config IH]; cbn [map List.filter];
    [reflexivity|].
  intros [Hne Hnotin]%not_elem_of_cons.
  apply not_eq_sym, String.eqb_neq in Hne. rewrite Hne. cbn [negb].
  rewrite IH by exact Hnotin. reflexivity.
Qed.

(** X26. Deleting a marker hands on a configuration in which its id finds
    nothing, every marker of this id being removed, and in which every
    other id finds what it found before; deleting an id that no marker has
    hands on the configuration as it was.  The form is reset and the
    dialog closed. *)
Theorem deleted_marker_is_gone (config : list Config.item) (id : string)
    (st : Index.state) :
  let updated := (handleDeleteMarker config id st).1 in
  let st' := (handleDeleteMarker config id st).2 in
  find_marker id updated = None /\
  (id ∉ map Config.id updated) /\
  (forall other, other <> id ->
                 find_marker other updated = find_marker other config) /\
  (find_marker id config = None -> updated = config) /\
  Index.form st' = defaultValues /\ Index.isDialogOpen st' = false.
Proof.
  cbn [handleDeleteMarker fst snd Index.form Index.isDialogOpen].
  assert (Hgone :
            find_marker id
              (List.filter
                 (fun item => negb (String.eqb (Config.id item) id)) config)
            = None)
    by (rewrite find_marker_filter, String.eqb_refl; reflexivity).
  split; [exact Hgone|].
  split; [apply find_marker_None, Hgone|].
  split.
  { intros other Hother. rewrite find_marker_filter.
    apply not_eq_sym, String.eqb_neq in Hother. rewrite Hother.
    reflexivity. }
  split; [|split; reflexivity].
  intros Habsent. apply filter_absent_id, find_marker_None, Habsent.
Qed.

(** X27. Adding a marker under a new id and deleting it again gives back
    the configuration there was. *)
Theorem added_marker_deleted_again (config : list Config.item)
    (st : Index.state) (updated : list Config.item) (st' st'' : Index.state) :
  onSubmit config st = Returns (updated, st') ->
  find_marker (Form.id (Index.form st)) config = None ->
  (handleDeleteMarker updated (Form.id (Index.form st)) st'').1 = config.
Proof.
  rewrite onSubmit_run, formValuesSchema_object.
  destruct (transport_of_name (Form.transport (Index.form st))) as [t|];
    [|discriminate].
  destruct (item_finite (marker_of (Index.form st) t)); [|discriminate].
  change (Config.id (marker_of (Index.form st) t))
    with (Form.id (Index.form st)).
  intros Hrun Hnew. rewrite Hnew in Hrun. injection Hrun as <- _.
  cbn [handleDeleteMarker fst]. rewrite List.filter_app.
  rewrite filter_absent_id by (apply find_marker_None, Hnew).
  cbn [List.filter marker_of Config.id]. rewrite String.eqb_refl.
  apply app_nil_r.
Qed.

Lemma added_marker_deleted_again_witness :
  exists updated st',
    onSubmit [Markers.walker; Markers.driver] Dialog.filled
    = Returns (updated, st') /\
    (handleDeleteMarker updated "k3x9q2c1z" st').1
    = [Markers.walker; Markers.driver].
Proof.
  eexists _, _. split; [reflexivity|].
  apply (added_marker_deleted_again [Markers.walker; Markers.driver]
           Dialog.filled _ _ _ eq_refl eq_refl).
Defined.

Lemma dragEnd_keeps_ids (config : list Config.item) id lat lng :
  map Config.id (handleMarkerDragEnd config id lat lng) = map Config.id config.
Proof.
  unfold handleMarkerDragEnd.
  induction config as [|item config IH]; cbn [map]; [reflexivity|].
  rewrite IH. destruct (String.eqb (Config.id item) id); reflexivity.
Qed.

Lemma filter_keeps_distinct (config : list Config.item)
    (keep : Config.item -> bool) :
  NoDup (map Config.id config) ->
  NoDup (map Config.id (List.filter keep config)).
Proof.
  induction config as [|item config IH]; cbn [map List.filter];
    [intros; constructor|].
  intros [Hnotin Hnodup]%NoDup_cons.
  destruct (keep item); [|auto].
  cbn [map]. apply NoDup_cons. split; [|auto].
  intros Hin. apply Hnotin.
  apply list_elem_of_fmap in Hin as (x & -> & Hx).
  apply list_elem_of_fmap. exists x. split; [reflexivity|].
  apply list_elem_of_In. apply list_elem_of_In in Hx.
  apply List.filter_In in Hx as [Hx _]. exact Hx.
Qed.

(** X28. Editing keeps the ids of the markers distinct: when they are in
    the configuration, they are in the configuration that a submit, a
    deletion or the end of a drag hands on. *)
Theorem editing_keeps_ids_distinct (config : list Config.item) :
  NoDup (map Config.id config) ->
  (forall st updated st',
      onSubmit config st = Returns (updated, st') ->
      NoDup (map Config.id updated)) /\
  (forall id st, NoDup (map Config.id (handleDeleteMarker config id st).1)) /\
  (forall id lat lng,
      NoDup (map Config.id (handleMarkerDragEnd config id lat lng))).
Proof.
  intros Hnodup. split; [|split].
  - intros st updated st'. rewrite onSubmit_run.
    destruct (formValuesSchema _) as [newItem|]; [|discriminate].
    intros [= <- _].
    destruct (find_marker (Config.id newItem) config) as [existing|] eqn:Hfind.
    + rewrite replace_keeps_ids by reflexivity. exact Hnodup.
    + rewrite map_app. cbn [map]. apply NoDup_app. split; [exact Hnodup|].
      split; [|apply NoDup_singleton].
      intros x Hx Hnew. apply list_elem_of_singleton in Hnew. subst x.
      apply find_marker_None in Hfind. contradiction.
  - intros id st. cbn [handleDeleteMarker fst].
    apply filter_keeps_distinct, Hnodup.
  - intros id lat lng. rewrite dragEnd_keeps_ids. exact Hnodup.
Qed.

Lemma editing_keeps_ids_distinct_witness :
  NoDup (map Config.id
           (handleMarkerDragEnd [Markers.walker; Markers.driver] "m1"
              48.85%float 2.35%float)) /\
  NoDup (map Config.id
           (handleDeleteMarker [Markers.walker; Markers.driver] "m1"
              Dialog.closed).1).
Proof.
  destruct (editing_keeps_ids_distinct [Markers.walker; Markers.driver]
              walker_and_driver_distinct) as (_ & Hdelete & Hdrag).
  split; [apply Hdrag | apply Hdelete].
Defined.

(** X29. The end of a drag moves the markers of the dragged id to where
    the marker was dropped, longitude first, and nothing else: every
    marker keeps its place in the configuration, its id, its transport and
    its range, and the markers of another id keep their location; the
    drag of an id that no marker has hands on the configuration as it
    was. *)
Theorem dropped_marker_moves_alone (config : list Config.item) (id : string)
    (lat lng : float) :
  Forall2 (fun item moved =>
             Config.id moved = Config.id item /\
             Config.transport moved = Config.transport item /\
             Config.range moved = Config.range item /\
             Config.location moved
             = if String.eqb (Config.id item) id then (lng, lat)
               else Config.location item)
          config (handleMarkerDragEnd config id lat lng) /\
  (find_marker id config = None ->
   handleMarkerDragEnd config id lat lng = config).
Proof.
  unfold handleMarkerDragEnd. split.
  - induction config as [|item config IH]; cbn [map]; constructor;
      [|exact IH].
    destruct (String.eqb (Config.id item) id); repeat split; reflexivity.
  - induction config as [|item config IH]; cbn [map]; [reflexivity|].
    unfold find_marker. cbn [List.find].
    destruct (String.eqb (Config.id item) id); [discriminate|].
    intros Hnone. rewrite IH by exact Hnone. reflexivity.
Qed.

(** * The line of a drag ([useMap], [usePolylines]) *)

Module Drag.
(** The state [polyline] of [useMap] when it is not [null]; both ends are
    [[lng, lat]]. *)
Record line := { from : Coordinate; to : Coordinate }.
End Drag.

Record MapPolyline :=
  { polyline_key : string;
    positions : list Coordinate;
    polyline_color : string;
    polyline_weight : float;
    dashArray : string;
    polyline_opacity : float }.

(** The events of a marker, with what [e.target.getLatLng()] gives. *)
Inductive MarkerEvent :=
  | click
  | dragstart (lat lng : float)
  | drag (lat lng : float)
  | dragend (lat lng : float).

(** What [markerHandlers] does to the state [polyline]. *)
Definition markerHandlers (polyline : option Drag.line) (e : MarkerEvent)
    : option Drag.line :=
  match e with
  | click => polyline
  | dragstart lat lng =>
      Some {| Drag.from := (lng, lat); Drag.to := (lng, lat) |}
  | drag lat lng =>
      match polyline with
      | Some prev => Some {| Drag.from := Drag.from prev; Drag.to := (lng, lat) |}
      | None => None
      end
  | dragend _ _ => None
  end.

Definition usePolylines (polyline : option Drag.line) : list MapPolyline :=
  match polyline with
  | None => []
  | Some polyline =>
      [{| polyline_key := "polyline";
          positions :=
            [((Drag.from polyline).2, (Drag.from polyline).1);
             ((Drag.to polyline).2, (Drag.to polyline).1)];
          polyline_color := "#666";
          polyline_weight := 2%float;
          dashArray := "5, 5";
          polyline_opacity := 0.7%float |}]
  end.

(** The events of a list, handled one after the other. *)
Definition handle_all (polyline : option Drag.line) (events : list MarkerEvent)
    : option Drag.line :=
  fold_left markerHandlers events polyline.

(** The moves of a drag, as events. *)
Definition drags (moves : list (float * float)) : list MarkerEvent :=
  map (fun p => drag p.1 p.2) moves.

Lemma drags_from_line (moves : list (float * float)) :
  forall start current,
    handle_all (Some {| Drag.from := start; Drag.to := current |})
               (drags moves)
    = Some {| Drag.from := start;
              Drag.to := match last moves with
                         | Some p => (p.2, p.1)
                         | None => current
                         end |}.
Proof.
  unfold handle_all, drags.
  induction moves as [|p moves IH]; intros start current;
    cbn [map fold_left markerHandlers Drag.from]; [reflexivity|].
  rewrite IH, last_cons. destruct (last moves); reflexivity.
Qed.

Lemma drags_from_nothing (moves : list (float * float)) :
  handle_all None (drags moves) = None.
Proof.
  unfold handle_all, drags.
  induction moves as [|p moves IH]; cbn [map fold_left markerHandlers];
    [reflexivity | exact IH].
Qed.

(** X30. While a marker is dragged, the map shows one line, from where the
    drag started to where the marker is now, latitude first, whatever
    happened before the drag started; the end of the drag leaves no line,
    and moves that no start of a drag precedes show none. *)
Theorem line_follows_the_dragged_marker (prior : list MarkerEvent)
    (lat0 lng0 : float) (moves : list (float * float)) (lat lng : float) :
  let during :=
    handle_all None (prior ++ dragstart lat0 lng0 :: drags moves) in
  (exists shown,
      usePolylines during = [shown] /\
      positions shown
      = [(lat0, lng0);
         match last moves with
         | Some p => p
         | None => (lat0, lng0)
         end]) /\
  usePolylines (markerHandlers during (dragend lat lng)) = [] /\
  usePolylines
    (handle_all None (prior ++ dragend lat lng :: drags moves)) = [].
Proof.
  cbn zeta. unfold handle_all. rewrite !fold_left_app.
  cbn [fold_left markerHandlers].
  fold (handle_all (Some {| Drag.from := (lng0, lat0);
                            Drag.to := (lng0, lat0) |}) (drags moves)).
  fold (handle_all None (drags moves)).
  rewrite drags_from_line, drags_from_nothing.
  split; [|split; reflexivity].
  eexists. split; [reflexivity|].
  cbn [positions Drag.from Drag.to fst snd].
  destruct (last moves) as [[a b]|]; reflexivity.
Qed.
